(** * realtime_chat: the browser client and the engine contracts it talks to

  The development embeds the JavaScript client of the chat application
  (the [WebSocketService] singleton, the [ChatWindow] component and the
  [AuthContext] provider) as executable state transformers, and states the
  protocol and state properties of the specification over them.  The
  message store and the rate limiter of the engine are not part of the
  client sources; they are modelled from the specification in their own
  modules. *)

From stdpp Require Import gmap strings list sorting.
From Stdlib Require Import ZArith Lia Sorted.

Open Scope string_scope.
Open Scope list_scope.

(** ** JavaScript values *)

Module Js.

(** A JavaScript string is a sequence of UTF-16 code units. *)
Definition jsstring := list N.

(** Code units of an ASCII literal. *)
Definition lit (s : string) : jsstring :=
  map Ascii.N_of_ascii (String.list_ascii_of_string s).

(** The values that travel through the client: what [JSON.parse] can
    return, plus [undefined] for an absent property.  An object keeps its
    fields in insertion order, which is the order [JSON.stringify] emits. *)
#[warnings="-register-all"]
Inductive value :=
| VUndefined
| VNull
| VBool (b : bool)
| VNum (z : Z)
| VStr (s : jsstring)
| VArr (xs : list value)
| VObj (fields : list (string * value)).

Fixpoint assoc (k : string) (fs : list (string * value)) : option value :=
  match fs with
  | [] => None
  | (k', v) :: fs' => if String.eqb k k' then Some v else assoc k fs'
  end.

(** [o.k]: reading a property of [null] or [undefined] throws a TypeError
    ([None]); a property that is absent reads as [undefined].  Of the
    built-in properties of strings and arrays only [length] is kept. *)
Definition get (o : value) (k : string) : option value :=
  match o with
  | VUndefined | VNull => None
  | VObj fs => Some (default VUndefined (assoc k fs))
  | VStr s =>
      Some (if String.eqb k "length" then VNum (Z.of_nat (length s))
            else VUndefined)
  | VArr xs =>
      Some (if String.eqb k "length" then VNum (Z.of_nat (length xs))
            else VUndefined)
  | VBool _ | VNum _ => Some VUndefined
  end.

(** ToBoolean. *)
Definition truthy (v : value) : bool :=
  match v with
  | VUndefined | VNull => false
  | VBool b => b
  | VNum z => negb (Z.eqb z 0)
  | VStr s => match s with [] => false | _ => true end
  | VArr _ | VObj _ => true
  end.

(** [v === "name"] for a string literal. *)
Definition strict_eq_lit (v : value) (name : string) : bool :=
  match v with
  | VStr s => bool_decide (s = lit name)
  | _ => false
  end.

(** The names of the fields an object carries. *)
Definition keys (o : value) : list string :=
  match o with
  | VObj fs => map fst fs
  | _ => []
  end.

End Js.

(** ** services/websocket.js: the WebSocketService singleton *)

Module WebSocketService.
Import Js.

Inductive ReadyState := CONNECTING | OPEN | CLOSING | CLOSED.

#[global] Instance ReadyState_eq_dec : EqDecision ReadyState.
Proof. solve_decision. Defined.

(** A browser WebSocket object: the URL it was built with, its ready
    state, and the values whose JSON text was handed to [send]. *)
Record WebSocket := mkWebSocket {
  url : string;
  readyState : ReadyState;
  outbox : list value
}.

(** A handler is a function object; [!==] compares identities. *)
Definition Handler := nat.

Record Service := mkService {
  socket : option nat;              (* reference into the heap, or null *)
  conversationId : option string;
  messageHandlers : list Handler;
  typingHandlers : list Handler;
  connectionHandlers : list Handler;
  errorHandlers : list Handler
}.

(** The service together with the objects it reaches.  The [WebSocket]
    constructor is the browser's: [accepts url] tells whether
    [new WebSocket(url)] returns a socket; where it is false the
    constructor throws a SyntaxError (the URL does not parse, its scheme is
    not a WebSocket scheme, or it has a fragment). *)
Record Env := mkEnv {
  service : Service;
  heap : list WebSocket;            (* every WebSocket built so far *)
  console : list string;
  VITE_WS_URL : option string;
  accepts : string -> bool
}.

Definition constructor : Service :=
  mkService None None [] [] [] [].

Definition initial (env_url : option string) (accepted : string -> bool) : Env :=
  mkEnv constructor [] [] env_url accepted.

Definition with_service (f : Service -> Service) (e : Env) : Env :=
  mkEnv (f (service e)) (heap e) (console e) (VITE_WS_URL e) (accepts e).

Definition with_socket (r : nat) (f : WebSocket -> WebSocket) (e : Env) : Env :=
  mkEnv (service e) (alter f r (heap e)) (console e) (VITE_WS_URL e)
    (accepts e).

Definition log (msg : string) (e : Env) : Env :=
  mkEnv (service e) (heap e) (console e ++ [msg]) (VITE_WS_URL e) (accepts e).

(** How a method call ends: it returns, or it throws; either way it leaves
    the environment it had reached. *)
Inductive Completion :=
| Returns (e : Env)
| Throws (e : Env).

Definition after (c : Completion) : Env :=
  match c with
  | Returns e | Throws e => e
  end.

(** [this.socket && this.socket.readyState === WebSocket.OPEN] *)
Definition isConnected (e : Env) : bool :=
  match socket (service e) with
  | None => false
  | Some r =>
      match heap e !! r with
      | Some ws => bool_decide (readyState ws = OPEN)
      | None => false
      end
  end.

(** [WebSocket.prototype.close]: starts the closing handshake unless the
    socket is already closing or closed. *)
Definition ws_close (ws : WebSocket) : WebSocket :=
  match readyState ws with
  | CLOSING | CLOSED => ws
  | _ => mkWebSocket (url ws) CLOSING (outbox ws)
  end.

(** [WebSocket.prototype.send] on an open socket queues the frame. *)
Definition ws_send (frame : value) (ws : WebSocket) : WebSocket :=
  mkWebSocket (url ws) (readyState ws) (outbox ws ++ [frame]).

Definition disconnect (e : Env) : Env :=
  match socket (service e) with
  | Some r =>
      with_service
        (fun s => mkService None None (messageHandlers s) (typingHandlers s)
                    (connectionHandlers s) (errorHandlers s))
        (with_socket r ws_close e)
  | None => e
  end.

(** [import.meta.env.VITE_WS_URL || "ws://localhost:8000"] *)
Definition base_url (e : Env) : string :=
  match VITE_WS_URL e with
  | Some u => if String.eqb u "" then "ws://localhost:8000" else u
  | None => "ws://localhost:8000"
  end.

(** The URL [connect] builds for a conversation. *)
Definition ws_url (cid : string) (e : Env) : string :=
  base_url e +:+ "/ws/chat/" +:+ cid +:+ "/".

(** [connect(conversationId)].  [this.conversationId] is assigned before
    [new WebSocket(wsUrl)] runs: when the constructor throws, [connect]
    throws with the id already stored and [this.socket] as the first
    statement left it.  When it returns, the socket is fresh, in state
    CONNECTING, and is given the four callbacks [onopen], [onmessage],
    [onerror] and [onclose] of the component model below. *)
Definition connect (cid : string) (e : Env) : Completion :=
  let e1 := if isConnected e then disconnect e else e in
  let e2 :=
    with_service
      (fun s => mkService (socket s) (Some cid) (messageHandlers s)
                  (typingHandlers s) (connectionHandlers s) (errorHandlers s))
      e1 in
  let wsUrl := ws_url cid e2 in
  if accepts e2 wsUrl then
    let r := length (heap e2) in
    Returns
      (with_service
         (fun s => mkService (Some r) (conversationId s) (messageHandlers s)
                     (typingHandlers s) (connectionHandlers s)
                     (errorHandlers s))
         (mkEnv (service e2) (heap e2 ++ [mkWebSocket wsUrl CONNECTING []])
            (console e2) (VITE_WS_URL e2) (accepts e2)))
  else Throws e2.

(** Sending on the current socket; only reached when [isConnected]. *)
Definition send (frame : value) (e : Env) : Env :=
  match socket (service e) with
  | Some r => with_socket r (ws_send frame) e
  | None => e
  end.

Definition sendMessage (content : jsstring) (e : Env) : Env :=
  if isConnected e
  then send (VObj [("type", VStr (lit "message")); ("content", VStr content)]) e
  else log "WebSocket is not connected" e.

Definition sendTyping (isTyping : bool) (e : Env) : Env :=
  if isConnected e
  then send (VObj [("type", VStr (lit "typing")); ("is_typing", VBool isTyping)]) e
  else e.

Definition sendReadReceipt (e : Env) : Env :=
  if isConnected e
  then send (VObj [("type", VStr (lit "read"))]) e
  else e.

(** *** Subscriptions.  Each [onX] pushes the handler and returns the
    closure that filters it out of the list current at the time it runs. *)

Definition set_messageHandlers (l : list Handler) (s : Service) : Service :=
  mkService (socket s) (conversationId s) l (typingHandlers s)
    (connectionHandlers s) (errorHandlers s).
Definition set_typingHandlers (l : list Handler) (s : Service) : Service :=
  mkService (socket s) (conversationId s) (messageHandlers s) l
    (connectionHandlers s) (errorHandlers s).
Definition set_connectionHandlers (l : list Handler) (s : Service) : Service :=
  mkService (socket s) (conversationId s) (messageHandlers s)
    (typingHandlers s) l (errorHandlers s).
Definition set_errorHandlers (l : list Handler) (s : Service) : Service :=
  mkService (socket s) (conversationId s) (messageHandlers s)
    (typingHandlers s) (connectionHandlers s) l.

Definition onMessage (handler : Handler) (s : Service)
  : Service * (Service -> Service) :=
  (set_messageHandlers (messageHandlers s ++ [handler]) s,
   fun s' => set_messageHandlers
               (filter (fun h => h <> handler) (messageHandlers s')) s').

Definition onTyping (handler : Handler) (s : Service)
  : Service * (Service -> Service) :=
  (set_typingHandlers (typingHandlers s ++ [handler]) s,
   fun s' => set_typingHandlers
               (filter (fun h => h <> handler) (typingHandlers s')) s').

Definition onConnection (handler : Handler) (s : Service)
  : Service * (Service -> Service) :=
  (set_connectionHandlers (connectionHandlers s ++ [handler]) s,
   fun s' => set_connectionHandlers
               (filter (fun h => h <> handler) (connectionHandlers s')) s').

Definition onError (handler : Handler) (s : Service)
  : Service * (Service -> Service) :=
  (set_errorHandlers (errorHandlers s ++ [handler]) s,
   fun s' => set_errorHandlers
               (filter (fun h => h <> handler) (errorHandlers s')) s').

(** The four subscription methods, indexed by the list they manage. *)
Inductive Channel := ChMessage | ChTyping | ChConnection | ChError.

Definition handlers (c : Channel) (s : Service) : list Handler :=
  match c with
  | ChMessage => messageHandlers s
  | ChTyping => typingHandlers s
  | ChConnection => connectionHandlers s
  | ChError => errorHandlers s
  end.

Definition subscribe (c : Channel)
  : Handler -> Service -> Service * (Service -> Service) :=
  match c with
  | ChMessage => onMessage
  | ChTyping => onTyping
  | ChConnection => onConnection
  | ChError => onError
  end.

(** *** Dispatch of a parsed server event.  The handlers are client
    code; [handleMessage] yields the calls [forEach] makes, in order. *)

Definition type_is (ty : value) (name : string) : bool := strict_eq_lit ty name.

Definition handleMessage (data : value) (e : Env)
  : option (Env * list (Handler * value)) :=
  match get data "type" with
  | None => None                                  (* TypeError *)
  | Some ty =>
      let s := service e in
      let payload := default VUndefined (get data "message") in
      if type_is ty "message" then
        Some (e, map (fun h => (h, payload)) (messageHandlers s))
      else if type_is ty "typing" then
        Some (e, map (fun h => (h, data)) (typingHandlers s))
      else if type_is ty "connection_established" then
        Some (log "Connection established:" e, [])
      else if type_is ty "error" then
        Some (log "WebSocket error:" e,
              map (fun h => (h, payload)) (errorHandlers s))
      else
        Some (log "Unknown message type:" e, [])
  end.

(** The invariant of the two nullable fields. *)
Definition fields_agree (s : Service) : Prop :=
  socket s = None <-> conversationId s = None.

End WebSocketService.

(** ** components/ChatWindow.jsx

    One [ChatWindow] instance lives as long as some conversation is selected
    ([Chat] renders it without a key), so selecting another conversation
    re-runs the effect on the same instance.  Nothing in the component
    catches a throw of its effect: when [connect] throws, the effect
    throws, and React removes the instance.  Time is counted in
    milliseconds; pending [setTimeout] callbacks are kept in firing order. *)

Module ChatWindow.
Import Js WebSocketService.

(** WhiteSpace and LineTerminator code units, as [String.prototype.trim]
    strips them. *)
Definition is_whitespace (c : N) : bool :=
  ((9 <=? c) && (c <=? 13) || (c =? 32) || (c =? 160) || (c =? 5760)
   || (8192 <=? c) && (c <=? 8202) || (c =? 8232) || (c =? 8233)
   || (c =? 8239) || (c =? 8287) || (c =? 12288) || (c =? 65279))%N.

Fixpoint trimStart (s : jsstring) : jsstring :=
  match s with
  | c :: s' => if is_whitespace c then trimStart s' else s
  | [] => []
  end.

Definition trimEnd (s : jsstring) : jsstring := rev (trimStart (rev s)).

Definition trim (s : jsstring) : jsstring := trimEnd (trimStart s).

(** The two callbacks the component hands to [setTimeout]. *)
Inductive TimerAction :=
| ClearTypingUser        (* () => setTypingUser(null) *)
| SendTypingFalse.       (* () => websocketService.sendTyping(false) *)

Record Timer := mkTimer { tid : nat; due : N; action : TimerAction }.

(** The three arrow functions [connectWebSocket] registers. *)
Inductive Callback :=
| SetConnected           (* (isConnected) => setConnected(isConnected) *)
| AppendMessage          (* (message) => setMessages(prev => [...prev, message]) *)
| ShowTyping.            (* (data) => { if (data.is_typing) ... } *)

Record State := mkState {
  messages : list value;
  newMessage : jsstring;
  loading : bool;
  connected : bool;
  typingUser : value;
  typingTimeoutRef : option nat
}.

Record World := mkWorld {
  env : Env;
  closures : list Callback;      (* handler [h] is the [h]-th closure built *)
  state : State;
  conversation : option string;  (* conversation.id the effect ran for *)
  timers : list Timer;
  next_timer : nat;
  now : N;
  crashed : bool                 (* the effect has thrown: the instance
                                    is no longer mounted *)
}.

Definition init (env_url : option string) (accepted : string -> bool) : World :=
  mkWorld (initial env_url accepted) [] (mkState [] [] true false VNull None)
    None [] 1 0 false.

Definition upd_env (f : Env -> Env) (w : World) : World :=
  mkWorld (f (env w)) (closures w) (state w) (conversation w) (timers w)
    (next_timer w) (now w) (crashed w).

Definition upd_state (f : State -> State) (w : World) : World :=
  mkWorld (env w) (closures w) (f (state w)) (conversation w) (timers w)
    (next_timer w) (now w) (crashed w).

Definition setMessages (f : list value -> list value) (s : State) : State :=
  mkState (f (messages s)) (newMessage s) (loading s) (connected s)
    (typingUser s) (typingTimeoutRef s).
Definition setNewMessage (v : jsstring) (s : State) : State :=
  mkState (messages s) v (loading s) (connected s) (typingUser s)
    (typingTimeoutRef s).
Definition setLoading (b : bool) (s : State) : State :=
  mkState (messages s) (newMessage s) b (connected s) (typingUser s)
    (typingTimeoutRef s).
Definition setConnected (b : bool) (s : State) : State :=
  mkState (messages s) (newMessage s) (loading s) b (typingUser s)
    (typingTimeoutRef s).
Definition setTypingUser (v : value) (s : State) : State :=
  mkState (messages s) (newMessage s) (loading s) (connected s) v
    (typingTimeoutRef s).
Definition setTypingTimeoutRef (r : option nat) (s : State) : State :=
  mkState (messages s) (newMessage s) (loading s) (connected s)
    (typingUser s) r.

(** [clearTimeout(id)]: drops the pending timer with that id, if any. *)
Definition clearTimeout (id : option nat) (w : World) : World :=
  mkWorld (env w) (closures w) (state w) (conversation w)
    (filter (fun t => Some (tid t) <> id) (timers w)) (next_timer w) (now w)
    (crashed w).

Fixpoint schedule (t : Timer) (ts : list Timer) : list Timer :=
  match ts with
  | [] => [t]
  | t' :: ts' =>
      if (due t <? due t')%N then t :: ts else t' :: schedule t ts'
  end.

(** [setTimeout(action, delay)]: a fresh id, due [delay] ms from now. *)
Definition setTimeout (a : TimerAction) (delay : N) (w : World) : nat * World :=
  let id := next_timer w in
  (id,
   mkWorld (env w) (closures w) (state w) (conversation w)
     (schedule (mkTimer id (now w + delay) a) (timers w)) (S id) (now w)
     (crashed w)).

(** [clearTimeout(ref.current); ref.current = setTimeout(a, delay)] *)
Definition restart_timer (a : TimerAction) (delay : N) (w : World) : World :=
  let w1 := clearTimeout (typingTimeoutRef (state w)) w in
  let '(id, w2) := setTimeout a delay w1 in
  upd_state (setTypingTimeoutRef (Some id)) w2.

(** A registered closure applied to its argument; [None] when it throws. *)
Definition invoke (cb : Callback) (arg : value) (w : World) : option World :=
  match cb with
  | SetConnected => Some (upd_state (setConnected (truthy arg)) w)
  | AppendMessage =>
      Some (upd_state (setMessages (fun prev => prev ++ [arg])) w)
  | ShowTyping =>
      match get arg "is_typing" with
      | None => None
      | Some flag =>
          if truthy flag then
            match get arg "user_name" with
            | None => None
            | Some name =>
                Some (restart_timer ClearTypingUser 3000
                        (upd_state (setTypingUser name) w))
            end
          else Some (upd_state (setTypingUser VNull) w)
      end
  end.

(** [handlers.forEach((handler) => handler(arg))]; the flag tells whether
    the loop ran to its end without a throw. *)
Fixpoint run_calls (calls : list (Handler * value)) (w : World) : World * bool :=
  match calls with
  | [] => (w, true)
  | (h, arg) :: rest =>
      match closures w !! h with
      | None => run_calls rest w
      | Some cb =>
          match invoke cb arg w with
          | Some w' => run_calls rest w'
          | None => (w, false)
          end
      end
  end.

Definition notify (hs : list Handler) (arg : value) (w : World) : World :=
  fst (run_calls (map (fun h => (h, arg)) hs) w).

Definition set_readyState (st : ReadyState) (ws : WebSocket) : WebSocket :=
  mkWebSocket (url ws) st (outbox ws).

(** *** The callbacks [connect] installs on each socket it builds *)

Definition onopen (r : nat) (w : World) : World :=
  match heap (env w) !! r with
  | Some ws =>
      match readyState ws with
      | CONNECTING =>
          let w1 := upd_env (fun e => log "WebSocket connected"
                               (with_socket r (set_readyState OPEN) e)) w in
          notify (connectionHandlers (service (env w1))) (VBool true) w1
      | _ => w
      end
  | None => w
  end.

Definition parse_error (w : World) : World :=
  upd_env (log "Error parsing WebSocket message:") w.

(** [data] is what [JSON.parse(event.data)] returns, [None] when it throws. *)
Definition onmessage (r : nat) (data : option value) (w : World) : World :=
  match heap (env w) !! r with
  | Some ws =>
      match readyState ws with
      | OPEN =>
          match data with
          | None => parse_error w
          | Some d =>
              match handleMessage d (env w) with
              | None => parse_error w
              | Some (e', calls) =>
                  let '(w', ok) := run_calls calls (upd_env (fun _ => e') w) in
                  if ok then w' else parse_error w'
              end
          end
      | _ => w
      end
  | None => w
  end.

Definition onerror (r : nat) (w : World) : World :=
  match heap (env w) !! r with
  | Some _ =>
      let w1 := upd_env (log "WebSocket error:") w in
      notify (errorHandlers (service (env w1))) (VObj []) w1
  | None => w
  end.

Definition onclose (r : nat) (w : World) : World :=
  match heap (env w) !! r with
  | Some ws =>
      match readyState ws with
      | CLOSED => w
      | _ =>
          let w1 := upd_env (fun e => log "WebSocket disconnected"
                               (with_socket r (set_readyState CLOSED) e)) w in
          notify (connectionHandlers (service (env w1))) (VBool false) w1
      end
  | None => w
  end.

(** *** The component's own functions *)

(** Builds a closure and returns its identity. *)
Definition new_closure (cb : Callback) (w : World) : Handler * World :=
  (length (closures w),
   mkWorld (env w) (closures w ++ [cb]) (state w) (conversation w) (timers w)
     (next_timer w) (now w) (crashed w)).

(** The three subscriptions [connectWebSocket] makes once [connect] has
    returned; the unsubscribe functions the [onX] calls return are
    dropped. *)
Definition register_handlers (w0 : World) : World :=
  let '(h1, w1) := new_closure SetConnected w0 in
  let w1' := upd_env (with_service (fun s => fst (onConnection h1 s))) w1 in
  let '(h2, w2) := new_closure AppendMessage w1' in
  let w2' := upd_env (with_service (fun s => fst (onMessage h2 s))) w2 in
  let '(h3, w3) := new_closure ShowTyping w2' in
  upd_env (with_service (fun s => fst (onTyping h3 s))) w3.

(** A throw that leaves the effect: nothing catches it in the component. *)
Definition crash (w : World) : World :=
  mkWorld (env w) (closures w) (state w) (conversation w) (timers w)
    (next_timer w) (now w) true.

(** [connectWebSocket]: when [connect] throws, the three subscriptions
    are not reached and the throw goes on to the effect. *)
Definition connectWebSocket (cid : string) (w : World) : World :=
  match connect cid (env w) with
  | Returns e => register_handlers (upd_env (fun _ => e) w)
  | Throws e => crash (upd_env (fun _ => e) w)
  end.

(** [useEffect(() => { loadMessages(); connectWebSocket();
      return () => websocketService.disconnect(); }, [conversation.id])]:
    the render with [conversation.id = cid].  The request [loadMessages]
    starts is answered later, by [loaded]. *)
Definition render (cid : string) (w : World) : World :=
  let run_effect w' :=
    connectWebSocket cid
      (mkWorld (env w') (closures w') (state w') (Some cid) (timers w')
         (next_timer w') (now w') (crashed w')) in
  match conversation w with
  | None => run_effect w
  | Some c =>
      if String.eqb c cid then w
      else run_effect (upd_env disconnect w)
  end.

(** How the request of [loadMessages] ends. *)
Inductive Response :=
| Success (ms : list value)  (* fulfilled; [data.status] is "success" and
                                [data.data.messages] is the array [ms] *)
| OtherStatus                (* fulfilled with another [data.status] *)
| Failed.                    (* rejected, or reading the response throws:
                                the [catch] block runs *)

(** The continuation of [loadMessages] after [await]. *)
Definition loaded (resp : Response) (w : World) : World :=
  let w1 :=
    match resp with
    | Success ms => upd_state (setMessages (fun _ => ms)) w
    | OtherStatus => w
    | Failed => upd_env (log "Error loading messages:") w
    end in
  upd_state (setLoading false) w1.

Definition handleSendMessage (w : World) : World :=
  let s := state w in
  if negb (truthy (VStr (trim (newMessage s)))) || negb (connected s) then w
  else
    upd_state (setNewMessage [])
      (upd_env (sendMessage (trim (newMessage s))) w).

Definition handleTyping (w : World) : World :=
  if connected (state w) then
    restart_timer SendTypingFalse 1000 (upd_env (sendTyping true) w)
  else w.

(** The input's [onChange]. *)
Definition onChange (text : jsstring) (w : World) : World :=
  handleTyping (upd_state (setNewMessage text) w).

Definition fire (a : TimerAction) (w : World) : World :=
  match a with
  | ClearTypingUser => upd_state (setTypingUser VNull) w
  | SendTypingFalse => upd_env (sendTyping false) w
  end.

(** Runs the timers that are due at [t], earliest first. *)
Fixpoint run_due (t : N) (ts : list Timer) (w : World) : World :=
  match ts with
  | [] => w
  | x :: ts' =>
      if (due x <=? t)%N then
        run_due t ts'
          (fire (action x)
             (mkWorld (env w) (closures w) (state w) (conversation w)
                ts' (next_timer w) (now w) (crashed w)))
      else w
  end.

Definition elapse (ms : N) (w : World) : World :=
  let t := (now w + ms)%N in
  let w' := run_due t (timers w) w in
  mkWorld (env w') (closures w') (state w') (conversation w') (timers w')
    (next_timer w') t (crashed w').

(** What can happen to the page. *)
Inductive Event :=
| Render (cid : string)
| Loaded (resp : Response)
| SocketOpen (r : nat)
| SocketMessage (r : nat) (data : option value)
| SocketError (r : nat)
| SocketClose (r : nat)
| Change (text : jsstring)
| Submit
| Elapse (ms : N).

(** What an event does while the instance is mounted. *)
Definition handle (w : World) (ev : Event) : World :=
  match ev with
  | Render cid => render cid w
  | Loaded resp => loaded resp w
  | SocketOpen r => onopen r w
  | SocketMessage r data => onmessage r data w
  | SocketError r => onerror r w
  | SocketClose r => onclose r w
  | Change text => onChange text w
  | Submit => handleSendMessage w
  | Elapse ms => elapse ms w
  end.

(** React drops the state updates of an instance it has removed: of [w']
    everything is kept but the [useState] values, which stay those of [w].
    The ref is an object of its own and keeps what was written to it. *)
Definition drop_updates (w w' : World) : World :=
  upd_state
    (fun s' =>
       mkState (messages (state w)) (newMessage (state w)) (loading (state w))
         (connected (state w)) (typingUser (state w)) (typingTimeoutRef s'))
    w'.

(** One event.  An effect that throws ends the instance: React removes it,
    so it is not rendered again and gets no input, and its state updates
    are dropped; the callbacks already given to sockets, timers and the
    pending request still run. *)
Definition step (w : World) (ev : Event) : World :=
  if crashed w then
    match ev with
    | Render _ | Change _ | Submit => w
    | _ => drop_updates w (handle w ev)
    end
  else handle w ev.

Definition run (evs : list Event) (w : World) : World := fold_left step evs w.

(** The text shown under the messages: [typingUser && ...]. *)
Definition indicator_shown (w : World) : bool := truthy (typingUser (state w)).

(** Frames the component can put on the wire. *)
Definition message_frame (content : jsstring) : value :=
  VObj [("type", VStr (lit "message")); ("content", VStr content)].
Definition typing_frame (b : bool) : value :=
  VObj [("type", VStr (lit "typing")); ("is_typing", VBool b)].

Definition client_frame (f : value) : Prop :=
  (exists c, f = message_frame c /\ c <> []) \/ (exists b, f = typing_frame b).

Definition heap_ok (e : Env) : Prop :=
  Forall (fun ws => Forall client_frame (outbox ws)) (heap e).

Definition frames_ok (w : World) : Prop := heap_ok (env w).

(** At most one timer is pending, and it is the one [typingTimeoutRef]
    holds. *)
Definition timer_inv (w : World) : Prop :=
  timers w = []
  \/ exists t, timers w = [t] /\ typingTimeoutRef (state w) = Some (tid t).

End ChatWindow.

(** ** context/AuthContext.jsx

    The provider's async functions run in a small monad: the provider state
    is threaded through, and a computation either fulfils with a value or
    rejects with a reason.  What the server answers is an input. *)

Module AuthContext.
Import Js.

Inductive Settled (A : Type) :=
| Fulfilled (a : A)
| Rejected (reason : value).
Arguments Fulfilled {A} a.
Arguments Rejected {A} reason.

Record Provider := mkProvider {
  user : value;
  loading : bool;
  console : list string
}.

(** [useState(null)], [useState(true)] *)
Definition mount : Provider := mkProvider VNull true [].

Definition Async (A : Type) : Type := Provider -> Settled A * Provider.

Definition ret {A} (a : A) : Async A := fun st => (Fulfilled a, st).

Definition bind {A B} (m : Async A) (k : A -> Async B) : Async B :=
  fun st =>
    match m st with
    | (Fulfilled a, st') => k a st'
    | (Rejected r, st') => (Rejected r, st')
    end.

Notation "'let*' x ':=' m 'in' k" := (bind m (fun x => k))
  (at level 10, x name, m at level 100, k at level 200).
Notation "'do' m 'then' k" := (bind m (fun _ => k))
  (at level 10, m at level 100, k at level 200).

(** [try { body } catch (error) { handler(error) }] *)
Definition try_catch {A} (body : Async A) (handler : value -> Async A) : Async A :=
  fun st =>
    match body st with
    | (Fulfilled a, st') => (Fulfilled a, st')
    | (Rejected r, st') => handler r st'
    end.

(** [try { body } finally { cleanup }] *)
Definition try_finally {A} (body : Async A) (cleanup : Async unit) : Async A :=
  fun st =>
    let '(res, st') := body st in
    match cleanup st' with
    | (Fulfilled _, st'') => (res, st'')
    | (Rejected r, st'') => (Rejected r, st'')
    end.

(** [await p] for a promise that settles as [p]. *)
Definition await {A} (p : Settled A) : Async A := fun st => (p, st).

Definition setUser (v : value) : Async unit :=
  fun st => (Fulfilled tt, mkProvider v (loading st) (console st)).

Definition setLoading (b : bool) : Async unit :=
  fun st => (Fulfilled tt, mkProvider (user st) b (console st)).

Definition console_error (msg : string) : Async unit :=
  fun st => (Fulfilled tt, mkProvider (user st) (loading st) (console st ++ [msg])).

(** [o.k], rejecting with a TypeError when [o] is null or undefined. *)
Definition prop (o : value) (k : string) : Async value :=
  match get o k with
  | Some v => ret v
  | None => fun st => (Rejected (VStr (lit "TypeError")), st)
  end.

(** How the four requests of [authAPI] settle. *)
Record AuthAPI := mkAuthAPI {
  api_getProfile : Settled value;
  api_login : jsstring -> jsstring -> Settled value;
  api_register : value -> Settled value;
  api_logout : Settled value
}.

Section Provider.
Variable authAPI : AuthAPI.

(** [response.data.status === "success"], then [response.data.data] *)
Definition on_success (response : value) (k : value -> Async value)
  (otherwise : value -> Async value) : Async value :=
  let* data := prop response "data" in
  let* status := prop data "status" in
  if strict_eq_lit status "success"
  then (let* payload := prop data "data" in k payload)
  else otherwise data.

Definition checkAuth : Async unit :=
  try_finally
    (try_catch
       (let* response := await (api_getProfile authAPI) in
        do on_success response
             (fun payload => do setUser payload then ret VUndefined)
             (fun _ => ret VUndefined)
        then ret tt)
       (fun _ => setUser VNull))
    (setLoading false).

Definition login (email password : jsstring) : Async value :=
  let* response := await (api_login authAPI email password) in
  on_success response
    (fun payload => do setUser payload then ret (VObj [("success", VBool true)]))
    (fun data =>
       let* message := prop data "message" in
       ret (VObj [("success", VBool false); ("message", message)])).

Definition register (form : value) : Async value :=
  let* response := await (api_register authAPI form) in
  on_success response
    (fun payload => do setUser payload then ret (VObj [("success", VBool true)]))
    (fun data =>
       let* message := prop data "message" in
       let* errors := prop data "errors" in
       ret (VObj [("success", VBool false); ("message", message);
                  ("errors", errors)])).

Definition logout : Async unit :=
  do try_catch
       (do await (api_logout authAPI) then ret tt)
       (fun _ => console_error "Logout error:")
  then setUser VNull.

End Provider.

(** [isAuthenticated: !!user] *)
Definition isAuthenticated (st : Provider) : bool := truthy (user st).

End AuthContext.

(** ** The engine's Message Store

    The store is a component of the server; the client sources only call
    it.  Its operations are written down from sections 3, 4.1 and 9 of
    the specification.  Timestamps are fixed-point numbers (an integer count
    of the sub-second unit). *)

Module MessageStore.
Local Open Scope Z_scope.

(** Modelled from the spec: the store's tunables (the logical-clock step
    [epsilon], the retention window, the content length bound and the hard
    maximum of [limit]), none of which is in the client sources. *)
Record Config := mkConfig {
  epsilon : Z;
  retention : Z;
  max_content : nat;
  max_limit : nat
}.

(** Modelled from the spec: the defaults it names (24h retention, limit
    clamped to 100), with microsecond timestamps. *)
Definition default_config : Config :=
  mkConfig 1 (86400 * 1000000) 4096%nat 100%nat.

(** Modelled from the spec: the immutable Message record of section 3.  The
    [id] is the assigned timestamp followed by a random suffix. *)
Record Message := mkMessage {
  id : Z * N;
  conversationId : string;
  senderId : N;
  content : string;
  createdAtEpochSeconds : Z
}.

(** Modelled from the spec: ids are time-sortable, compared timestamp first. *)
Definition id_le (a b : Z * N) : Prop :=
  a.1 < b.1 \/ (a.1 = b.1 /\ (a.2 <= b.2)%N).

(** Modelled from the spec: the total order of a conversation, by
    [createdAtEpochSeconds] with ties broken by [id]. *)
Definition msg_le (m1 m2 : Message) : Prop :=
  createdAtEpochSeconds m1 < createdAtEpochSeconds m2
  \/ (createdAtEpochSeconds m1 = createdAtEpochSeconds m2
      /\ id_le (id m1) (id m2)).

#[global] Instance id_le_dec a b : Decision (id_le a b).
Proof. unfold id_le. apply _. Defined.

#[global] Instance msg_le_dec m1 m2 : Decision (msg_le m1 m2).
Proof. unfold msg_le. apply _. Defined.

(** Modelled from the spec: the per-conversation append log, with the
    timestamp of the last append and the expiry of the whole history. *)
Record Log := mkLog {
  entries : list Message;
  lastAppended : Z;
  expiresAt : Z
}.

(** Modelled from the spec: the failure of [append] on content that is
    empty or exceeds the length bound. *)
Inductive Error := ValidationError.

(** Modelled from the spec: a record is stored with its timestamp as the
    ordering score. *)
Fixpoint insert_msg (m : Message) (l : list Message) : list Message :=
  match l with
  | [] => [m]
  | x :: l' => if decide (msg_le m x) then m :: l else x :: insert_msg m l'
  end.

(** Modelled from the spec: the entries of a log that have not expired when
    the store's clock reads [now]. *)
Definition live (now : Z) (l : option Log) : list Message :=
  match l with
  | Some lg => if decide (now < expiresAt lg) then entries lg else []
  | None => []
  end.

(** Modelled from the spec: [append] of section 4.1.  [wallClock] is the
    clock reading at the call and [suffix] the random part of the id. *)
Definition append (cfg : Config) (wallClock : Z) (suffix : N)
    (conv : string) (sender : N) (text : string)
    (st : gmap string Log) : Error + Message * gmap string Log :=
  if decide (text = "" \/ max_content cfg < String.length text)%nat
  then inl ValidationError
  else
    let ts :=
      match st !! conv with
      | Some lg => Z.max wallClock (lastAppended lg + epsilon cfg)
      | None => wallClock
      end in
    let m := mkMessage (ts, suffix) conv sender text ts in
    inr (m, <[conv := mkLog (insert_msg m (live wallClock (st !! conv))) ts
                        (wallClock + retention cfg)]> st).

(** Modelled from the spec: [range] of section 4.1, oldest first, with the
    total count of live messages. *)
Definition range (cfg : Config) (now : Z) (conv : string)
    (limit offset : nat) (st : gmap string Log) : list Message * nat :=
  let l := live now (st !! conv) in
  (take (min limit (max_limit cfg)) (drop offset l), length l).

(** Modelled from the spec: one [append] call with the clock reading it saw. *)
Record AppendCall := mkAppendCall {
  call_clock : Z;
  call_suffix : N;
  call_conv : string;
  call_sender : N;
  call_content : string
}.

(** Modelled from the spec: [append] applied to the arguments of a call. *)
Definition call (cfg : Config) (c : AppendCall) (st : gmap string Log)
  : Error + Message * gmap string Log :=
  append cfg (call_clock c) (call_suffix c) (call_conv c) (call_sender c)
    (call_content c) st.

(** Modelled from the spec: a sequence of appends; the store it leaves and
    the messages it acknowledged, each with the clock reading of its call. *)
Fixpoint exec (cfg : Config) (cs : list AppendCall) (st : gmap string Log)
  : gmap string Log * list (Z * Message) :=
  match cs with
  | [] => (st, [])
  | c :: cs' =>
      match call cfg c st with
      | inl _ => exec cfg cs' st
      | inr (m, st') =>
          let '(st'', ms) := exec cfg cs' st' in
          (st'', (call_clock c, m) :: ms)
      end
  end.

(** Modelled from the spec: the acknowledged appends of one conversation,
    oldest first. *)
Definition history (conv : string) (acks : list (Z * Message)) : list (Z * Message) :=
  filter (fun a => conversationId a.2 = conv) acks.

(** Modelled from the spec: which acknowledged messages are live at
    [deadline].  The retention window runs from the most recent append and
    every append renews it for the whole history, so, walking from the
    newest append back, a message is live while each later access came
    before the expiry set by the append preceding it. *)
Fixpoint survivors (window deadline : Z) (newest_first : list (Z * Message))
  : list Message :=
  match newest_first with
  | [] => []
  | (t, m) :: older =>
      if decide (deadline < t + window)
      then m :: survivors window t older
      else []
  end.

(** Modelled from the spec: what holds of one conversation's log once the
    appends [hist] (oldest first, each with the clock reading of its call)
    have been acknowledged. *)
Definition log_inv (cfg : Config) (hist : list (Z * Message)) (lg : option Log) : Prop :=
  match rev hist with
  | [] => lg = None
  | (t, m) :: older =>
      exists l,
        lg = Some l
        /\ lastAppended l = createdAtEpochSeconds m
        /\ expiresAt l = t + retention cfg
        /\ StronglySorted msg_le (entries l)
        /\ entries l ≡ₚ m :: survivors (retention cfg) t older
        /\ Forall (fun a => createdAtEpochSeconds a.2 <= createdAtEpochSeconds m) hist
        /\ StronglySorted Z.le (map (fun a => createdAtEpochSeconds a.2) hist)
  end.

End MessageStore.

(** ** The engine's Rate Limiter

    Also a server component, written down from sections 3 and 4.5 of the
    specification.  Time is counted in milliseconds. *)

Module RateLimiter.
Local Open Scope Z_scope.

(** Modelled from the spec: the fixed set of named endpoint classes. *)
Inductive EndpointClass := HistoryRead | MessageSend | Anonymous | Authenticated.

#[global] Instance EndpointClass_eq_dec : EqDecision EndpointClass.
Proof. solve_decision. Defined.

(** Modelled from the spec: a numbering of the classes, for use as map
    keys. *)
Definition class_code (c : EndpointClass) : nat :=
  match c with
  | HistoryRead => 0 | MessageSend => 1 | Anonymous => 2 | Authenticated => 3
  end%nat.

Definition class_of_code (n : nat) : EndpointClass :=
  match n with
  | 0 => HistoryRead | 1 => MessageSend | 2 => Anonymous | _ => Authenticated
  end%nat.

#[global] Instance EndpointClass_countable : Countable EndpointClass.
Proof. refine (inj_countable' class_code class_of_code _). by intros []. Defined.

(** Modelled from the spec: the ceiling of each class per window;
    [history-read] is 10 per minute and [message-send] is unlimited. *)
Definition ceiling (c : EndpointClass) : option nat :=
  match c with
  | HistoryRead => Some 10%nat
  | MessageSend => None
  | Anonymous => Some 20%nat
  | Authenticated => Some 100%nat
  end.

(** Modelled from the spec: the window length, one minute. *)
Definition window : Z := 60000.

(** Modelled from the spec: [allow] answers true, or false with the
    remaining wait. *)
Inductive Verdict := Allowed | Denied (retryAfter : Z).

(** Modelled from the spec: the boolean [allow] returns. *)
Definition is_allowed (v : Verdict) : bool :=
  match v with Allowed => true | Denied _ => false end.

(** Modelled from the spec: the requests of a RateWindow that still count
    at [now]; older entries have aged out. *)
Definition counted (now : Z) (w : list Z) : list Z :=
  filter (fun t => now - window < t) w.

(** Modelled from the spec: the oldest request of a window. *)
Definition oldest (now : Z) (w : list Z) : Z :=
  match w with
  | [] => now
  | t :: w' => foldr Z.min t w'
  end.

(** Modelled from the spec: [allow] of section 4.5 over the RateWindow of
    [(userId, endpointClass)]; a denied call is not counted. *)
Definition allow (userId : N) (c : EndpointClass) (now : Z)
    (st : gmap (N * EndpointClass) (list Z))
  : Verdict * gmap (N * EndpointClass) (list Z) :=
  let w := counted now (default [] (st !! (userId, c))) in
  match ceiling c with
  | None => (Allowed, st)
  | Some n =>
      if decide (length w < n)%nat
      then (Allowed, <[(userId, c) := now :: w]> st)
      else (Denied (oldest now w + window - now), <[(userId, c) := w]> st)
  end.

(** Modelled from the spec: one admission request. *)
Record Request := mkRequest {
  req_user : N;
  req_class : EndpointClass;
  req_time : Z
}.

(** Modelled from the spec: a sequence of requests; the verdicts, in order,
    and the final state. *)
Fixpoint serve (rs : list Request) (st : gmap (N * EndpointClass) (list Z))
  : list Verdict * gmap (N * EndpointClass) (list Z) :=
  match rs with
  | [] => ([], st)
  | r :: rs' =>
      let '(v, st') := allow (req_user r) (req_class r) (req_time r) st in
      let '(vs, st'') := serve rs' st' in
      (v :: vs, st'')
  end.

(** Modelled from the spec: the verdicts given to one user on one class. *)
Fixpoint verdicts_for (u : N) (c : EndpointClass) (rs : list Request)
    (st : gmap (N * EndpointClass) (list Z)) : list Verdict :=
  match rs with
  | [] => []
  | r :: rs' =>
      let '(v, st') := allow (req_user r) (req_class r) (req_time r) st in
      if decide (req_user r = u /\ req_class r = c)
      then v :: verdicts_for u c rs' st'
      else verdicts_for u c rs' st'
  end.

(** Modelled from the spec: the times at which one user called one class. *)
Definition times_for (u : N) (c : EndpointClass) (rs : list Request) : list Z :=
  map req_time (filter (fun r => req_user r = u /\ req_class r = c) rs).

End RateLimiter.

(** ** More of the component: what a page trace keeps true *)

Module ChatWindowTrace.
Import Js WebSocketService ChatWindow.

(** How many times the effect of [ChatWindow] has run along a trace that
    starts with the effect last run for [c] ([None]: not mounted yet). *)
Fixpoint effect_runs (c : option string) (evs : list Event) : nat :=
  match evs with
  | [] => 0
  | Render cid :: evs' =>
      match c with
      | Some c' =>
          if String.eqb c' cid then effect_runs c evs'
          else S (effect_runs (Some cid) evs')
      | None => S (effect_runs (Some cid) evs')
      end
  | _ :: evs' => effect_runs c evs'
  end.

(** Every registered handler is a closure of the kind [connectWebSocket]
    registers on that list; nothing registers an error handler; once a
    socket has been built there is a connection handler. *)
Definition closures_inv (w : World) : Prop :=
  let s := service (env w) in
  Forall (fun h => closures w !! h = Some AppendMessage) (messageHandlers s)
  /\ Forall (fun h => closures w !! h = Some ShowTyping) (typingHandlers s)
  /\ Forall (fun h => closures w !! h = Some SetConnected) (connectionHandlers s)
  /\ errorHandlers s = []
  /\ length (typingHandlers s) = length (messageHandlers s)
  /\ length (connectionHandlers s) = length (messageHandlers s)
  /\ (heap (env w) <> [] -> connectionHandlers s <> []).

(** A socket on which [close] has been called. *)
Definition closing (ws : WebSocket) : Prop :=
  readyState ws = CLOSING \/ readyState ws = CLOSED.

(** The service follows the component: it holds the conversation the
    effect last ran for and every socket but its current one has been
    closed; while the effect has not thrown its socket is the newest one
    built, and once it has thrown the service has no socket. *)
Definition sync_inv (w : World) : Prop :=
  let s := service (env w) in
  conversationId s = conversation w
  /\ (forall r ws, heap (env w) !! r = Some ws -> socket s <> Some r ->
                   closing ws)
  /\ if crashed w then socket s = None /\ conversation w <> None
     else match conversation w with
          | None => socket s = None /\ heap (env w) = []
          | Some _ => exists r, socket s = Some r /\ S r = length (heap (env w))
          end.

(** How the ready state of a socket moves: it opens once, and it can end
    up closed. *)
Definition advance (st st' : ReadyState) : Prop :=
  st' = st \/ (st = CONNECTING /\ st' = OPEN) \/ st' = CLOSED.

(** From [e] to [e'] no socket disappears or moves backwards. *)
Definition sockets_advance (e e' : Env) : Prop :=
  forall r ws', heap e' !! r = Some ws' ->
                exists ws, heap e !! r = Some ws
                           /\ advance (readyState ws) (readyState ws').

(** The deployment and the browser do not change under the page. *)
Definition same_host (e e' : Env) : Prop :=
  VITE_WS_URL e' = VITE_WS_URL e /\ accepts e' = accepts e.

(** What the service methods other than [connect] and [disconnect] do to
    the environment: the service object is as it was, and so are the
    sockets up to their outboxes and the moves of their ready states. *)
Definition env_quiet (e e' : Env) : Prop :=
  service e' = service e
  /\ length (heap e') = length (heap e)
  /\ sockets_advance e e'
  /\ same_host e e'.

(** What every event but a render that runs the effect keeps. *)
Definition keeps_registry (w w' : World) : Prop :=
  closures w' = closures w
  /\ conversation w' = conversation w
  /\ crashed w' = crashed w
  /\ env_quiet (env w) (env w').

(** Whether the constructor accepts the URL of every conversation a trace
    renders. *)
Definition render_accepted (e : Env) (ev : Event) : bool :=
  match ev with
  | Render cid => accepts e (ws_url cid e)
  | _ => true
  end.

Definition renders_accepted (e : Env) (evs : list Event) : bool :=
  forallb (render_accepted e) evs.

(** The conversation shown by a live instance had its URL accepted. *)
Definition shown_accepted (w : World) : Prop :=
  crashed w = false ->
  forall c, conversation w = Some c ->
            accepts (env w) (ws_url c (env w)) = true.

(** The outbox of socket [r]. *)
Definition sent_on (r : nat) (e : Env) : list value :=
  match heap e !! r with
  | Some ws => outbox ws
  | None => []
  end.

End ChatWindowTrace.

(** ** Promises over a component state

    The async functions of the other components, in the style of
    [AuthContext.Async] but over any state. *)

Module Promise.
Import Js.

Definition M (S A : Type) : Type := S -> AuthContext.Settled A * S.

Definition ret {S A} (a : A) : M S A := fun st => (AuthContext.Fulfilled a, st).

Definition throw {S A} (reason : value) : M S A :=
  fun st => (AuthContext.Rejected reason, st).

Definition bind {S A B} (m : M S A) (k : A -> M S B) : M S B :=
  fun st =>
    match m st with
    | (AuthContext.Fulfilled a, st') => k a st'
    | (AuthContext.Rejected r, st') => (AuthContext.Rejected r, st')
    end.

Notation "'let*' x ':=' m 'in' k" := (bind m (fun x => k))
  (at level 10, x name, m at level 100, k at level 200).
Notation "'do' m 'then' k" := (bind m (fun _ => k))
  (at level 10, m at level 100, k at level 200).

(** [try { body } catch (error) { handler(error) }] *)
Definition try_catch {S A} (body : M S A) (handler : value -> M S A) : M S A :=
  fun st =>
    match body st with
    | (AuthContext.Fulfilled a, st') => (AuthContext.Fulfilled a, st')
    | (AuthContext.Rejected r, st') => handler r st'
    end.

(** [try { body } finally { cleanup }] *)
Definition try_finally {S A} (body : M S A) (cleanup : M S unit) : M S A :=
  fun st =>
    let '(res, st') := body st in
    match cleanup st' with
    | (AuthContext.Fulfilled _, st'') => (res, st'')
    | (AuthContext.Rejected r, st'') => (AuthContext.Rejected r, st'')
    end.

(** [await p] for a promise that settles as [p]. *)
Definition await {S A} (p : AuthContext.Settled A) : M S A := fun st => (p, st).

(** Reading the state the handler's closure captured. *)
Definition read {S A} (f : S -> A) : M S A :=
  fun st => (AuthContext.Fulfilled (f st), st).

(** A state update. *)
Definition modify {S} (f : S -> S) : M S unit :=
  fun st => (AuthContext.Fulfilled tt, f st).

(** [o.k], throwing a TypeError when [o] is null or undefined. *)
Definition prop {S} (o : value) (k : string) : M S value :=
  match get o k with
  | Some v => ret v
  | None => throw (VStr (lit "TypeError"))
  end.

(** [o?.k] *)
Definition opt_get (o : value) (k : string) : value :=
  match get o k with
  | Some v => v
  | None => VUndefined
  end.

(** [a || b] *)
Definition or_else (a b : value) : value := if truthy a then a else b.

(** [{...o, [k]: v}]: a key already present keeps its place. *)
Fixpoint assign (k : string) (v : value) (fs : list (string * value))
  : list (string * value) :=
  match fs with
  | [] => [(k, v)]
  | (k', v') :: fs' =>
      if String.eqb k k' then (k, v) :: fs' else (k', v') :: assign k v fs'
  end.

(** [response.data.status === "success"], then [response.data.data] *)
Definition on_success {S A} (response : value) (k : value -> M S A)
  (otherwise : value -> M S A) : M S A :=
  let* data := prop response "data" in
  let* status := prop data "status" in
  if strict_eq_lit status "success"
  then (let* payload := prop data "data" in k payload)
  else otherwise data.

End Promise.

(** ** pages/Register.jsx *)

Module Register.
Import Js Promise.

Record Form := mkForm {
  formData : list (string * value);
  errors : value;
  loading : bool
}.

(** The page and the provider whose [register] it calls. *)
Record Page := mkPage {
  form : Form;
  auth : AuthContext.Provider
}.

(** [useState({email: "", first_name: "", ...})], [useState({})],
    [useState(false)] *)
Definition mount (p : AuthContext.Provider) : Page :=
  mkPage
    (mkForm [("email", VStr []); ("first_name", VStr []);
             ("last_name", VStr []); ("password", VStr []);
             ("password_confirm", VStr [])]
       (VObj []) false)
    p.

Definition setFormData (fd : list (string * value)) (p : Page) : Page :=
  mkPage (mkForm fd (errors (form p)) (loading (form p))) (auth p).
Definition setErrors (v : value) (p : Page) : Page :=
  mkPage (mkForm (formData (form p)) v (loading (form p))) (auth p).
Definition setLoading (b : bool) (p : Page) : Page :=
  mkPage (mkForm (formData (form p)) (errors (form p)) b) (auth p).

(** [handleChange(e)] with [e.target.name] and [e.target.value] *)
Definition handleChange (name : string) (v : value) (p : Page) : Page :=
  setFormData (assign name v (formData (form p))) p.

(** [register(formData)] of the provider, run on the provider's state. *)
Definition call_register (api : AuthContext.AuthAPI) (fd : value) : M Page value :=
  fun p =>
    let '(res, a) := AuthContext.register api fd (auth p) in
    (res, mkPage (form p) a).

(** [err.response?.data?.message || fallback] *)
Definition error_message (err : value) (fallback : string) : M Page value :=
  let* response := prop err "response" in
  ret (or_else (opt_get (opt_get response "data") "message")
         (VStr (lit fallback))).

Definition handleSubmit (api : AuthContext.AuthAPI) : M Page unit :=
  let* fd := read (fun p => formData (form p)) in
  do modify (setErrors (VObj [])) then
  do modify (setLoading true) then
  try_finally
    (try_catch
       (let* result := call_register api (VObj fd) in
        let* success := prop result "success" in
        if negb (truthy success) then
          let* errs := prop result "errors" in
          if truthy errs then modify (setErrors errs)
          else
            let* message := prop result "message" in
            modify (setErrors (VObj [("general", message)]))
        else ret tt)
       (fun err =>
          let* msg := error_message err "An error occurred" in
          modify (setErrors (VObj [("general", msg)]))))
    (modify (setLoading false)).

End Register.

(** ** pages/Chat.jsx and components/NewConversationModal.jsx

    The modal calls the page's [handleNewConversation] through its
    [onCreateConversation] prop, so the two are modelled over one state.
    User ids are numbers. *)

Module NewConversation.
Import Js Promise.

Record Modal := mkModal {
  users : value;
  selectedUsers : list Z;
  loading : bool;
  error : value;
  creating : bool
}.

Record Chat := mkChat {
  conversations : list value;
  selectedConversation : value;
  showNewChat : bool;
  modal : Modal;
  requests : list value;          (* bodies posted to /chat/conversations/ *)
  console : list string
}.

(** The modal as mounted: nothing loaded, nobody selected. *)
Definition fresh_modal : Modal := mkModal (VArr []) [] true (VStr []) false.

(** The page with the modal just opened. *)
Definition opened (convs : list value) (selected : value) : Chat :=
  mkChat convs selected true fresh_modal [] [].

Definition upd_modal (f : Modal -> Modal) (c : Chat) : Chat :=
  mkChat (conversations c) (selectedConversation c) (showNewChat c)
    (f (modal c)) (requests c) (console c).

Definition setUsers (v : value) (m : Modal) : Modal :=
  mkModal v (selectedUsers m) (loading m) (error m) (creating m).
Definition setSelectedUsers (f : list Z -> list Z) (m : Modal) : Modal :=
  mkModal (users m) (f (selectedUsers m)) (loading m) (error m) (creating m).
Definition setLoading (b : bool) (m : Modal) : Modal :=
  mkModal (users m) (selectedUsers m) b (error m) (creating m).
Definition setError (v : value) (m : Modal) : Modal :=
  mkModal (users m) (selectedUsers m) (loading m) v (creating m).
Definition setCreating (b : bool) (m : Modal) : Modal :=
  mkModal (users m) (selectedUsers m) (loading m) (error m) b.

(** How the two requests settle; the answer to a creation may depend on
    the body posted. *)
Record API := mkAPI {
  api_getUsers : AuthContext.Settled value;
  api_createConversation : value -> AuthContext.Settled value
}.

Definition loadUsers (api : API) : M Chat unit :=
  try_finally
    (try_catch
       (let* response := await (api_getUsers api) in
        on_success response
          (fun payload => modify (upd_modal (setUsers payload)))
          (fun _ => ret tt))
       (fun _ =>
          modify (upd_modal (setError (VStr (lit "Failed to load users"))))))
    (modify (upd_modal (setLoading false))).

(** [prev.includes(userId) ? prev.filter((id) => id !== userId)
                           : [...prev, userId]] *)
Definition toggle (userId : Z) (prev : list Z) : list Z :=
  if bool_decide (userId ∈ prev)
  then filter (fun id => id <> userId) prev
  else prev ++ [userId].

Definition toggleUser (userId : Z) (c : Chat) : Chat :=
  upd_modal (setSelectedUsers (toggle userId)) c.

(** [chatAPI.createConversation(body)]: the body is posted, then the
    server's answer is awaited. *)
Definition post_conversation (api : API) (body : value) : M Chat value :=
  fun c =>
    (api_createConversation api body,
     mkChat (conversations c) (selectedConversation c) (showNewChat c)
       (modal c) (requests c ++ [body]) (console c)).

Definition console_error (msg : string) : M Chat unit :=
  modify (fun c =>
    mkChat (conversations c) (selectedConversation c) (showNewChat c)
      (modal c) (requests c) (console c ++ [msg])).

(** [Chat]'s [handleNewConversation(participantIds)] *)
Definition handleNewConversation (api : API) (participantIds : value) : M Chat unit :=
  let* convs := read conversations in
  try_catch
    (let* response :=
       post_conversation api (VObj [("participant_ids", participantIds)]) in
     on_success response
       (fun newConversation =>
          modify (fun c =>
            mkChat (newConversation :: convs) newConversation false
              (modal c) (requests c) (console c)))
       (fun _ => ret tt))
    (fun err =>
       do console_error "Error creating conversation:" then throw err).

(** [err.response?.data?.message || fallback] *)
Definition error_message (err : value) (fallback : string) : M Chat value :=
  let* response := prop err "response" in
  ret (or_else (opt_get (opt_get response "data") "message")
         (VStr (lit fallback))).

(** The modal's [handleCreate]; [currentUserId] is the prop [user?.id]. *)
Definition handleCreate (api : API) (currentUserId : value) : M Chat unit :=
  let* selected := read (fun c => selectedUsers (modal c)) in
  match selected with
  | [] =>
      modify (upd_modal
                (setError (VStr (lit "Please select at least one user"))))
  | _ =>
      do modify (upd_modal (setCreating true)) then
      do modify (upd_modal (setError (VStr []))) then
      try_finally
        (try_catch
           (handleNewConversation api
              (VArr (currentUserId :: map VNum selected)))
           (fun err =>
              let* msg := error_message err "Failed to create conversation" in
              modify (upd_modal (setError msg))))
        (modify (upd_modal (setCreating false)))
  end.

End NewConversation.

(** ** components/ConversationList.jsx *)

Module ConversationList.
Import Js Promise.

(** [conversation.name || conversation.display_name || "Chat"], the title
    shown in the list and in the header of [ChatWindow]; [None] when the
    conversation is null or undefined. *)
Definition title (conversation : value) : option value :=
  match get conversation "name", get conversation "display_name" with
  | Some name, Some display_name =>
      Some (or_else (or_else name display_name) (VStr (lit "Chat")))
  | _, _ => None
  end.

End ConversationList.

(** ** Concrete states and events used to exercise the statements *)

Module Samples.
Import Js WebSocketService ChatWindow.

(** A browser as far as the URLs of these samples go: its [WebSocket]
    constructor takes a URL that starts with "ws://" or "wss://" and has
    no "#", and throws on the others. *)
Definition browser (url : string) : bool :=
  (String.prefix "ws://" url || String.prefix "wss://" url)
  && match String.index 0 "#" url with
     | Some _ => false
     | None => true
     end.

(** A deployment whose [VITE_WS_URL] lacks the scheme. *)
Definition misconfigured : Env := initial (Some "localhost:8000") browser.

(** An environment whose current socket is open. *)
Definition open_env : Env :=
  mkEnv (mkService (Some 0%nat) (Some "c1") [] [] [] [])
    [mkWebSocket "ws://localhost:8000/ws/chat/c1/" OPEN []] [] None browser.

(** The page after conversation "c1" is shown and its socket has opened. *)
Definition chatting : World := run [Render "c1"; SocketOpen 0%nat] (init None browser).

(** A message payload as the server broadcasts it. *)
Definition hello : value :=
  VObj [("id", VStr (lit "m1")); ("conversation_id", VStr (lit "c1"));
        ("sender_id", VNum 1); ("sender_name", VStr (lit "Ann"));
        ("content", VStr (lit "hi")); ("timestamp", VNum 1234567890)].

Definition message_event (m : value) : value :=
  VObj [("type", VStr (lit "message")); ("message", m)].

(** A typing event as the server broadcasts it. *)
Definition typing_event (name : jsstring) (b : bool) : value :=
  VObj [("type", VStr (lit "typing")); ("user_id", VNum 2);
        ("user_name", VStr name); ("is_typing", VBool b)].

(** A typing event with the field spelling of the specification text. *)
Definition camel_typing_event (name : jsstring) (b : bool) : value :=
  VObj [("type", VStr (lit "typing")); ("userId", VNum 2);
        ("userName", VStr name); ("isTyping", VBool b)].

(** Appends to two conversations under a clock that jumps backwards, one
    of them with empty content. *)
Definition sample_calls : list MessageStore.AppendCall :=
  [MessageStore.mkAppendCall 100 7 "x" 1 "hi";
   MessageStore.mkAppendCall 50 3 "x" 2 "yo";
   MessageStore.mkAppendCall 60 1 "y" 2 "other";
   MessageStore.mkAppendCall 70 1 "x" 2 "";
   MessageStore.mkAppendCall 200 0 "x" 1 "late"].

(** Eleven history reads of user 1 within eleven milliseconds. *)
Definition rapid_reads : list RateLimiter.Request :=
  map (fun t => RateLimiter.mkRequest 1 RateLimiter.HistoryRead t)
    [0; 1; 2; 3; 4; 5; 6; 7; 8; 9; 10]%Z.

End Samples.

(** * Properties *)

(** ** WebSocketService *)

Module WebSocketServiceSpec.
Import Js WebSocketService Samples.

Lemma isConnected_inv (e : Env) :
  isConnected e = true ->
  exists r ws, socket (service e) = Some r /\ heap e !! r = Some ws
               /\ readyState ws = OPEN.
Proof.
  unfold isConnected. intros H.
  destruct (socket (service e)) as [r|]; [|discriminate].
  destruct (heap e !! r) as [ws|] eqn:Hr; [|discriminate].
  apply bool_decide_eq_true in H. eauto.
Qed.

Lemma isConnected_intro (e : Env) r ws :
  socket (service e) = Some r -> heap e !! r = Some ws ->
  readyState ws = OPEN -> isConnected e = true.
Proof.
  unfold isConnected. intros -> -> ->. by apply bool_decide_eq_true.
Qed.

(** What [send] does to the heap: one more frame on the current socket,
    every other socket untouched. *)
Lemma send_heap (f : value) (e : Env) r ws :
  socket (service e) = Some r -> heap e !! r = Some ws ->
  service (send f e) = service e
  /\ heap (send f e) !! r
     = Some (mkWebSocket (url ws) (readyState ws) (outbox ws ++ [f]))
  /\ forall r', r' <> r -> heap (send f e) !! r' = heap e !! r'.
Proof.
  intros Hs Hr. unfold send. rewrite Hs. simpl. split; [done|]. split.
  - rewrite list_lookup_alter_eq, Hr. done.
  - intros r' Hne. by rewrite list_lookup_alter_ne.
Qed.

(** C7. Whenever the socket is open, [sendReadReceipt] sends the frame
    [{type: "read"}], whose only field is [type], on the current socket and
    touches nothing else; when the socket is not open it sends nothing (the
    whole environment is unchanged). *)
Theorem sendReadReceipt_frame (e : Env) :
  (forall r ws,
      socket (service e) = Some r -> heap e !! r = Some ws ->
      readyState ws = OPEN ->
      let frame := VObj [("type", VStr (lit "read"))] in
      keys frame = ["type"]
      /\ service (sendReadReceipt e) = service e
      /\ heap (sendReadReceipt e) !! r
         = Some (mkWebSocket (url ws) OPEN (outbox ws ++ [frame]))
      /\ forall r', r' <> r -> heap (sendReadReceipt e) !! r' = heap e !! r')
  /\ (isConnected e = false -> sendReadReceipt e = e).
Proof.
  split.
  - intros r ws Hs Hr Ho frame.
    unfold sendReadReceipt. rewrite (isConnected_intro e r ws Hs Hr Ho).
    destruct (send_heap frame e r ws Hs Hr) as (H1 & H2 & H3).
    rewrite Ho in H2. auto.
  - intros Hc. unfold sendReadReceipt. by rewrite Hc.
Qed.

Lemma sendReadReceipt_frame_witness :
  heap (sendReadReceipt open_env) !! 0%nat
  = Some (mkWebSocket "ws://localhost:8000/ws/chat/c1/" OPEN
            [VObj [("type", VStr (lit "read"))]])
  /\ sendReadReceipt (initial None browser) = initial None browser.
Proof.
  split.
  - apply (proj1 (sendReadReceipt_frame open_env) 0%nat
             (mkWebSocket "ws://localhost:8000/ws/chat/c1/" OPEN []));
      reflexivity.
  - apply (proj2 (sendReadReceipt_frame (initial None browser))). reflexivity.
Defined.

(** What [connect] leaves untouched while it runs. *)
Lemma disconnect_host (e : Env) :
  VITE_WS_URL (disconnect e) = VITE_WS_URL e
  /\ accepts (disconnect e) = accepts e
  /\ console (disconnect e) = console e
  /\ length (heap (disconnect e)) = length (heap e).
Proof.
  unfold disconnect. destruct (socket (service e)); [|done]. simpl.
  by rewrite length_alter.
Qed.

(** [connect] as one case split on what the constructor does with the
    URL built from the base URL and the conversation id. *)
Lemma connect_unfold (cid : string) (e : Env) :
  let e1 := if isConnected e then disconnect e else e in
  let s := service e1 in
  connect cid e
  = if accepts e (ws_url cid e)
    then Returns
           (mkEnv
              (mkService (Some (length (heap e))) (Some cid)
                 (messageHandlers s) (typingHandlers s)
                 (connectionHandlers s) (errorHandlers s))
              (heap e1 ++ [mkWebSocket (ws_url cid e) CONNECTING []])
              (console e) (VITE_WS_URL e) (accepts e))
    else Throws
           (mkEnv
              (mkService (socket s) (Some cid) (messageHandlers s)
                 (typingHandlers s) (connectionHandlers s) (errorHandlers s))
              (heap e1) (console e) (VITE_WS_URL e) (accepts e)).
Proof.
  intros e1 s. unfold connect. fold e1.
  assert (VITE_WS_URL e1 = VITE_WS_URL e /\ accepts e1 = accepts e
          /\ console e1 = console e
          /\ length (heap e1) = length (heap e)) as (Hu & Ha & Hc & Hl).
  { unfold e1. destruct (isConnected e); [|done]. apply disconnect_host. }
  unfold ws_url, base_url, with_service. simpl. fold s.
  rewrite Hu, Ha, Hc, Hl. done.
Qed.

(** [connect] returns exactly when the constructor accepts the URL; it
    then holds a fresh socket.  When the constructor throws, the id is
    already stored, no socket has been built, and the socket field is null
    unless it held a socket that was not open. *)
Lemma connect_cases (cid : string) (e : Env) :
  if accepts e (ws_url cid e)
  then exists e', connect cid e = Returns e'
                  /\ socket (service e') = Some (length (heap e))
                  /\ conversationId (service e') = Some cid
  else exists e', connect cid e = Throws e'
                  /\ conversationId (service e') = Some cid
                  /\ socket (service e')
                     = (if isConnected e then None else socket (service e))
                  /\ length (heap e') = length (heap e).
Proof.
  rewrite connect_unfold.
  destruct (accepts e (ws_url cid e)).
  - eexists. split; [done|]. done.
  - eexists. split; [done|]. simpl. split; [done|].
    destruct (isConnected e) eqn:Hc; [|done].
    destruct (disconnect_host e) as (_ & _ & _ & Hl). split; [|done].
    unfold disconnect. unfold isConnected in Hc.
    by destruct (socket (service e)).
Qed.

(** Counterexample to C8 as stated: with [VITE_WS_URL] set to
    "localhost:8000" the URL that [connect("c1")] builds is
    "localhost:8000/ws/chat/c1/", whose scheme is not a WebSocket scheme.
    The constructor throws after [connect] has stored the conversation id:
    the service the constructor built, for which the invariant holds, is
    left with [conversationId] "c1" and [socket] null, and [disconnect]
    then changes nothing. *)
Lemma connect_throw_breaks_invariant :
  fields_agree (service misconfigured)
  /\ connect "c1" misconfigured
     = Throws (mkEnv (mkService None (Some "c1") [] [] [] []) [] []
                 (Some "localhost:8000") browser)
  /\ ~ fields_agree (service (after (connect "c1" misconfigured)))
  /\ ~ fields_agree
        (service (disconnect (after (connect "c1" misconfigured)))).
Proof.
  split; [done|]. split; [reflexivity|].
  split; intros [H _]; by specialize (H eq_refl).
Qed.

(** C8, amended.  The socket field is null exactly when the conversationId
    field is null: this holds in the state the constructor builds, every
    call to [disconnect] preserves it, and so does every call to [connect]
    that returns.  [connect] returns whenever the [WebSocket] constructor
    accepts the URL it builds. *)
Theorem socket_conversationId_invariant :
  fields_agree constructor
  /\ forall e : Env,
       fields_agree (service e) ->
       (forall cid e', connect cid e = Returns e' -> fields_agree (service e'))
       /\ (forall cid, accepts e (ws_url cid e) = true ->
                       exists e', connect cid e = Returns e'
                                  /\ fields_agree (service e'))
       /\ fields_agree (service (disconnect e)).
Proof.
  split; [done|].
  intros e He.
  assert (forall cid e', connect cid e = Returns e' ->
                         fields_agree (service e')) as Hret.
  { intros cid e' Hc. pose proof (connect_cases cid e) as H.
    destruct (accepts e (ws_url cid e)).
    - destruct H as (e0 & H0 & Hs & Hi). rewrite H0 in Hc.
      injection Hc as <-. unfold fields_agree. rewrite Hs, Hi.
      split; discriminate.
    - destruct H as (e0 & H0 & _). rewrite H0 in Hc. discriminate. }
  split; [exact Hret|]. split.
  - intros cid Ha. pose proof (connect_cases cid e) as H. rewrite Ha in H.
    destruct H as (e0 & H0 & _). exists e0. split; [done|].
    by apply (Hret cid).
  - unfold disconnect, fields_agree in *.
    destruct (socket (service e)) eqn:E; simpl; [done|]. by rewrite E.
Qed.

Lemma socket_conversationId_invariant_witness :
  (exists e', connect "c1" (initial None browser) = Returns e'
              /\ fields_agree (service e'))
  /\ fields_agree
       (service (disconnect (after (connect "c1" (initial None browser))))).
Proof.
  destruct socket_conversationId_invariant as [H0 Hstep].
  destruct (Hstep (initial None browser) H0) as (Hret & Hacc & _).
  split; [apply Hacc; reflexivity|].
  apply (Hstep (after (connect "c1" (initial None browser)))).
  apply (Hret "c1"). reflexivity.
Defined.

Lemma filter_out_last (h : Handler) (l : list Handler) :
  h ∉ l -> filter (fun h' => h' <> h) (l ++ [h]) = l.
Proof.
  intros Hh. rewrite filter_app.
  rewrite (filter_cons_False _ h []) by (intros Hne; by apply Hne).
  rewrite filter_nil, app_nil_r.
  induction l as [|x l IH]; [done|].
  apply not_elem_of_cons in Hh as [Hx Hl].
  rewrite filter_cons_True by congruence. by rewrite IH.
Qed.

Lemma filter_out_middle (h : Handler) (l1 l2 : list Handler) :
  h ∉ l1 -> h ∉ l2 ->
  filter (fun h' => h' <> h) (l1 ++ h :: l2) = l1 ++ l2.
Proof.
  intros H1 H2. rewrite filter_app.
  rewrite filter_cons_False by (intros Hne; by apply Hne).
  assert (Hid : forall l : list Handler,
             h ∉ l -> filter (fun h' => h' <> h) l = l).
  { induction l as [|x l IH]; [done|]. intros Hx.
    apply not_elem_of_cons in Hx as [Hx Hl].
    rewrite filter_cons_True by congruence. by rewrite IH. }
  by rewrite !Hid.
Qed.

(** C9. For each of [onMessage], [onTyping], [onConnection] and [onError]
    and every handler [h] not in the corresponding list: subscribing appends
    [h]; invoking the returned function right away restores the service to
    exactly its previous value; and whenever it is invoked later, it removes
    [h] from that list and leaves every other handler, of that list and of
    the three others, in place and in order. *)
Theorem subscribe_unsubscribe_roundtrip (c : Channel) (s : Service) (h : Handler) :
  h ∉ handlers c s ->
  let '(s1, unsubscribe) := subscribe c h s in
  handlers c s1 = handlers c s ++ [h]
  /\ unsubscribe s1 = s
  /\ forall s' l1 l2,
       handlers c s' = l1 ++ h :: l2 -> h ∉ l1 -> h ∉ l2 ->
       handlers c (unsubscribe s') = l1 ++ l2
       /\ (forall c', c' <> c -> handlers c' (unsubscribe s') = handlers c' s')
       /\ socket (unsubscribe s') = socket s'
       /\ conversationId (unsubscribe s') = conversationId s'.
Proof.
  intros Hh.
  destruct c; simpl in *; (split; [done|]); split.
  all: try (destruct s; simpl in *; unfold set_messageHandlers,
    set_typingHandlers, set_connectionHandlers, set_errorHandlers; simpl;
    f_equal; by apply filter_out_last).
  all: intros s' l1 l2 Hs' H1 H2; simpl; rewrite Hs';
    (split; [by apply filter_out_middle|]);
    (split; [|done]); intros c' Hc'; by destruct c'.
Qed.

Lemma subscribe_unsubscribe_roundtrip_witness :
  let s := mkService None None [1; 2]%nat [] [] [] in
  (subscribe ChMessage 7%nat s).2 (subscribe ChMessage 7%nat s).1 = s.
Proof.
  intros s.
  pose proof (subscribe_unsubscribe_roundtrip ChMessage s 7%nat) as H.
  simpl in H. apply H. unfold s; simpl.
  intros Hin. apply elem_of_cons in Hin as [Heq|Hin]; [discriminate|].
  apply elem_of_cons in Hin as [Heq|Hin]; [discriminate|].
  by apply elem_of_nil in Hin.
Defined.

End WebSocketServiceSpec.

(** ** ChatWindow *)

Module ChatWindowSpec.
Import Js WebSocketService ChatWindow Samples.
Import WebSocketServiceSpec.

(** *** Which functions leave the service environment alone *)

Lemma env_restart_timer a d w : env (restart_timer a d w) = env w.
Proof. reflexivity. Qed.

Lemma env_invoke cb arg w w' : invoke cb arg w = Some w' -> env w' = env w.
Proof.
  destruct cb; simpl; intros H.
  - by inversion H.
  - by inversion H.
  - destruct (get arg "is_typing") as [flag|]; [|discriminate].
    destruct (truthy flag).
    + destruct (get arg "user_name"); inversion H; reflexivity.
    + by inversion H.
Qed.

Lemma env_run_calls calls w : env (run_calls calls w).1 = env w.
Proof.
  revert w. induction calls as [|[h arg] calls IH]; intros w; simpl; [done|].
  destruct (closures w !! h) as [cb|]; [|apply IH].
  destruct (invoke cb arg w) as [w'|] eqn:Hi; [|done].
  rewrite IH. by eapply env_invoke.
Qed.

Lemma env_notify hs arg w : env (notify hs arg w) = env w.
Proof. apply env_run_calls. Qed.

Lemma heap_handleMessage d e e' calls :
  handleMessage d e = Some (e', calls) -> heap e' = heap e.
Proof.
  unfold handleMessage. destruct (get d "type") as [ty|]; [|discriminate].
  repeat (match goal with |- context [if ?b then _ else _] => destruct b end);
    intros H; inversion H; reflexivity.
Qed.

(** *** Every frame on every socket is a well-formed client frame *)

Lemma heap_ok_with_socket r f e :
  (forall ws, Forall client_frame (outbox ws) ->
              Forall client_frame (outbox (f ws))) ->
  heap_ok e -> heap_ok (with_socket r f e).
Proof.
  intros Hf He. unfold heap_ok, with_socket. simpl.
  apply Forall_alter; [exact He|]. intros ws _. apply Hf.
Qed.

Lemma heap_ok_send f e : client_frame f -> heap_ok e -> heap_ok (send f e).
Proof.
  intros Hf He. unfold send. destruct (socket (service e)); [|done].
  apply heap_ok_with_socket; [|done].
  intros ws Hws. simpl. apply Forall_app. split; [done|].
  by apply Forall_singleton.
Qed.

Lemma heap_ok_disconnect e : heap_ok e -> heap_ok (disconnect e).
Proof.
  intros He. unfold disconnect. destruct (socket (service e)); [|done].
  unfold with_service, heap_ok. simpl.
  apply (heap_ok_with_socket _ ws_close e); [|done].
  intros ws Hws. unfold ws_close. by destruct (readyState ws).
Qed.

Lemma heap_ok_connect cid e : heap_ok e -> heap_ok (after (connect cid e)).
Proof.
  intros He.
  assert (heap_ok (if isConnected e then disconnect e else e)) as H1.
  { destruct (isConnected e); [by apply heap_ok_disconnect|done]. }
  unfold connect. simpl.
  match goal with |- context [if ?b then _ else _] => destruct b end;
    unfold heap_ok; simpl; [|exact H1].
  apply Forall_app. split; [exact H1|].
  apply Forall_singleton. simpl. constructor.
Qed.

Lemma heap_ok_sendTyping b e : heap_ok e -> heap_ok (sendTyping b e).
Proof.
  intros He. unfold sendTyping. destruct (isConnected e); [|done].
  apply heap_ok_send; [|done]. right. by exists b.
Qed.

Lemma heap_ok_sendMessage c e :
  c <> [] -> heap_ok e -> heap_ok (sendMessage c e).
Proof.
  intros Hc He. unfold sendMessage. destruct (isConnected e); [|done].
  apply heap_ok_send; [|done]. left. by exists c.
Qed.

Lemma frames_ok_same_heap w w' :
  heap (env w') = heap (env w) -> frames_ok w -> frames_ok w'.
Proof. unfold frames_ok, heap_ok. by intros ->. Qed.

Lemma frames_ok_fire a w : frames_ok w -> frames_ok (fire a w).
Proof.
  intros Hw. destruct a; simpl; [done|].
  unfold frames_ok. simpl. by apply heap_ok_sendTyping.
Qed.

Lemma frames_ok_run_due t ts w : frames_ok w -> frames_ok (run_due t ts w).
Proof.
  revert w. induction ts as [|x ts IH]; intros w Hw; simpl; [done|].
  destruct (due x <=? t)%N; [|done].
  apply IH. by apply frames_ok_fire.
Qed.

Lemma frames_ok_connectWebSocket cid w :
  frames_ok w -> frames_ok (connectWebSocket cid w).
Proof.
  intros Hw. pose proof (heap_ok_connect cid (env w) Hw) as H.
  unfold frames_ok, connectWebSocket.
  destruct (connect cid (env w)) as [e|e]; exact H.
Qed.

(** [step] is [handle], except that a removed instance ignores renders and
    input and has its state updates dropped. *)
Lemma step_cases w ev :
  step w ev = handle w ev
  \/ (crashed w = true
      /\ (step w ev = w \/ step w ev = drop_updates w (handle w ev))).
Proof.
  unfold step. destruct (crashed w); [|by left]. right. split; [done|].
  destruct ev; auto.
Qed.

Lemma frames_ok_drop_updates w w' : frames_ok w' -> frames_ok (drop_updates w w').
Proof. done. Qed.

Lemma trim_truthy s : truthy (VStr (trim s)) = true -> trim s <> [].
Proof. simpl. by destruct (trim s). Qed.

Lemma frames_ok_handle w ev : frames_ok w -> frames_ok (handle w ev).
Proof.
  intros Hw. destruct ev as [cid|resp|r|r data|r|r|text| |ms]; simpl.
  - unfold render. destruct (conversation w) as [c|].
    + destruct (String.eqb c cid); [done|].
      apply frames_ok_connectWebSocket. unfold frames_ok. simpl.
      by apply heap_ok_disconnect.
    + by apply frames_ok_connectWebSocket.
  - unfold loaded. by destruct resp.
  - unfold onopen. destruct (heap (env w) !! r) as [ws|]; [|done].
    destruct (readyState ws); try done.
    unfold frames_ok. rewrite env_notify. simpl.
    by apply (heap_ok_with_socket r (set_readyState OPEN) (env w)).
  - unfold onmessage. destruct (heap (env w) !! r) as [ws|]; [|done].
    destruct (readyState ws); try done.
    destruct data as [d|]; [|done].
    destruct (handleMessage d (env w)) as [[e' calls]|] eqn:Hh; [|done].
    pose proof (env_run_calls calls (upd_env (fun _ => e') w)) as Hrc.
    destruct (run_calls calls (upd_env (fun _ => e') w)) as [w' ok].
    simpl in Hrc.
    assert (frames_ok w') as Hw'.
    { unfold frames_ok, heap_ok. rewrite Hrc.
      rewrite (heap_handleMessage _ _ _ _ Hh). exact Hw. }
    by destruct ok.
  - unfold onerror. destruct (heap (env w) !! r) as [ws|]; [|done].
    unfold frames_ok. by rewrite env_notify.
  - unfold onclose. destruct (heap (env w) !! r) as [ws|]; [|done].
    destruct (readyState ws); try done;
      unfold frames_ok; rewrite env_notify; simpl;
      by apply (heap_ok_with_socket r (set_readyState CLOSED) (env w)).
  - unfold onChange, handleTyping. simpl.
    destruct (connected (state w)); [|done].
    unfold frames_ok. rewrite env_restart_timer. simpl.
    by apply heap_ok_sendTyping.
  - unfold handleSendMessage.
    destruct (truthy (VStr (trim (newMessage (state w))))) eqn:Ht; [|done].
    destruct (connected (state w)); [|done]. simpl.
    unfold frames_ok. simpl.
    apply heap_ok_sendMessage; [|done]. by apply trim_truthy.
  - unfold elapse, frames_ok. simpl. by apply frames_ok_run_due.
Qed.

Lemma frames_ok_step w ev : frames_ok w -> frames_ok (step w ev).
Proof.
  intros Hw. destruct (step_cases w ev) as [->|[_ [->| ->]]]; [|done|].
  - by apply frames_ok_handle.
  - apply frames_ok_drop_updates. by apply frames_ok_handle.
Qed.

Lemma frames_ok_run evs w : frames_ok w -> frames_ok (run evs w).
Proof.
  revert w. induction evs as [|ev evs IH]; intros w Hw; simpl; [done|].
  apply IH. by apply frames_ok_step.
Qed.

Lemma frames_ok_init env_url accepted : frames_ok (init env_url accepted).
Proof. constructor. Qed.

(** C3. On an open socket [sendMessage(content)] sends exactly the frame
    [{type: "message", content: content}], whose fields are [type] and
    [content] and nothing else, on the current socket and leaves every
    other socket alone.  And, whatever happens to the page, every frame of
    type "message" found on any socket was built from a non-empty content:
    [handleSendMessage] submits the trimmed input, and only when it is
    non-empty and the component is connected. *)
Theorem sendMessage_frame_nonempty :
  (forall (content : jsstring) (e : Env) r ws,
      socket (service e) = Some r -> heap e !! r = Some ws ->
      readyState ws = OPEN ->
      let frame := VObj [("type", VStr (lit "message"));
                         ("content", VStr content)] in
      keys frame = ["type"; "content"]
      /\ service (sendMessage content e) = service e
      /\ heap (sendMessage content e) !! r
         = Some (mkWebSocket (url ws) OPEN (outbox ws ++ [frame]))
      /\ forall r', r' <> r ->
           heap (sendMessage content e) !! r' = heap e !! r')
  /\ (forall (evs : list Event) (env_url : option string)
           (accepted : string -> bool) ws f,
        ws ∈ heap (env (run evs (init env_url accepted))) ->
        f ∈ outbox ws ->
        get f "type" = Some (VStr (lit "message")) ->
        exists content,
          f = VObj [("type", VStr (lit "message")); ("content", VStr content)]
          /\ content <> []).
Proof.
  split.
  - intros content e r ws Hs Hr Ho frame.
    unfold sendMessage. rewrite (isConnected_intro e r ws Hs Hr Ho).
    destruct (send_heap frame e r ws Hs Hr) as (H1 & H2 & H3).
    rewrite Ho in H2. auto.
  - intros evs env_url accepted ws f Hws Hf Hty.
    pose proof (frames_ok_run evs _ (frames_ok_init env_url accepted)) as Hok.
    unfold frames_ok, heap_ok in Hok.
    rewrite Forall_forall in Hok. specialize (Hok ws Hws).
    rewrite Forall_forall in Hok. specialize (Hok f Hf).
    destruct Hok as [(c & -> & Hc)|(b & ->)].
    + by exists c.
    + vm_compute in Hty. discriminate.
Qed.

Lemma sendMessage_frame_nonempty_witness :
  heap (sendMessage (lit "hi") open_env) !! 0%nat
  = Some (mkWebSocket "ws://localhost:8000/ws/chat/c1/" OPEN
            [VObj [("type", VStr (lit "message"));
                   ("content", VStr (lit "hi"))]])
  /\ exists content,
       message_frame (lit "hi")
       = VObj [("type", VStr (lit "message")); ("content", VStr content)]
       /\ content <> [].
Proof.
  destruct sendMessage_frame_nonempty as [Hsend Hall]. split.
  - apply (Hsend (lit "hi") open_env 0%nat
             (mkWebSocket "ws://localhost:8000/ws/chat/c1/" OPEN []));
      reflexivity.
  - apply (Hall [Render "c1"; SocketOpen 0%nat; Change (lit " hi "); Submit]
             None browser
             (mkWebSocket "ws://localhost:8000/ws/chat/c1/" OPEN
                [typing_frame true; message_frame (lit "hi")])).
    + vm_compute. apply list_elem_of_here.
    + simpl. apply list_elem_of_further, list_elem_of_here.
    + reflexivity.
Defined.

(** *** The typing protocol *)

(** Counterexample to C1 as stated: the frame [sendTyping(true)] puts on an
    open socket has the field [is_typing]; it is not the frame
    [{type: "typing", isTyping: true}] and reading [isTyping] from it gives
    [undefined].  And a typing event spelled [userName]/[isTyping] with the
    flag true leaves the indicator empty: the handler does not read those
    fields. *)
Lemma typing_fields_not_camelCase :
  heap (sendTyping true open_env) !! 0%nat
  = Some (mkWebSocket "ws://localhost:8000/ws/chat/c1/" OPEN
            [VObj [("type", VStr (lit "typing")); ("is_typing", VBool true)]])
  /\ VObj [("type", VStr (lit "typing")); ("is_typing", VBool true)]
     <> VObj [("type", VStr (lit "typing")); ("isTyping", VBool true)]
  /\ get (VObj [("type", VStr (lit "typing")); ("is_typing", VBool true)])
       "isTyping" = Some VUndefined
  /\ typingUser
       (state (run [SocketMessage 0%nat
                      (Some (camel_typing_event (lit "Bob") true))] chatting))
     = VNull.
Proof. repeat split; try reflexivity. discriminate. Qed.

(** C1, amended. For every boolean [b], on an open socket [sendTyping(b)]
    sends exactly the frame [{type: "typing", is_typing: b}] on the current
    socket and touches no other; and the typing handler reads the flag from
    the field [is_typing] and the sender's name from the field [user_name]
    of the event object: it shows [user_name] when [is_typing] is truthy
    and clears the indicator otherwise, whatever else the object carries. *)
Theorem typing_protocol_fields (b : bool) (e : Env) (r : nat) (ws : WebSocket) :
  socket (service e) = Some r -> heap e !! r = Some ws ->
  readyState ws = OPEN ->
  let frame := VObj [("type", VStr (lit "typing")); ("is_typing", VBool b)] in
  keys frame = ["type"; "is_typing"]
  /\ heap (sendTyping b e) !! r
     = Some (mkWebSocket (url ws) OPEN (outbox ws ++ [frame]))
  /\ (forall r', r' <> r -> heap (sendTyping b e) !! r' = heap e !! r')
  /\ forall (w : World) (fields : list (string * value)),
       exists w',
         invoke ShowTyping (VObj fields) w = Some w'
         /\ typingUser (state w')
            = if truthy (default VUndefined (assoc "is_typing" fields))
              then default VUndefined (assoc "user_name" fields)
              else VNull.
Proof.
  intros Hs Hr Ho frame. split; [done|].
  unfold sendTyping. rewrite (isConnected_intro e r ws Hs Hr Ho).
  destruct (send_heap frame e r ws Hs Hr) as (H1 & H2 & H3).
  rewrite Ho in H2. split; [done|]. split; [done|].
  intros w fields. simpl.
  destruct (truthy (default VUndefined (assoc "is_typing" fields)));
    eexists; split; reflexivity.
Qed.

Lemma typing_protocol_fields_witness :
  heap (sendTyping false open_env) !! 0%nat
  = Some (mkWebSocket "ws://localhost:8000/ws/chat/c1/" OPEN
            [VObj [("type", VStr (lit "typing")); ("is_typing", VBool false)]]).
Proof.
  apply (typing_protocol_fields false open_env 0%nat
           (mkWebSocket "ws://localhost:8000/ws/chat/c1/" OPEN []));
    reflexivity.
Defined.

(** *** Received messages *)

(** [handleSendMessage] never touches the displayed list. *)
Lemma handleSendMessage_messages w :
  messages (state (handleSendMessage w)) = messages (state w).
Proof.
  unfold handleSendMessage.
  by destruct (negb (truthy (VStr (trim (newMessage (state w)))))
               || negb (connected (state w))).
Qed.

Lemma run_calls_append (m : value) (hs : list Handler) (w : World) :
  (forall h, h ∈ hs -> closures w !! h = Some AppendMessage) ->
  let r := run_calls (map (fun h => (h, m)) hs) w in
  r.2 = true
  /\ messages (state r.1) = messages (state w) ++ replicate (length hs) m
  /\ closures r.1 = closures w.
Proof.
  revert w. induction hs as [|h hs IH]; intros w Hcl; simpl.
  - by rewrite app_nil_r.
  - rewrite (Hcl h) by apply list_elem_of_here. simpl.
    set (w1 := upd_state (setMessages (fun prev => prev ++ [m])) w).
    destruct (IH w1) as (H1 & H2 & H3).
    { intros h' Hh'. simpl. apply Hcl. by apply list_elem_of_further. }
    split; [done|]. split; [|done].
    rewrite H2. simpl. by rewrite <- app_assoc.
Qed.

(** A [message] event is appended once for every registered message
    handler of the component. *)
Lemma message_event_once_per_handler (m : value) (r : nat) (ws : WebSocket) (w : World) :
  heap (env w) !! r = Some ws -> readyState ws = OPEN ->
  (forall h, h ∈ messageHandlers (service (env w)) ->
             closures w !! h = Some AppendMessage) ->
  messages (state (onmessage r (Some (message_event m)) w))
  = messages (state w)
    ++ replicate (length (messageHandlers (service (env w)))) m.
Proof.
  intros Hr Ho Hcl. unfold onmessage. rewrite Hr, Ho.
  change (handleMessage (message_event m) (env w))
    with (Some (env w, map (fun h => (h, m))
                         (messageHandlers (service (env w))))).
  pose proof (run_calls_append m (messageHandlers (service (env w)))
                (upd_env (fun _ => env w) w) Hcl) as (H1 & H2 & _).
  destruct (run_calls _ _) as [w' ok]. simpl in *. by rewrite H1.
Qed.

(** C2 fails on the code: the unsubscribe functions are dropped and the
    effect's cleanup only disconnects, so after the user switches from
    conversation "a" to conversation "b" two message handlers of the same
    component are registered, and one [message] event is appended twice. *)
Theorem message_appended_twice_after_switch :
  messages
    (state (run [Render "a"; SocketOpen 0%nat; Render "b"; SocketOpen 1%nat;
                 SocketMessage 1%nat (Some (message_event hello))]
              (init None browser)))
  = [hello; hello].
Proof. reflexivity. Qed.

(** *** The typing indicator *)

Lemma run_due_no_clear t ts w :
  Forall (fun x => action x = SendTypingFalse) ts ->
  state (run_due t ts w) = state w
  /\ (timers w = ts ->
      Forall (fun x => action x = SendTypingFalse) (timers (run_due t ts w))).
Proof.
  revert w. induction ts as [|x ts IH]; intros w Hts; simpl.
  - split; [done|]. by intros ->.
  - apply Forall_cons in Hts as [Hx Hts].
    destruct (due x <=? t)%N.
    + rewrite Hx. simpl.
      match goal with |- context [run_due t ts ?w1] =>
        destruct (IH w1 Hts) as [H1 H2] end.
      split; [by rewrite H1|]. intros _. by apply H2.
    + split; [done|]. intros ->. by constructor.
Qed.

Lemma elapse_no_clear ms w :
  Forall (fun x => action x = SendTypingFalse) (timers w) ->
  state (elapse ms w) = state w
  /\ Forall (fun x => action x = SendTypingFalse) (timers (elapse ms w)).
Proof.
  intros Hts. unfold elapse. simpl.
  destruct (run_due_no_clear (now w + ms) (timers w) w Hts) as [H1 H2].
  split; [done|]. by apply H2.
Qed.

(** A world seen through its timers and the ref that names them. *)
Lemma timer_inv_same w w' :
  timers w' = timers w ->
  typingTimeoutRef (state w') = typingTimeoutRef (state w) ->
  timer_inv w -> timer_inv w'.
Proof. unfold timer_inv. intros -> ->. done. Qed.

Lemma restart_timer_single a d w :
  timer_inv w ->
  timers (restart_timer a d w) = [mkTimer (next_timer w) (now w + d) a]
  /\ typingTimeoutRef (state (restart_timer a d w)) = Some (next_timer w)
  /\ typingUser (state (restart_timer a d w)) = typingUser (state w)
  /\ now (restart_timer a d w) = now w.
Proof.
  intros Hw. unfold restart_timer. simpl.
  assert (filter (fun t => Some (tid t) <> typingTimeoutRef (state w))
            (timers w) = []) as ->.
  { destruct Hw as [->|(t & -> & ->)]; [done|].
    by rewrite filter_cons_False by (intros H; by apply H). }
  done.
Qed.

Lemma timer_inv_restart a d w : timer_inv w -> timer_inv (restart_timer a d w).
Proof.
  intros Hw. destruct (restart_timer_single a d w Hw) as (H1 & H2 & _).
  right. eexists. split; [exact H1|]. by rewrite H2.
Qed.

Lemma timer_inv_invoke cb arg w w' :
  invoke cb arg w = Some w' -> timer_inv w -> timer_inv w'.
Proof.
  destruct cb; simpl; intros H Hw.
  - inversion H. by apply (timer_inv_same w).
  - inversion H. by apply (timer_inv_same w).
  - destruct (get arg "is_typing") as [flag|]; [|discriminate].
    destruct (truthy flag).
    + destruct (get arg "user_name") as [name|]; inversion H.
      apply timer_inv_restart. by apply (timer_inv_same w).
    + inversion H. by apply (timer_inv_same w).
Qed.

Lemma timer_inv_run_calls calls w : timer_inv w -> timer_inv (run_calls calls w).1.
Proof.
  revert w. induction calls as [|[h arg] calls IH]; intros w Hw; simpl; [done|].
  destruct (closures w !! h) as [cb|]; [|by apply IH].
  destruct (invoke cb arg w) as [w'|] eqn:Hi; [|done].
  apply IH. by eapply timer_inv_invoke.
Qed.

Lemma timer_inv_elapse ms w : timer_inv w -> timer_inv (elapse ms w).
Proof.
  intros Hw. unfold elapse.
  destruct Hw as [H0|(t & Ht & Href)]; rewrite ?H0, ?Ht; simpl.
  - left. simpl. done.
  - destruct (due t <=? now w + ms)%N; simpl.
    + left. by destruct (action t).
    + right. exists t. by rewrite Ht.
Qed.

(** [connectWebSocket] touches the service and the closures only. *)
Lemma connectWebSocket_component cid w :
  state (connectWebSocket cid w) = state w
  /\ timers (connectWebSocket cid w) = timers w
  /\ next_timer (connectWebSocket cid w) = next_timer w
  /\ now (connectWebSocket cid w) = now w
  /\ conversation (connectWebSocket cid w) = conversation w.
Proof. unfold connectWebSocket. by destruct (connect cid (env w)). Qed.

Lemma timer_inv_connectWebSocket cid w w0 :
  timers w0 = timers w ->
  typingTimeoutRef (state w0) = typingTimeoutRef (state w) ->
  timer_inv w -> timer_inv (connectWebSocket cid w0).
Proof.
  intros Ht Hr Hw.
  destruct (connectWebSocket_component cid w0) as (H1 & H2 & _).
  apply (timer_inv_same w); [by rewrite H2|by rewrite H1|done].
Qed.

Lemma timer_inv_handle w ev : timer_inv w -> timer_inv (handle w ev).
Proof.
  intros Hw. destruct ev as [cid|resp|r|r data|r|r|text| |ms]; simpl.
  - unfold render. destruct (conversation w) as [c|].
    + destruct (String.eqb c cid); [done|].
      by apply (timer_inv_connectWebSocket cid w).
    + by apply (timer_inv_connectWebSocket cid w).
  - unfold loaded. destruct resp; by apply (timer_inv_same w).
  - unfold onopen. destruct (heap (env w) !! r) as [ws|]; [|done].
    destruct (readyState ws); try done.
    apply timer_inv_run_calls. by apply (timer_inv_same w).
  - unfold onmessage. destruct (heap (env w) !! r) as [ws|]; [|done].
    destruct (readyState ws); try done.
    destruct data as [d|]; [|by apply (timer_inv_same w)].
    destruct (handleMessage d (env w)) as [[e' calls]|];
      [|by apply (timer_inv_same w)].
    pose proof (timer_inv_run_calls calls (upd_env (fun _ => e') w)) as Hrc.
    destruct (run_calls calls (upd_env (fun _ => e') w)) as [w' ok].
    simpl in Hrc. specialize (Hrc ltac:(by apply (timer_inv_same w))).
    destruct ok; [done|]. by apply (timer_inv_same w').
  - unfold onerror. destruct (heap (env w) !! r) as [ws|]; [|done].
    apply timer_inv_run_calls. by apply (timer_inv_same w).
  - unfold onclose. destruct (heap (env w) !! r) as [ws|]; [|done].
    destruct (readyState ws); try done;
      apply timer_inv_run_calls; by apply (timer_inv_same w).
  - unfold onChange, handleTyping. simpl.
    destruct (connected (state w)); [|by apply (timer_inv_same w)].
    apply timer_inv_restart. by apply (timer_inv_same w).
  - unfold handleSendMessage.
    destruct (_ || _); [done|]. by apply (timer_inv_same w).
  - by apply timer_inv_elapse.
Qed.

Lemma timer_inv_step w ev : timer_inv w -> timer_inv (step w ev).
Proof.
  intros Hw. destruct (step_cases w ev) as [->|[_ [->| ->]]]; [|done|].
  - by apply timer_inv_handle.
  - apply (timer_inv_same (handle w ev)); [done|done|].
    by apply timer_inv_handle.
Qed.

Lemma timer_inv_run evs w : timer_inv w -> timer_inv (run evs w).
Proof.
  revert w. induction evs as [|ev evs IH]; intros w Hw; simpl; [done|].
  apply IH. by apply timer_inv_step.
Qed.

(** What the handler guarantees when nothing else touches the ref: in any
    world the page can reach, after a typing event whose [is_typing] is
    truthy the indicator holds [user_name] for the next 3000 ms and is
    cleared from then on, as long as only time passes; a typing event whose
    [is_typing] is falsy clears it at once. *)
Lemma typing_expires_when_only_time_passes
    (evs : list Event) (env_url : option string)
    (accepted : string -> bool) (fields : list (string * value)) :
  let w := run evs (init env_url accepted) in
  let name := default VUndefined (assoc "user_name" fields) in
  exists w',
    invoke ShowTyping (VObj fields) w = Some w'
    /\ if truthy (default VUndefined (assoc "is_typing" fields))
       then typingUser (state w') = name
            /\ (forall ms, (ms < 3000)%N ->
                           typingUser (state (elapse ms w')) = name)
            /\ (forall ms, (3000 <= ms)%N ->
                           typingUser (state (elapse ms w')) = VNull)
       else typingUser (state w') = VNull.
Proof.
  intros w name.
  assert (timer_inv w) as Hw by (apply timer_inv_run; by left).
  set (w0 := upd_state (setTypingUser name) w).
  exists (if truthy (default VUndefined (assoc "is_typing" fields))
          then restart_timer ClearTypingUser 3000 w0
          else upd_state (setTypingUser VNull) w).
  split.
  { simpl. by destruct (truthy (default VUndefined (assoc "is_typing" fields))). }
  destruct (truthy (default VUndefined (assoc "is_typing" fields))); [|done].
  assert (timer_inv w0) as Hw0 by (by apply (timer_inv_same w)).
  destruct (restart_timer_single ClearTypingUser 3000 w0 Hw0)
    as (Ht & _ & Hu & Hn).
  split; [by rewrite Hu|]. split.
  - intros ms Hms. unfold elapse. rewrite Ht, Hn. simpl.
    destruct (N.leb_spec (now w + 3000) (now w + ms)); [lia|].
    by rewrite Hu.
  - intros ms Hms. unfold elapse. rewrite Ht, Hn. simpl.
    destruct (N.leb_spec (now w + 3000) (now w + ms)); [done|lia].
Qed.

(** C4 fails on the code: the handler's 3000 ms timer and [handleTyping]'s
    1000 ms timer share [typingTimeoutRef].  When the local user types 500 ms
    after a typing-true event from "Bob", [handleTyping] clears the pending
    expiry timer and replaces it by its own, which only sends
    [sendTyping(false)]: however much time then passes, "Bob" stays in the
    typing indicator. *)
Theorem typing_indicator_stuck_after_keystroke (delays : list N) :
  let w := run [SocketMessage 0%nat (Some (typing_event (lit "Bob") true));
                Elapse 500; Change (lit "h")] chatting in
  typingUser (state (run (map Elapse delays) w)) = VStr (lit "Bob")
  /\ indicator_shown (run (map Elapse delays) w) = true.
Proof.
  intros w.
  assert (Hgen : forall w0,
             Forall (fun x => action x = SendTypingFalse) (timers w0) ->
             state (run (map Elapse delays) w0) = state w0).
  { induction delays as [|d ds IH]; intros w0 H0; [done|].
    destruct (elapse_no_clear d w0 H0) as [H1 H2].
    change (run (map Elapse (d :: ds)) w0)
      with (run (map Elapse ds) (step w0 (Elapse d))).
    destruct (step_cases w0 (Elapse d)) as [->|[_ [->| ->]]].
    - simpl handle. rewrite (IH _ H2). exact H1.
    - by apply IH.
    - change (handle w0 (Elapse d)) with (elapse d w0).
      rewrite IH by exact H2. unfold drop_updates, upd_state. cbn [state].
      rewrite H1. by destruct (state w0). }
  unfold indicator_shown. rewrite (Hgen w).
  - split; reflexivity.
  - vm_compute. repeat constructor.
Qed.

End ChatWindowSpec.

(** ** AuthContext *)

Module AuthContextSpec.
Import Js AuthContext.

(** The [try]/[catch] around the request always fulfils. *)
Lemma logout_request_caught (api : AuthAPI) (st : Provider) :
  exists st',
    try_catch (do await (api_logout api) then ret tt)
      (fun _ => console_error "Logout error:") st = (Fulfilled tt, st')
    /\ user st' = user st /\ loading st' = loading st.
Proof.
  unfold try_catch, bind, await, ret, console_error.
  destruct (api_logout api) as [resp|reason]; eexists; split; done.
Qed.

(** C10. Whatever state the provider is in and however the logout request
    settles (fulfilled or rejected), [logout] fulfils (it never rejects to
    its caller), and afterwards [user] is null and [isAuthenticated] is
    false; nothing but [user] and the console changes. *)
Theorem logout_always_clears_session (api : AuthAPI) (st : Provider) :
  exists st',
    logout api st = (Fulfilled tt, st')
    /\ user st' = VNull
    /\ isAuthenticated st' = false
    /\ loading st' = loading st.
Proof.
  destruct (logout_request_caught api st) as (st1 & H1 & _ & Hl).
  unfold logout. unfold bind at 1. rewrite H1. unfold setUser.
  eexists. split; [reflexivity|]. simpl. by rewrite Hl.
Qed.

End AuthContextSpec.

(** ** Message Store *)

Module MessageStoreSpec.
Import MessageStore Samples.
Local Open Scope Z_scope.

Lemma msg_le_trans a b c : msg_le a b -> msg_le b c -> msg_le a c.
Proof. unfold msg_le, id_le. lia. Qed.

Lemma msg_le_total a b : msg_le a b \/ msg_le b a.
Proof. unfold msg_le, id_le. lia. Qed.

Lemma insert_msg_perm m l : insert_msg m l ≡ₚ m :: l.
Proof.
  induction l as [|x l IH]; simpl; [done|].
  destruct (decide (msg_le m x)); [done|].
  rewrite IH. apply perm_swap.
Qed.

Lemma insert_msg_sorted m l :
  StronglySorted msg_le l -> StronglySorted msg_le (insert_msg m l).
Proof.
  induction 1 as [|x l Hs IH Hx]; simpl; [repeat constructor|].
  destruct (decide (msg_le m x)) as [Hm|Hm].
  - constructor; [by constructor|]. constructor; [done|].
    eapply Forall_impl; [exact Hx|]. intros y Hy. by eapply msg_le_trans.
  - constructor; [done|]. rewrite insert_msg_perm. constructor; [|done].
    by destruct (msg_le_total m x).
Qed.

Lemma live_sorted now lg :
  (forall l, lg = Some l -> StronglySorted msg_le (entries l)) ->
  StronglySorted msg_le (live now lg).
Proof.
  intros H. unfold live. destruct lg as [l|]; [|constructor].
  destruct (decide (now < expiresAt l)); [by apply H|constructor].
Qed.

Lemma exec_app cfg l1 l2 st :
  exec cfg (l1 ++ l2) st
  = let '(st1, a1) := exec cfg l1 st in
    let '(st2, a2) := exec cfg l2 st1 in
    (st2, a1 ++ a2).
Proof.
  revert st. induction l1 as [|c l1 IH]; intros st; simpl.
  - by destruct (exec cfg l2 st).
  - destruct (call cfg c st) as [|[m st']]; [apply IH|].
    rewrite IH. destruct (exec cfg l1 st') as [st1 a1].
    by destruct (exec cfg l2 st1).
Qed.

Lemma log_inv_live cfg hist lg now :
  log_inv cfg hist lg ->
  StronglySorted msg_le (live now lg)
  /\ live now lg ≡ₚ survivors (retention cfg) now (rev hist).
Proof.
  unfold log_inv. destruct (rev hist) as [|[t m] older].
  - intros ->. simpl. split; [constructor|done].
  - intros (l & -> & _ & He & Hs & Hp & _). simpl. rewrite He.
    destruct (decide (now < t + retention cfg)); [done|].
    split; [constructor|done].
Qed.

(** One more acknowledged append to the conversation keeps [log_inv]. *)
Lemma log_inv_append cfg hist lg clock suffix conv sender text :
  0 <= epsilon cfg ->
  log_inv cfg hist lg ->
  let ts := match lg with
            | Some l => Z.max clock (lastAppended l + epsilon cfg)
            | None => clock
            end in
  let m := mkMessage (ts, suffix) conv sender text ts in
  log_inv cfg (hist ++ [(clock, m)])
    (Some (mkLog (insert_msg m (live clock lg)) ts (clock + retention cfg))).
Proof.
  intros Heps Hinv ts m.
  destruct (log_inv_live cfg hist lg clock Hinv) as [Hsorted Hperm].
  unfold log_inv. rewrite rev_unit.
  eexists. split; [reflexivity|]. simpl.
  split; [done|]. split; [done|].
  split; [by apply insert_msg_sorted|].
  split; [by rewrite insert_msg_perm, Hperm|].
  unfold log_inv in Hinv.
  destruct (rev hist) as [|[t' m'] older] eqn:Hrev.
  - assert (hist = []) as ->.
    { by rewrite <- (rev_involutive hist), Hrev. }
    simpl. split; repeat constructor. done.
  - destruct Hinv as (l & -> & Hlast & _ & _ & _ & Hall & Hmono).
    assert (createdAtEpochSeconds m' <= ts) as Hle by (unfold ts; lia).
    split.
    + apply Forall_app. split.
      * eapply Forall_impl; [exact Hall|]. simpl. intros a Ha. lia.
      * apply Forall_singleton. simpl. lia.
    + rewrite map_app. apply StronglySorted_app_2; [|done|repeat constructor].
      intros x1 x2 Hx1 Hx2. apply list_elem_of_singleton in Hx2 as ->.
      apply list_elem_of_fmap in Hx1 as (a & -> & Ha).
      rewrite Forall_forall in Hall. specialize (Hall a Ha). simpl. lia.
Qed.

Lemma exec_log_inv cfg conv cs :
  0 <= epsilon cfg ->
  log_inv cfg (history conv (exec cfg cs ∅).2) ((exec cfg cs ∅).1 !! conv).
Proof.
  intros Heps. induction cs as [|c cs IH] using rev_ind.
  - simpl. unfold log_inv. simpl. apply lookup_empty.
  - rewrite exec_app. destruct (exec cfg cs ∅) as [st acks]. simpl in *.
    destruct (call cfg c st) as [err|[m st']] eqn:Hcall; simpl.
    + by rewrite app_nil_r.
    + unfold call, append in Hcall.
      destruct (decide _) as [|Hvalid]; [discriminate|].
      inversion Hcall as [[Hm Hst]]. clear Hcall. subst m. simpl.
      unfold history in *. rewrite filter_app.
      destruct (decide (call_conv c = conv)) as [Heq|Hne].
      * subst conv. rewrite filter_cons_True by done.
        rewrite filter_nil, lookup_insert_eq.
        by apply log_inv_append.
      * rewrite filter_cons_False by done.
        rewrite filter_nil, app_nil_r.
        rewrite lookup_insert_ne by done. exact IH.
Qed.

(** C5. For every sequence of appends (to any conversations, with any clock
    readings) and every conversation: [range] returns messages in
    non-decreasing [createdAtEpochSeconds] order with ties broken by [id];
    every returned message is a live one and the returned total is the
    number of live messages; and the timestamps assigned to the
    conversation's successive appends never decrease, whatever the clock
    did. *)
Theorem range_sorted_total_monotonic (cfg : Config) (cs : list AppendCall)
    (conv : string) (now : Z) (limit offset : nat) :
  0 <= epsilon cfg ->
  let '(st, acks) := exec cfg cs ∅ in
  let hist := history conv acks in
  let '(msgs, total) := range cfg now conv limit offset st in
  StronglySorted msg_le msgs
  /\ (forall m, m ∈ msgs -> m ∈ survivors (retention cfg) now (rev hist))
  /\ total = length (survivors (retention cfg) now (rev hist))
  /\ StronglySorted Z.le (map (fun a => createdAtEpochSeconds a.2) hist).
Proof.
  intros Heps. pose proof (exec_log_inv cfg conv cs Heps) as Hinv.
  destruct (exec cfg cs ∅) as [st acks]. simpl in *.
  destruct (log_inv_live cfg _ _ now Hinv) as [Hsorted Hperm].
  split; [|split; [|split]].
  - apply (StronglySorted_app_1_l _ _ (drop (min limit (max_limit cfg))
                                         (drop offset (live now (st !! conv))))).
    rewrite take_drop.
    apply (StronglySorted_app_1_r _ (take offset (live now (st !! conv)))).
    by rewrite take_drop.
  - intros m Hm. rewrite <- Hperm.
    by apply subseteq_take, subseteq_drop in Hm.
  - by rewrite Hperm.
  - unfold log_inv in Hinv.
    destruct (rev (history conv acks)) as [|[t m] older] eqn:Hrev.
    + assert (history conv acks = []) as ->.
      { by rewrite <- (rev_involutive (history conv acks)), Hrev. }
      constructor.
    + by destruct Hinv as (l & _ & _ & _ & _ & _ & _ & Hmono).
Qed.

Lemma range_sorted_total_monotonic_witness :
  0 <= epsilon default_config
  /\ let '(st, acks) := exec default_config sample_calls ∅ in
     let hist := history "x" acks in
     let '(msgs, total) := range default_config 300 "x" 10 0 st in
     StronglySorted msg_le msgs
     /\ (forall m, m ∈ msgs ->
                   m ∈ survivors (retention default_config) 300 (rev hist))
     /\ total = length (survivors (retention default_config) 300 (rev hist))
     /\ StronglySorted Z.le (map (fun a => createdAtEpochSeconds a.2) hist).
Proof.
  assert (0 <= epsilon default_config) as H by (simpl; lia).
  split; [exact H|].
  exact (range_sorted_total_monotonic default_config sample_calls "x" 300
           10 0 H).
Defined.

End MessageStoreSpec.

(** ** Rate Limiter *)

Module RateLimiterSpec.
Import RateLimiter Samples.
Local Open Scope Z_scope.

Lemma counted_all now (w : list Z) :
  Forall (fun t => now - window < t) w -> counted now w = w.
Proof.
  unfold counted. induction 1 as [|t w Ht Hw IH]; [done|].
  rewrite filter_cons_True by done. by rewrite IH.
Qed.

Lemma counted_recent now (w : list Z) :
  Forall (fun t => now - window < t) (counted now w).
Proof.
  apply Forall_forall. intros t Ht.
  unfold counted in Ht. by apply list_elem_of_filter in Ht as [Ht _].
Qed.

Lemma oldest_elem now (w : list Z) : w <> [] -> oldest now w ∈ w.
Proof.
  destruct w as [|t w]; [done|]. intros _. simpl.
  revert t. induction w as [|x w IH]; intros t; simpl.
  - apply list_elem_of_here.
  - destruct (Z.min_spec x (foldr Z.min t w)) as [[_ ->]|[_ ->]].
    + apply list_elem_of_further, list_elem_of_here.
    + specialize (IH t). apply elem_of_cons in IH as [->|IH].
      * apply list_elem_of_here.
      * by do 2 apply list_elem_of_further.
Qed.

Lemma oldest_recent now (w : list Z) :
  Forall (fun t => now - window < t) w -> now - window < oldest now w.
Proof.
  intros Hw. destruct w as [|t w].
  - simpl. unfold window. lia.
  - rewrite Forall_forall in Hw. apply Hw. by apply oldest_elem.
Qed.

(** [allow] only touches the window of the key it is called for. *)
Lemma allow_other u c now st k :
  k <> (u, c) -> (allow u c now st).2 !! k = st !! k.
Proof.
  intros Hk. unfold allow. destruct (ceiling c) as [n|]; [|done].
  destruct (decide _); simpl; by rewrite lookup_insert_ne.
Qed.

(** Every window stays within its class' ceiling. *)
Lemma allow_bounded u c now st :
  (forall k w n, st !! k = Some w -> ceiling k.2 = Some n ->
                 (length w <= n)%nat) ->
  forall k w n, (allow u c now st).2 !! k = Some w -> ceiling k.2 = Some n ->
                (length w <= n)%nat.
Proof.
  intros Hst k w n. destruct (decide (k = (u, c))) as [->|Hk].
  - unfold allow. simpl. destruct (ceiling c) as [n'|] eqn:Hc; [|discriminate].
    destruct (decide _) as [Hlt|Hge]; simpl; rewrite lookup_insert_eq;
      intros [= <-] [= <-].
    + simpl. lia.
    + destruct (st !! (u, c)) as [w0|] eqn:Hw0; simpl.
      * pose proof (Hst (u, c) w0 n' Hw0 Hc).
        pose proof (length_filter (fun t => now - window < t) w0).
        unfold counted. lia.
      * lia.
  - rewrite allow_other by done. apply Hst.
Qed.

Lemma serve_bounded rs st :
  (forall k w n, st !! k = Some w -> ceiling k.2 = Some n ->
                 (length w <= n)%nat) ->
  forall k w n, (serve rs st).2 !! k = Some w -> ceiling k.2 = Some n ->
                (length w <= n)%nat.
Proof.
  revert st. induction rs as [|r rs IH]; intros st Hst; simpl; [done|].
  pose proof (allow_bounded (req_user r) (req_class r) (req_time r) st Hst) as H1.
  destruct (allow _ _ _ st) as [v st']. simpl in H1.
  specialize (IH st' H1). by destruct (serve rs st').
Qed.

(** The verdicts of a burst: with [n0] requests already counted and every
    call within one window of all the others, call number [i] of the burst
    is allowed exactly when [n0 + i] is below the ceiling of 10. *)
Lemma burst_verdicts u rs : forall st i v,
  (forall t t', t ∈ times_for u HistoryRead rs ->
                t' ∈ default [] (st !! (u, HistoryRead))
                     ++ times_for u HistoryRead rs ->
                t - window < t') ->
  verdicts_for u HistoryRead rs st !! i = Some v ->
  (is_allowed v = true
   <-> (length (default [] (st !! (u, HistoryRead))) + i < 10)%nat).
Proof.
  induction rs as [|r rs IH]; intros st i v Hwin; simpl; [done|].
  unfold times_for in *.
  destruct (decide (req_user r = u /\ req_class r = HistoryRead)) as [[Hu Hc]|Hk].
  - rewrite filter_cons_True in Hwin by done. simpl in Hwin.
    set (w0 := default [] (st !! (u, HistoryRead))) in *.
    assert (counted (req_time r) w0 = w0) as Hcount.
    { apply counted_all, Forall_forall. intros t' Ht'.
      apply Hwin; [apply list_elem_of_here|].
      apply elem_of_app. by left. }
    unfold allow. rewrite Hu, Hc. simpl. fold w0. rewrite Hcount.
    destruct (decide (length w0 < 10)%nat) as [Hlt|Hge]; simpl;
      destruct i as [|i]; simpl.
    + intros [= <-]. simpl. split; [lia|done].
    + intros Hv. eapply IH in Hv.
      * rewrite Hv, lookup_insert_eq. simpl. lia.
      * rewrite lookup_insert_eq. simpl. intros t t' Ht Ht'.
        apply Hwin; [by apply list_elem_of_further|].
        apply elem_of_cons in Ht' as [->|Ht'].
        -- apply elem_of_app. right. apply list_elem_of_here.
        -- apply elem_of_app in Ht' as [Ht'|Ht']; apply elem_of_app;
             [by left|right; by apply list_elem_of_further].
    + intros [= <-]. simpl. split; [done|lia].
    + intros Hv. eapply IH in Hv.
      * rewrite Hv, lookup_insert_eq. simpl. fold w0. lia.
      * rewrite lookup_insert_eq. simpl. intros t t' Ht Ht'.
        apply Hwin; [by apply list_elem_of_further|].
        apply elem_of_app in Ht' as [Ht'|Ht']; apply elem_of_app;
          [by left|right; by apply list_elem_of_further].
  - rewrite filter_cons_False in Hwin by done.
    pose proof (allow_other (req_user r) (req_class r) (req_time r) st
                  (u, HistoryRead)) as Hother.
    destruct (allow _ _ _ st) as [v' st']. simpl in Hother.
    intros Hv.
    assert (st' !! (u, HistoryRead) = st !! (u, HistoryRead)) as Hsame.
    { apply Hother. intros [= Hu Hc]. by apply Hk. }
    rewrite <- Hsame. apply IH; [|done]. by rewrite Hsame.
Qed.

(** C6. For one user and the history-read class (10 per minute): in a burst
    of calls that all lie within one window of each other, served from an
    empty limiter and interleaved with any other traffic, call number [i]
    (from 0) is allowed exactly when [i < 10]; every denial, in any state,
    carries a positive retry-after; and after a denial at [now] with
    retry-after [r], the next call is allowed at any time from [now + r]
    on, which is when the oldest counted request leaves the window. *)
Theorem history_read_rate_limit :
  (forall (u : N) (rs : list Request),
      (forall t t', t ∈ times_for u HistoryRead rs ->
                    t' ∈ times_for u HistoryRead rs -> t - t' < window) ->
      forall i v, verdicts_for u HistoryRead rs ∅ !! i = Some v ->
                  (is_allowed v = true <-> (i < 10)%nat))
  /\ (forall u c now st r st',
        allow u c now st = (Denied r, st') -> 0 < r)
  /\ (forall (u : N) (rs : list Request) (now r : Z),
        (allow u HistoryRead now (serve rs ∅).2).1 = Denied r ->
        forall now', now + r <= now' ->
          (allow u HistoryRead now'
             (allow u HistoryRead now (serve rs ∅).2).2).1 = Allowed).
Proof.
  split; [|split].
  - intros u rs Hwin i v Hv.
    apply (burst_verdicts u rs ∅ i v) in Hv.
    + rewrite lookup_empty in Hv. exact Hv.
    + rewrite lookup_empty. simpl. intros t t' Ht Ht'.
      specialize (Hwin t t' Ht Ht'). lia.
  - intros u c now st r st'. unfold allow.
    destruct (ceiling c) as [n|]; [|discriminate].
    destruct (decide _); [discriminate|]. intros [= <- _].
    pose proof (oldest_recent now _
                  (counted_recent now (default [] (st !! (u, c))))). lia.
  - intros u rs now r Hden now' Hnow'.
    pose proof (serve_bounded rs ∅) as Hb.
    destruct (serve rs ∅) as [vs st]. simpl in *.
    assert (forall w, st !! (u, HistoryRead) = Some w -> (length w <= 10)%nat) as Hle.
    { intros w Hw. apply (Hb ltac:(intros k w' n' Hk; by rewrite lookup_empty in Hk)
                            (u, HistoryRead) w 10%nat Hw). reflexivity. }
    unfold allow in *. simpl in *.
    set (w := counted now (default [] (st !! (u, HistoryRead)))) in *.
    destruct (decide (length w < 10)%nat) as [|Hge]; [discriminate|].
    simpl in *. injection Hden as <-. rewrite lookup_insert_eq. simpl.
    assert (length w <= 10)%nat as Hw10.
    { unfold w. destruct (st !! (u, HistoryRead)) as [w0|] eqn:Hw0; simpl.
      - pose proof (Hle w0 eq_refl).
        pose proof (length_filter (fun t => now - window < t) w0).
        unfold counted. lia.
      - lia. }
    assert (w <> []) as Hne by (destruct w; [simpl in Hge; lia|done]).
    pose proof (oldest_elem now w Hne) as Hin.
    assert (length (counted now' w) < length w)%nat as Hlt.
    { unfold counted. apply (length_filter_lt _ _ (oldest now w)); [done|lia]. }
    rewrite decide_True by lia. done.
Qed.

Lemma history_read_rate_limit_witness :
  (verdicts_for 1 HistoryRead rapid_reads ∅ !! 10%nat = Some (Denied 59990)
   /\ is_allowed (Denied 59990) = false)
  /\ 0 < 59990
  /\ (allow 1 HistoryRead 60000
        (allow 1 HistoryRead 10 (serve (take 10 rapid_reads) ∅).2).2).1
     = Allowed.
Proof.
  destruct history_read_rate_limit as (Hburst & Hpos & Hrec).
  split; [|split].
  - split; [reflexivity|].
    assert (is_allowed (Denied 59990) = true <-> (10 < 10)%nat) as [H _].
    { apply (Hburst 1%N rapid_reads); [|reflexivity].
      intros t t' Ht Ht'. vm_compute in Ht, Ht'.
      assert (0 <= t <= 10 /\ 0 <= t' <= 10) as [? ?].
      { split.
        - repeat (apply elem_of_cons in Ht as [->|Ht]; [lia|]).
          by apply elem_of_nil in Ht.
        - repeat (apply elem_of_cons in Ht' as [->|Ht']; [lia|]).
          by apply elem_of_nil in Ht'. }
      unfold window. lia. }
    destruct (is_allowed (Denied 59990)); [|reflexivity].
    specialize (H eq_refl). lia.
  - apply (Hpos 1%N HistoryRead 10 (serve (take 10 rapid_reads) ∅).2 59990
             (allow 1 HistoryRead 10 (serve (take 10 rapid_reads) ∅).2).2).
    reflexivity.
  - apply (Hrec 1%N (take 10 rapid_reads) 10 59990); [reflexivity|lia].
Defined.

End RateLimiterSpec.

(** ** More of WebSocketService *)

Module WebSocketServiceMore.
Import Js WebSocketService Samples.
Import WebSocketServiceSpec.

Lemma type_is_cases (ty : value) :
  (type_is ty "message" = true -> ty = VStr (lit "message"))
  /\ (type_is ty "typing" = true -> ty = VStr (lit "typing"))
  /\ (type_is ty "error" = true -> ty = VStr (lit "error")).
Proof.
  unfold type_is, strict_eq_lit.
  destruct ty; repeat split; try discriminate;
    intros H; apply bool_decide_eq_true in H; by subst.
Qed.

(** X1. [handleMessage] throws exactly on [null] and [undefined] data.
    Otherwise it changes neither the service nor any socket, and it calls
    the handlers of at most one list, each once and in registration order:
    the message handlers with [data.message] (which is [undefined] when the
    event has no such field) for type "message", the typing handlers with
    the whole event for type "typing", the error handlers with
    [data.message] for type "error", and no handler at all for any other
    type, a missing type or a type that is not a string. *)
Theorem handleMessage_routing (data : value) (e : Env) :
  (handleMessage data e = None <-> data = VNull \/ data = VUndefined)
  /\ forall e' calls,
       handleMessage data e = Some (e', calls) ->
       service e' = service e /\ heap e' = heap e
       /\ exists ty,
            get data "type" = Some ty
            /\ let payload := default VUndefined (get data "message") in
               (ty = VStr (lit "message")
                /\ calls = map (fun h => (h, payload))
                             (messageHandlers (service e)))
               \/ (ty = VStr (lit "typing")
                   /\ calls = map (fun h => (h, data))
                                (typingHandlers (service e)))
               \/ (ty = VStr (lit "error")
                   /\ calls = map (fun h => (h, payload))
                                (errorHandlers (service e)))
               \/ (ty <> VStr (lit "message") /\ ty <> VStr (lit "typing")
                   /\ ty <> VStr (lit "error") /\ calls = []).
Proof.
  split.
  - unfold handleMessage. split.
    + destruct data; simpl; try (left; done); try (right; done);
        repeat (match goal with
                | |- context [if ?b then _ else _] => destruct b
                end); discriminate.
    + by intros [-> | ->].
  - intros e' calls H. unfold handleMessage in H.
    destruct (get data "type") as [ty|] eqn:Hty; [|discriminate].
    destruct (type_is_cases ty) as (Hm & Ht & He).
    destruct (type_is ty "message") eqn:E1.
    { inversion H; subst. repeat split. exists ty. split; [done|].
      left. split; [by apply Hm|done]. }
    destruct (type_is ty "typing") eqn:E2.
    { inversion H; subst. repeat split. exists ty. split; [done|].
      right; left. split; [by apply Ht|done]. }
    destruct (type_is ty "connection_established") eqn:E3.
    { inversion H; subst. repeat split. exists ty. split; [done|].
      do 3 right. repeat split; try done; intros ->; discriminate. }
    destruct (type_is ty "error") eqn:E4.
    { inversion H; subst. repeat split. exists ty. split; [done|].
      right; right; left. split; [by apply He|done]. }
    inversion H; subst. repeat split. exists ty. split; [done|].
    do 3 right. repeat split; try done; intros ->; discriminate.
Qed.

Lemma handleMessage_routing_witness :
  service (log "Unknown message type:" open_env) = service open_env
  /\ heap (log "Unknown message type:" open_env) = heap open_env.
Proof.
  destruct (proj2 (handleMessage_routing (VObj [("type", VNum 7)]) open_env)
              (log "Unknown message type:" open_env) [] eq_refl)
    as (H1 & H2 & _).
  split; [exact H1|exact H2].
Defined.


Lemma ws_close_not_open ws : readyState (ws_close ws) <> OPEN.
Proof. unfold ws_close. by destruct (readyState ws) eqn:E; simpl; rewrite ?E. Qed.

Lemma ws_close_idem ws : ws_close (ws_close ws) = ws_close ws.
Proof. unfold ws_close. by destruct (readyState ws) eqn:E; simpl; rewrite ?E. Qed.

(** X2. [disconnect] is idempotent, keeps every handler list as it is
    (subscriptions survive a disconnect), leaves the service not connected,
    and touches no socket but the current one, which it leaves closing or
    closed with its outbox intact. *)
Theorem disconnect_keeps_handlers (e : Env) :
  disconnect (disconnect e) = disconnect e
  /\ (forall c, handlers c (service (disconnect e)) = handlers c (service e))
  /\ isConnected (disconnect e) = false
  /\ forall r ws,
       heap e !! r = Some ws ->
       exists ws',
         heap (disconnect e) !! r = Some ws'
         /\ outbox ws' = outbox ws /\ url ws' = url ws
         /\ if decide (socket (service e) = Some r)
            then readyState ws' <> OPEN /\ readyState ws' <> CONNECTING
            else ws' = ws.
Proof.
  unfold disconnect. destruct (socket (service e)) as [r0|] eqn:Hs.
  - split; [done|]. split; [intros c; by destruct c|]. split; [done|].
    intros r ws Hr. simpl.
    destruct (decide (Some r0 = Some r)) as [[= ->]|Hne].
    + rewrite list_lookup_alter_eq, Hr. simpl. eexists. split; [done|].
      unfold ws_close. destruct (readyState ws) eqn:E; simpl; rewrite ?E;
        repeat split; done.
    + rewrite list_lookup_alter_ne by congruence. by exists ws.
  - rewrite Hs. split; [done|]. split; [done|]. split.
    + unfold isConnected. by rewrite Hs.
    + intros r ws Hr. exists ws. by rewrite decide_False.
Qed.

Lemma disconnect_keeps_handlers_witness :
  exists ws',
    heap (disconnect open_env) !! 0%nat = Some ws'
    /\ outbox ws' = [] /\ url ws' = "ws://localhost:8000/ws/chat/c1/"
    /\ readyState ws' <> OPEN /\ readyState ws' <> CONNECTING.
Proof.
  destruct (proj2 (proj2 (proj2 (disconnect_keeps_handlers open_env))) 0%nat
              (mkWebSocket "ws://localhost:8000/ws/chat/c1/" OPEN [])
              eq_refl) as (ws' & H1 & H2 & H3 & H4).
  exists ws'. simpl in H4. auto.
Defined.

Lemma connect_not_connected cid e : isConnected (after (connect cid e)) = false.
Proof.
  rewrite connect_unfold.
  set (e1 := if isConnected e then disconnect e else e).
  assert (length (heap e1) = length (heap e)) as Hl.
  { unfold e1. destruct (isConnected e); [|done]. apply disconnect_host. }
  assert (isConnected e1 = false) as H1.
  { unfold e1. destruct (isConnected e) eqn:Hc; [|exact Hc].
    unfold disconnect. unfold isConnected in Hc.
    destruct (socket (service e)); [|done]. done. }
  destruct (accepts e (ws_url cid e)); unfold isConnected; simpl.
  - rewrite lookup_app_r by lia. by rewrite Hl, Nat.sub_diag.
  - exact H1.
Qed.

(** X3. Right after [connect] the service is not connected, whatever state
    it was in and whether [connect] returned or threw: until a new socket
    opens, [sendMessage] transmits nothing and only logs "WebSocket is not
    connected", and [sendTyping] and [sendReadReceipt] do nothing at
    all. *)
Theorem nothing_sent_before_open (cid : string) (e : Env)
    (content : jsstring) (b : bool) :
  let e' := after (connect cid e) in
  isConnected e' = false
  /\ heap (sendMessage content e') = heap e'
  /\ service (sendMessage content e') = service e'
  /\ console (sendMessage content e')
     = console e' ++ ["WebSocket is not connected"]
  /\ sendTyping b e' = e'
  /\ sendReadReceipt e' = e'.
Proof.
  intros e'. pose proof (connect_not_connected cid e) as H. fold e' in H.
  unfold sendMessage, sendTyping, sendReadReceipt. rewrite H. done.
Qed.

(** X4. When the [WebSocket] constructor accepts the URL
    [base/ws/chat/<id>/], [connect] returns having built one new socket for
    it, in state CONNECTING, which it makes the current one.  When the
    constructor throws, [connect] throws: no socket is built and the socket
    field is left null if the previous socket was OPEN and unchanged
    otherwise.  Either way the conversation id is stored, every handler
    list is kept, and of the sockets that existed only the previous
    current one changes, and only when it was OPEN (it is then closing); a
    previous socket that was still CONNECTING is neither closed nor, after
    a return, referenced any more. *)
Theorem connect_replaces_socket (cid : string) (e : Env) :
  let e' := after (connect cid e) in
  let wsUrl := base_url e +:+ "/ws/chat/" +:+ cid +:+ "/" in
  conversationId (service e') = Some cid
  /\ (forall c, handlers c (service e') = handlers c (service e))
  /\ (forall r ws,
        heap e !! r = Some ws ->
        heap e' !! r
        = Some (if decide (socket (service e) = Some r /\ readyState ws = OPEN)
                then mkWebSocket (url ws) CLOSING (outbox ws)
                else ws))
  /\ if accepts e wsUrl
     then connect cid e = Returns e'
          /\ socket (service e') = Some (length (heap e))
          /\ heap e' !! length (heap e) = Some (mkWebSocket wsUrl CONNECTING [])
          /\ length (heap e') = S (length (heap e))
     else connect cid e = Throws e'
          /\ socket (service e')
             = (if isConnected e then None else socket (service e))
          /\ heap e' !! length (heap e) = None
          /\ length (heap e') = length (heap e).
Proof.
  intros e' wsUrl.
  set (e1 := if isConnected e then disconnect e else e).
  assert (Hlen : length (heap e1) = length (heap e)).
  { unfold e1. destruct (isConnected e); [|done]. apply disconnect_host. }
  assert (Hh : forall c, handlers c (service e1) = handlers c (service e)).
  { intros c. unfold e1. destruct (isConnected e); [|done].
    unfold disconnect. destruct (socket (service e)); by destruct c. }
  assert (Hold : forall r ws,
             heap e !! r = Some ws ->
             heap e1 !! r
             = Some (if decide (socket (service e) = Some r
                                /\ readyState ws = OPEN)
                     then mkWebSocket (url ws) CLOSING (outbox ws)
                     else ws)).
  { intros r ws Hr. unfold e1. destruct (isConnected e) eqn:Hc.
    - apply isConnected_inv in Hc as (r0 & ws0 & Hs & Hr0 & Ho).
      unfold disconnect. rewrite Hs. simpl.
      destruct (decide (r0 = r)) as [->|Hne].
      + rewrite list_lookup_alter_eq, Hr. simpl.
        assert (ws0 = ws) as -> by congruence.
        rewrite decide_True by done. unfold ws_close. by rewrite Ho.
      + rewrite list_lookup_alter_ne by done. rewrite Hr.
        rewrite decide_False; [done|]. intros [[= ?] _]. done.
    - rewrite Hr. rewrite decide_False; [done|].
      intros [Hs Ho]. by rewrite (isConnected_intro e r ws Hs Hr Ho) in Hc. }
  assert (Hsock : socket (service e1)
                  = (if isConnected e then None else socket (service e))).
  { unfold e1. destruct (isConnected e) eqn:Hc; [|done].
    unfold disconnect. unfold isConnected in Hc.
    by destruct (socket (service e)). }
  pose proof (connect_unfold cid e) as Hc. cbv zeta in Hc. fold e1 in Hc.
  change (ws_url cid e) with wsUrl in Hc.
  unfold e'. rewrite Hc.
  destruct (accepts e wsUrl); simpl.
  - split; [done|]. split; [intros c; rewrite <- Hh; by destruct c|].
    split.
    { intros r ws Hr.
      rewrite lookup_app_l by (rewrite Hlen; by eapply lookup_lt_Some).
      by apply Hold. }
    split; [done|]. split; [done|]. split.
    + rewrite lookup_app_r by lia. by rewrite Hlen, Nat.sub_diag.
    + rewrite length_app, Hlen. simpl. lia.
  - split; [done|]. split; [intros c; rewrite <- Hh; by destruct c|].
    split; [exact Hold|]. split; [done|]. split; [exact Hsock|].
    split; [|done]. apply lookup_ge_None. lia.
Qed.

Lemma connect_replaces_socket_witness :
  heap (after (connect "c2" open_env)) !! 0%nat
  = Some (mkWebSocket "ws://localhost:8000/ws/chat/c1/" CLOSING []).
Proof.
  apply (proj1 (proj2 (proj2 (connect_replaces_socket "c2" open_env))) 0%nat
           (mkWebSocket "ws://localhost:8000/ws/chat/c1/" OPEN [])).
  reflexivity.
Defined.

(** X5. The function a subscription returns removes every registration of
    its handler, also when the handler was subscribed more than once; it
    keeps every other handler, is idempotent, and does nothing when the
    handler is not registered. *)
Theorem unsubscribe_removes_all (c : Channel) (s : Service) (h : Handler) :
  let unsubscribe := (subscribe c h s).2 in
  forall s',
    (h ∉ handlers c (unsubscribe s'))
    /\ (forall h', h' <> h ->
          (h' ∈ handlers c (unsubscribe s') <-> h' ∈ handlers c s'))
    /\ ((handlers c (unsubscribe s')) `sublist_of` (handlers c s'))
    /\ unsubscribe (unsubscribe s') = unsubscribe s'
    /\ (h ∉ handlers c s' -> unsubscribe s' = s').
Proof.
  intros unsubscribe s'.
  assert (Hf : handlers c (unsubscribe s')
               = filter (fun h' => h' <> h) (handlers c s')).
  { unfold unsubscribe. by destruct c. }
  assert (Hid : forall l : list Handler,
             h ∉ l -> filter (fun h' => h' <> h) l = l).
  { induction l as [|x l IH]; [done|]. intros Hx.
    apply not_elem_of_cons in Hx as [Hx Hl].
    rewrite filter_cons_True by congruence. by rewrite IH. }
  assert (Hnot : h ∉ filter (fun h' => h' <> h) (handlers c s')).
  { intros Hin. apply list_elem_of_filter in Hin as [Hne _]. by apply Hne. }
  rewrite Hf. split; [done|]. split.
  { intros h' Hne. rewrite list_elem_of_filter. split; [by intros [_ ?]|done]. }
  split; [apply sublist_filter|]. split.
  - unfold unsubscribe. destruct c, s'; simpl in *;
      unfold set_messageHandlers, set_typingHandlers, set_connectionHandlers,
        set_errorHandlers; simpl; f_equal; by apply Hid.
  - intros Hh. unfold unsubscribe. destruct c, s'; simpl in *;
      unfold set_messageHandlers, set_typingHandlers, set_connectionHandlers,
        set_errorHandlers; simpl; f_equal; by apply Hid.
Qed.

Lemma unsubscribe_removes_all_witness :
  let s := mkService None None [3; 4]%nat [] [] [] in
  (subscribe ChMessage 7%nat s).2 s = s.
Proof.
  intros s.
  apply (unsubscribe_removes_all ChMessage s 7%nat s).
  simpl. intros Hin.
  apply elem_of_cons in Hin as [Heq|Hin]; [discriminate|].
  apply elem_of_cons in Hin as [Heq|Hin]; [discriminate|].
  by apply elem_of_nil in Hin.
Defined.

End WebSocketServiceMore.

(** ** More of ChatWindow *)

Module ChatWindowMore.
Import Js WebSocketService ChatWindow ChatWindowTrace Samples.
Import WebSocketServiceSpec ChatWindowSpec.

(** *** What the steps other than a render leave alone *)

Lemma advance_trans a b c : advance a b -> advance b c -> advance a c.
Proof.
  unfold advance.
  intros [->|[[-> ->]| ->]] [->|[[Hb ->]| ->]]; auto; discriminate.
Qed.

Lemma sockets_advance_same e e' : heap e' = heap e -> sockets_advance e e'.
Proof. intros He r ws' Hr. rewrite He in Hr. exists ws'. split; [done|by left]. Qed.

Lemma sockets_advance_trans e1 e2 e3 :
  sockets_advance e1 e2 -> sockets_advance e2 e3 -> sockets_advance e1 e3.
Proof.
  intros H12 H23 r ws3 Hr.
  destruct (H23 r ws3 Hr) as (ws2 & Hr2 & Ha2).
  destruct (H12 r ws2 Hr2) as (ws1 & Hr1 & Ha1).
  exists ws1. split; [done|]. by eapply advance_trans.
Qed.

Lemma env_quiet_same e e' :
  service e' = service e -> heap e' = heap e ->
  VITE_WS_URL e' = VITE_WS_URL e -> accepts e' = accepts e ->
  env_quiet e e'.
Proof.
  intros Hs Hh Hu Ha. unfold env_quiet, same_host. rewrite Hs, Hh.
  repeat split; try done. by apply sockets_advance_same.
Qed.

Lemma env_quiet_refl e : env_quiet e e.
Proof. by apply env_quiet_same. Qed.

Lemma env_quiet_trans e1 e2 e3 :
  env_quiet e1 e2 -> env_quiet e2 e3 -> env_quiet e1 e3.
Proof.
  intros (Hs1 & Hl1 & Ha1 & Hu1 & Hc1) (Hs2 & Hl2 & Ha2 & Hu2 & Hc2).
  unfold env_quiet, same_host.
  rewrite Hs2, Hs1, Hl2, Hl1, Hu2, Hu1, Hc2, Hc1.
  repeat split; try done. by eapply sockets_advance_trans.
Qed.

Lemma env_quiet_with_socket r0 f e :
  (forall ws, heap e !! r0 = Some ws ->
              advance (readyState ws) (readyState (f ws))) ->
  env_quiet e (with_socket r0 f e).
Proof.
  intros Hf. unfold env_quiet, same_host, with_socket. simpl.
  split; [done|]. split; [apply length_alter|]. split; [|done].
  intros r ws' Hr. simpl in Hr.
  destruct (decide (r0 = r)) as [->|Hne].
  - rewrite list_lookup_alter_eq in Hr.
    destruct (heap e !! r) as [ws|] eqn:E; simpl in Hr; [|discriminate].
    injection Hr as <-. exists ws. split; [done|]. by apply Hf.
  - rewrite list_lookup_alter_ne in Hr by done.
    exists ws'. split; [done|by left].
Qed.

Lemma env_quiet_log msg e : env_quiet e (log msg e).
Proof. by apply env_quiet_same. Qed.

Lemma env_quiet_send f e : env_quiet e (send f e).
Proof.
  unfold send. destruct (socket (service e)); [|apply env_quiet_refl].
  apply env_quiet_with_socket. intros ws _. by left.
Qed.

Lemma env_quiet_sendTyping b e : env_quiet e (sendTyping b e).
Proof.
  unfold sendTyping.
  destruct (isConnected e); [apply env_quiet_send|apply env_quiet_refl].
Qed.

Lemma env_quiet_sendMessage c e : env_quiet e (sendMessage c e).
Proof.
  unfold sendMessage.
  destruct (isConnected e); [apply env_quiet_send|apply env_quiet_log].
Qed.

Lemma env_quiet_handleMessage d e e' calls :
  handleMessage d e = Some (e', calls) -> env_quiet e e'.
Proof.
  unfold handleMessage. destruct (get d "type") as [ty|]; [|discriminate].
  repeat (match goal with |- context [if ?b then _ else _] => destruct b end);
    intros H; inversion H; subst;
    first [apply env_quiet_refl | apply env_quiet_log].
Qed.

Lemma keeps_registry_refl w : keeps_registry w w.
Proof.
  unfold keeps_registry.
  split; [done|]. split; [done|]. split; [done|]. apply env_quiet_refl.
Qed.

Lemma keeps_registry_trans w1 w2 w3 :
  keeps_registry w1 w2 -> keeps_registry w2 w3 -> keeps_registry w1 w3.
Proof.
  intros (Hc1 & Hv1 & Hx1 & He1) (Hc2 & Hv2 & Hx2 & He2).
  unfold keeps_registry. rewrite Hc2, Hc1, Hv2, Hv1, Hx2, Hx1.
  split; [done|]. split; [done|]. split; [done|]. by eapply env_quiet_trans.
Qed.

(** A world that differs from [w] in the component state, the timers or
    the clock only. *)
Lemma keeps_registry_same w w' :
  closures w' = closures w -> conversation w' = conversation w ->
  crashed w' = crashed w -> env w' = env w -> keeps_registry w w'.
Proof.
  intros Hc Hv Hx He. unfold keeps_registry. rewrite Hc, Hv, Hx, He.
  split; [done|]. split; [done|]. split; [done|]. apply env_quiet_refl.
Qed.

(** A world that differs from [w] in a quiet change of the environment. *)
Lemma keeps_registry_env w f :
  env_quiet (env w) (f (env w)) -> keeps_registry w (upd_env f w).
Proof. intros He. unfold keeps_registry. by split; [|split; [|split]]. Qed.

Lemma invoke_registry cb arg w w' :
  invoke cb arg w = Some w' -> keeps_registry w w'.
Proof.
  destruct cb; simpl; intros H.
  - inversion H. by apply keeps_registry_same.
  - inversion H. by apply keeps_registry_same.
  - destruct (get arg "is_typing") as [flag|]; [|discriminate].
    destruct (truthy flag).
    + destruct (get arg "user_name"); inversion H.
      by apply keeps_registry_same.
    + inversion H. by apply keeps_registry_same.
Qed.

Lemma run_calls_registry calls w : keeps_registry w (run_calls calls w).1.
Proof.
  revert w. induction calls as [|[h arg] calls IH]; intros w; simpl;
    [apply keeps_registry_refl|].
  destruct (closures w !! h) as [cb|]; [|apply IH].
  destruct (invoke cb arg w) as [w'|] eqn:Hi; [|apply keeps_registry_refl].
  eapply keeps_registry_trans; [by eapply invoke_registry|apply IH].
Qed.

Lemma notify_registry hs arg w : keeps_registry w (notify hs arg w).
Proof. apply run_calls_registry. Qed.

Lemma fire_registry a w : keeps_registry w (fire a w).
Proof.
  destruct a; simpl; [by apply keeps_registry_same|].
  apply keeps_registry_env, env_quiet_sendTyping.
Qed.

Lemma run_due_registry t ts w : keeps_registry w (run_due t ts w).
Proof.
  revert w. induction ts as [|x ts IH]; intros w; simpl;
    [apply keeps_registry_refl|].
  destruct (due x <=? t)%N; [|apply keeps_registry_refl].
  eapply keeps_registry_trans; [|apply IH].
  eapply keeps_registry_trans; [|apply fire_registry].
  by apply keeps_registry_same.
Qed.

Lemma handle_registry w ev :
  (forall cid, ev <> Render cid) -> keeps_registry w (handle w ev).
Proof.
  intros Hev. destruct ev as [cid|resp|r|r data|r|r|text| |ms]; simpl.
  - by destruct (Hev cid).
  - unfold loaded. destruct resp.
    + by apply keeps_registry_same.
    + by apply keeps_registry_same.
    + apply (keeps_registry_trans _ (upd_env (log "Error loading messages:") w)).
      * apply keeps_registry_env, env_quiet_log.
      * by apply keeps_registry_same.
  - unfold onopen. destruct (heap (env w) !! r) as [ws|] eqn:Hr;
      [|apply keeps_registry_refl].
    destruct (readyState ws) eqn:Hst; try apply keeps_registry_refl.
    eapply keeps_registry_trans; [|apply notify_registry].
    apply keeps_registry_env.
    eapply env_quiet_trans; [|apply env_quiet_log].
    apply env_quiet_with_socket. intros ws0 H0.
    assert (ws0 = ws) as -> by congruence. rewrite Hst. right. by left.
  - unfold onmessage. destruct (heap (env w) !! r) as [ws|];
      [|apply keeps_registry_refl].
    destruct (readyState ws); try apply keeps_registry_refl.
    destruct data as [d|]; [|apply keeps_registry_env, env_quiet_log].
    destruct (handleMessage d (env w)) as [[e' calls]|] eqn:Hh;
      [|apply keeps_registry_env, env_quiet_log].
    pose proof (run_calls_registry calls (upd_env (fun _ => e') w)) as Hrc.
    destruct (run_calls calls (upd_env (fun _ => e') w)) as [w' ok].
    simpl in Hrc.
    assert (keeps_registry w w') as Hw'.
    { eapply keeps_registry_trans; [|exact Hrc].
      apply (keeps_registry_env w (fun _ => e')).
      by eapply env_quiet_handleMessage. }
    destruct ok; [done|].
    eapply keeps_registry_trans; [exact Hw'|].
    apply keeps_registry_env, env_quiet_log.
  - unfold onerror. destruct (heap (env w) !! r) as [ws|];
      [|apply keeps_registry_refl].
    eapply keeps_registry_trans; [|apply notify_registry].
    apply keeps_registry_env, env_quiet_log.
  - unfold onclose. destruct (heap (env w) !! r) as [ws|];
      [|apply keeps_registry_refl].
    assert (keeps_registry w
              (upd_env (fun e => log "WebSocket disconnected"
                                   (with_socket r (set_readyState CLOSED) e)) w))
      as Hcl.
    { apply keeps_registry_env.
      eapply env_quiet_trans; [|apply env_quiet_log].
      apply env_quiet_with_socket. intros ws0 _. right. by right. }
    destruct (readyState ws); try apply keeps_registry_refl;
      (eapply keeps_registry_trans; [exact Hcl|apply notify_registry]).
  - unfold onChange, handleTyping. simpl.
    destruct (connected (state w)); [|by apply keeps_registry_same].
    apply (keeps_registry_trans _ (upd_env (sendTyping true) w)).
    + apply keeps_registry_env, env_quiet_sendTyping.
    + by apply keeps_registry_same.
  - unfold handleSendMessage. destruct (_ || _); [apply keeps_registry_refl|].
    apply (keeps_registry_trans _
             (upd_env (sendMessage (trim (newMessage (state w)))) w)).
    + apply keeps_registry_env, env_quiet_sendMessage.
    + by apply keeps_registry_same.
  - unfold elapse.
    eapply keeps_registry_trans; [apply run_due_registry|].
    by apply keeps_registry_same.
Qed.

Lemma step_registry w ev :
  (forall cid, ev <> Render cid) -> keeps_registry w (step w ev).
Proof.
  intros Hev. destruct (step_cases w ev) as [->|[_ [->| ->]]].
  - by apply handle_registry.
  - apply keeps_registry_refl.
  - eapply keeps_registry_trans; [by apply handle_registry|].
    by apply keeps_registry_same.
Qed.

(** *** What a render does *)

Lemma ws_close_closing ws : closing (ws_close ws).
Proof. unfold closing, ws_close. destruct (readyState ws) eqn:E; simpl; auto. Qed.

Lemma disconnect_registry e :
  (forall c, handlers c (service (disconnect e)) = handlers c (service e))
  /\ socket (service (disconnect e)) = None
  /\ isConnected (disconnect e) = false
  /\ length (heap (disconnect e)) = length (heap e)
  /\ same_host e (disconnect e)
  /\ forall r ws',
       heap (disconnect e) !! r = Some ws' ->
       exists ws, heap e !! r = Some ws
                  /\ (socket (service e) = Some r /\ ws' = ws_close ws
                      \/ socket (service e) <> Some r /\ ws' = ws).
Proof.
  unfold disconnect, isConnected, same_host.
  destruct (socket (service e)) as [r0|] eqn:Hs; simpl.
  - split; [intros c; by destruct c|]. split; [done|]. split; [done|].
    split; [apply length_alter|]. split; [done|].
    intros r ws' Hr. destruct (decide (r0 = r)) as [->|Hne].
    + rewrite list_lookup_alter_eq in Hr.
      destruct (heap e !! r) as [ws|]; simpl in Hr; [|discriminate].
      injection Hr as <-. exists ws. split; [done|]. by left.
    + rewrite list_lookup_alter_ne in Hr by done.
      exists ws'. split; [done|]. right. split; [|done]. by intros [= ?].
  - rewrite Hs. split; [done|]. split; [done|]. split; [done|].
    split; [done|]. split; [done|].
    intros r ws' Hr. exists ws'. split; [done|]. by right.
Qed.

Lemma register_handlers_spec w0 :
  let n := length (closures w0) in
  let w' := register_handlers w0 in
  let s := service (env w0) in
  let s' := service (env w') in
  closures w' = closures w0 ++ [SetConnected; AppendMessage; ShowTyping]
  /\ connectionHandlers s' = connectionHandlers s ++ [n]
  /\ messageHandlers s' = messageHandlers s ++ [S n]
  /\ typingHandlers s' = typingHandlers s ++ [S (S n)]
  /\ errorHandlers s' = errorHandlers s
  /\ socket s' = socket s
  /\ conversationId s' = conversationId s
  /\ heap (env w') = heap (env w0)
  /\ same_host (env w0) (env w')
  /\ conversation w' = conversation w0
  /\ crashed w' = crashed w0.
Proof.
  intros n w' s s'. unfold w', s', register_handlers, new_closure, same_host.
  simpl. rewrite !length_app. simpl.
  unfold set_connectionHandlers, set_messageHandlers, set_typingHandlers.
  simpl. rewrite <- !app_assoc. simpl.
  replace (length (closures w0) + 1) with (S n) by (unfold n; lia).
  replace (length (closures w0) + 1 + 1) with (S (S n)) by (unfold n; lia).
  fold n s. repeat split; try done.
  do 2 f_equal. lia.
Qed.

(** The effect body after [loadMessages()]: [connectWebSocket] on a world
    whose service has environment [e]. *)
Lemma connectWebSocket_spec cid w0 :
  let e := env w0 in
  let e1 := if isConnected e then disconnect e else e in
  let n := length (closures w0) in
  let w' := connectWebSocket cid w0 in
  let s := service e in
  let s' := service (env w') in
  conversation w' = conversation w0
  /\ conversationId s' = Some cid
  /\ same_host e (env w')
  /\ length (heap e1) = length (heap e)
  /\ if accepts e (ws_url cid e)
     then crashed w' = crashed w0
          /\ closures w' = closures w0 ++ [SetConnected; AppendMessage; ShowTyping]
          /\ connectionHandlers s' = connectionHandlers s ++ [n]
          /\ messageHandlers s' = messageHandlers s ++ [S n]
          /\ typingHandlers s' = typingHandlers s ++ [S (S n)]
          /\ errorHandlers s' = errorHandlers s
          /\ socket s' = Some (length (heap e))
          /\ heap (env w')
             = heap e1 ++ [mkWebSocket (ws_url cid e) CONNECTING []]
     else crashed w' = true
          /\ closures w' = closures w0
          /\ (forall c, handlers c s' = handlers c s)
          /\ socket s' = socket (service e1)
          /\ heap (env w') = heap e1.
Proof.
  intros e e1 n w' s s'.
  assert ((forall c, handlers c (service e1) = handlers c s)
          /\ length (heap e1) = length (heap e)) as [Hh Hl].
  { unfold e1. destruct (isConnected e); [|done].
    by destruct (disconnect_registry e) as (? & _ & _ & ? & _). }
  pose proof (Hh ChConnection) as Hhc. pose proof (Hh ChMessage) as Hhm.
  pose proof (Hh ChTyping) as Hht. pose proof (Hh ChError) as Hhe.
  simpl in Hhc, Hhm, Hht, Hhe.
  unfold s', w', connectWebSocket. fold e.
  pose proof (connect_unfold cid e) as Hc. cbv zeta in Hc. fold e1 in Hc.
  rewrite Hc.
  destruct (accepts e (ws_url cid e)).
  - match goal with |- context [register_handlers ?x] => set (w1 := x) end.
    pose proof (register_handlers_spec w1) as H. cbv zeta in H.
    destruct H as (H1 & H2 & H3 & H4 & H5 & H6 & H7 & H8 & H9 & H10 & H11).
    split; [exact H10|]. split; [by rewrite H7|].
    split; [exact H9|]. split; [exact Hl|].
    split; [exact H11|]. split; [exact H1|].
    split; [rewrite H2; simpl; by rewrite Hhc|].
    split; [rewrite H3; simpl; by rewrite Hhm|].
    split; [rewrite H4; simpl; by rewrite Hht|].
    split; [rewrite H5; simpl; by rewrite Hhe|].
    split; [by rewrite H6|exact H8].
  - simpl. split; [done|]. split; [done|]. split; [done|].
    split; [exact Hl|]. split; [done|]. split; [done|].
    split; [|done]. intros c. rewrite <- Hh. by destruct c.
Qed.

(** Whether a render with [conversation.id = cid] runs the effect, and what
    the effect does: the cleanup of the previous run first disconnects. *)
Lemma render_cases cid w :
  let e := match conversation w with
           | Some _ => disconnect (env w)
           | None => env w
           end in
  let e1 := if isConnected e then disconnect e else e in
  let n := length (closures w) in
  let w' := render cid w in
  let s := service (env w) in
  let s' := service (env w') in
  (w' = w /\ effect_runs (conversation w) [Render cid] = 0)
  \/ (effect_runs (conversation w) [Render cid] = 1
      /\ conversation w' = Some cid
      /\ conversationId s' = Some cid
      /\ same_host (env w) (env w')
      /\ length (heap e1) = length (heap (env w))
      /\ if accepts (env w) (ws_url cid (env w))
         then crashed w' = crashed w
              /\ closures w'
                 = closures w ++ [SetConnected; AppendMessage; ShowTyping]
              /\ connectionHandlers s' = connectionHandlers s ++ [n]
              /\ messageHandlers s' = messageHandlers s ++ [S n]
              /\ typingHandlers s' = typingHandlers s ++ [S (S n)]
              /\ errorHandlers s' = errorHandlers s
              /\ socket s' = Some (length (heap (env w)))
              /\ heap (env w')
                 = heap e1
                   ++ [mkWebSocket (ws_url cid (env w)) CONNECTING []]
         else crashed w' = true
              /\ closures w' = closures w
              /\ (forall c, handlers c s' = handlers c s)
              /\ socket s' = socket (service e1)
              /\ heap (env w') = heap e1).
Proof.
  intros e e1 n w' s s'.
  assert (Heff : forall w0,
             env w0 = e -> closures w0 = closures w ->
             conversation w0 = Some cid -> crashed w0 = crashed w ->
             w' = connectWebSocket cid w0 ->
             effect_runs (conversation w) [Render cid] = 1 ->
             effect_runs (conversation w) [Render cid] = 1
             /\ conversation w' = Some cid
             /\ conversationId s' = Some cid
             /\ same_host (env w) (env w')
             /\ length (heap e1) = length (heap (env w))
             /\ if accepts (env w) (ws_url cid (env w))
                then crashed w' = crashed w
                     /\ closures w'
                        = closures w
                          ++ [SetConnected; AppendMessage; ShowTyping]
                     /\ connectionHandlers s' = connectionHandlers s ++ [n]
                     /\ messageHandlers s' = messageHandlers s ++ [S n]
                     /\ typingHandlers s' = typingHandlers s ++ [S (S n)]
                     /\ errorHandlers s' = errorHandlers s
                     /\ socket s' = Some (length (heap (env w)))
                     /\ heap (env w')
                        = heap e1
                          ++ [mkWebSocket (ws_url cid (env w)) CONNECTING []]
                else crashed w' = true
                     /\ closures w' = closures w
                     /\ (forall c, handlers c s' = handlers c s)
                     /\ socket s' = socket (service e1)
                     /\ heap (env w') = heap e1).
  { intros w0 He Hcl Hcv Hcr Hw' Hruns.
    assert ((forall c, handlers c (service e) = handlers c s)
            /\ length (heap e) = length (heap (env w))
            /\ same_host (env w) e) as (Hh & Hl & Hu & Ha).
    { unfold e. destruct (conversation w); [|by unfold same_host].
      by destruct (disconnect_registry (env w)) as (? & _ & _ & ? & ? & _). }
    pose proof (Hh ChConnection) as Hhc. pose proof (Hh ChMessage) as Hhm.
    pose proof (Hh ChTyping) as Hht. pose proof (Hh ChError) as Hhe.
    simpl in Hhc, Hhm, Hht, Hhe.
    pose proof (connectWebSocket_spec cid w0) as H. cbv zeta in H.
    rewrite He, Hcl, Hcv, Hcr, <- Hw' in H. fold e1 s' in H.
    destruct H as (H1 & H2 & [H3 H3'] & H4 & H5).
    assert (ws_url cid e = ws_url cid (env w)) as Hurl.
    { unfold ws_url, base_url. by rewrite Hu. }
    rewrite Ha, Hurl in H5.
    split; [exact Hruns|]. split; [exact H1|]. split; [exact H2|].
    split; [unfold same_host; by rewrite H3, H3', Hu, Ha|].
    split; [by rewrite H4, Hl|].
    destruct (accepts (env w) (ws_url cid (env w))).
    - destruct H5 as (G1 & G2 & G3 & G4 & G5 & G6 & G7 & G8).
      rewrite Hhc in G3. rewrite Hhm in G4. rewrite Hht in G5.
      rewrite Hhe in G6. rewrite Hl in G7. done.
    - destruct H5 as (G1 & G2 & G3 & G4 & G5).
      split; [done|]. split; [done|]. split; [|done].
      intros c. by rewrite G3, Hh. }
  destruct (conversation w) as [c|] eqn:Hc.
  - destruct (String.eqb c cid) eqn:E.
    + left. unfold w', render. rewrite Hc, E. simpl. by rewrite E.
    + right.
      apply (Heff (mkWorld (disconnect (env w)) (closures w) (state w)
                     (Some cid) (timers w) (next_timer w) (now w)
                     (crashed w))); try reflexivity.
      * unfold w', render. by rewrite Hc, E.
      * simpl. by rewrite E.
  - right.
    apply (Heff (mkWorld (env w) (closures w) (state w) (Some cid)
                   (timers w) (next_timer w) (now w) (crashed w)));
      try reflexivity.
    unfold w', render. by rewrite Hc.
Qed.

Lemma render_or_not (ev : Event) :
  (exists cid, ev = Render cid) \/ (forall cid, ev <> Render cid).
Proof. destruct ev; [left; by eexists|right..]; by intros ?. Qed.

(** *** What every page trace keeps true *)

Lemma crashed_step w ev : crashed w = true -> crashed (step w ev) = true.
Proof.
  intros Hc. destruct (render_or_not ev) as [[cid ->]|Hev].
  - unfold step. by rewrite Hc.
  - destruct (step_registry w ev Hev) as (_ & _ & -> & _). done.
Qed.

Lemma crashed_run evs w : crashed w = true -> crashed (run evs w) = true.
Proof.
  revert w. induction evs as [|ev evs IH]; intros w Hw; [done|].
  apply IH. by apply crashed_step.
Qed.

Lemma nonempty_length {A} (l l' : list A) :
  length l' = length l -> l' <> [] -> l <> [].
Proof. intros Hl Hn ->. destruct l'; [done|discriminate]. Qed.

Lemma closures_inv_step w ev : closures_inv w -> closures_inv (step w ev).
Proof.
  intros Hw.
  destruct (render_or_not ev) as [[cid ->]|Hev].
  - unfold step. destruct (crashed w); [done|]. simpl handle.
    destruct (render_cases cid w) as [[-> _]|H]; [done|].
    cbv zeta in H. destruct H as (_ & _ & _ & _ & Hl & H).
    destruct Hw as (Im & It & Ic & Ie & Ilt & Ilc & Ine).
    destruct (accepts (env w) (ws_url cid (env w))).
    + destruct H as (_ & H1 & H2 & H3 & H4 & H5 & _ & _).
      unfold closures_inv. rewrite H1, H2, H3, H4, H5.
      assert (Hold : forall cb l,
                 Forall (fun h => closures w !! h = Some cb) l ->
                 Forall (fun h => (closures w
                                   ++ [SetConnected; AppendMessage; ShowTyping])
                                  !! h = Some cb) l).
      { intros cb l Hcb. eapply Forall_impl; [exact Hcb|]. simpl.
        intros h Hh. by apply lookup_app_l_Some. }
      split.
      { apply Forall_app. split; [by apply Hold|]. apply Forall_singleton.
        rewrite lookup_app_r by lia.
        by replace (S (length (closures w)) - length (closures w))
          with 1 by lia. }
      split.
      { apply Forall_app. split; [by apply Hold|]. apply Forall_singleton.
        rewrite lookup_app_r by lia.
        by replace (S (S (length (closures w))) - length (closures w))
          with 2 by lia. }
      split.
      { apply Forall_app. split; [by apply Hold|]. apply Forall_singleton.
        rewrite lookup_app_r by lia. by rewrite Nat.sub_diag. }
      split; [done|].
      split; [rewrite !length_app; simpl; lia|].
      split; [rewrite !length_app; simpl; lia|].
      intros _ Hnil. by apply app_eq_nil in Hnil as [_ ?].
    + destruct H as (_ & H1 & H2 & _ & H5).
      pose proof (H2 ChConnection) as Hhc. pose proof (H2 ChMessage) as Hhm.
      pose proof (H2 ChTyping) as Hht. pose proof (H2 ChError) as Hhe.
      simpl in Hhc, Hhm, Hht, Hhe.
      unfold closures_inv. rewrite H1, Hhc, Hhm, Hht, Hhe, H5.
      split; [done|]. split; [done|]. split; [done|]. split; [done|].
      split; [done|]. split; [done|].
      intros Hn. apply Ine. by eapply nonempty_length.
  - destruct (step_registry w ev Hev) as (H1 & _ & _ & H4 & H5 & _).
    destruct Hw as (Im & It & Ic & Ie & Ilt & Ilc & Ine).
    unfold closures_inv. rewrite H1, H4.
    split; [done|]. split; [done|]. split; [done|]. split; [done|].
    split; [done|]. split; [done|].
    intros Hn. apply Ine. by eapply nonempty_length.
Qed.

Lemma closing_advance ws ws' :
  closing ws -> advance (readyState ws) (readyState ws') -> closing ws'.
Proof.
  unfold closing, advance.
  intros [H|H] [H'|[[H' _]|H']]; rewrite ?H in *; auto; congruence.
Qed.

Lemma sync_inv_step w ev : sync_inv w -> sync_inv (step w ev).
Proof.
  intros Hw.
  destruct (render_or_not ev) as [[cid ->]|Hev].
  - unfold step. destruct (crashed w) eqn:Hx; [done|]. simpl handle.
    destruct (render_cases cid w) as [[-> _]|H]; [done|].
    cbv zeta in H. destruct H as (_ & Hcv & Hci & _ & Hl & H).
    destruct Hw as (Ia & Ib & Ic). rewrite Hx in Ic.
    set (e := match conversation w with
              | Some _ => disconnect (env w)
              | None => env w
              end) in *.
    assert (socket (service e) = None) as Hs0.
    { unfold e. destruct (conversation w); [|by destruct Ic].
      by destruct (disconnect_registry (env w)) as (_ & ? & _). }
    assert (isConnected e = false) as Hn0.
    { unfold isConnected. by rewrite Hs0. }
    rewrite Hn0 in Hl, H.
    assert (forall r ws, heap e !! r = Some ws -> closing ws) as Hcl.
    { intros r ws Hr. unfold e in Hr. destruct (conversation w).
      - destruct (disconnect_registry (env w)) as (_ & _ & _ & _ & _ & Hd).
        destruct (Hd r ws Hr) as (ws0 & Hr0 & [[_ ->]|[Hne ->]]);
          [apply ws_close_closing|by eapply Ib].
      - destruct Ic as [_ Hnil]. by rewrite Hnil in Hr. }
    unfold sync_inv. rewrite Hcv, Hci. split; [done|].
    destruct (accepts (env w) (ws_url cid (env w))).
    + destruct H as (Hcr & _ & _ & _ & _ & _ & Hs & Hh).
      rewrite Hcr, Hx, Hs, Hh. split.
      * intros r ws Hr Hne.
        apply lookup_app_Some in Hr as [Hr|[Hge Hr]]; [by eapply Hcl|].
        apply list_lookup_singleton_Some in Hr as [Hr0 _].
        exfalso. apply Hne. f_equal. lia.
      * exists (length (heap (env w))). split; [done|].
        rewrite length_app, Hl. simpl. lia.
    + destruct H as (Hcr & _ & _ & Hs & Hh).
      rewrite Hcr, Hs, Hs0, Hh. split; [|done].
      intros r ws Hr _. by eapply Hcl.
  - destruct (step_registry w ev Hev) as (_ & H2 & H3 & H4 & H5 & H6 & _).
    destruct Hw as (Ia & Ib & Ic). unfold sync_inv. rewrite H2, H3, H4.
    split; [done|]. split.
    + intros r ws' Hr Hne. destruct (H6 r ws' Hr) as (ws & Hr0 & Hadv).
      eapply closing_advance; [by eapply Ib|done].
    + destruct (crashed w); [done|].
      destruct (conversation w); [by rewrite H5|].
      destruct Ic as [? Hnil]. split; [done|].
      apply nil_length_inv. by rewrite H5, Hnil.
Qed.

Lemma closures_inv_run evs w : closures_inv w -> closures_inv (run evs w).
Proof.
  revert w. induction evs as [|ev evs IH]; intros w Hw; [done|].
  apply IH. by apply closures_inv_step.
Qed.

Lemma sync_inv_run evs w : sync_inv w -> sync_inv (run evs w).
Proof.
  revert w. induction evs as [|ev evs IH]; intros w Hw; [done|].
  apply IH. by apply sync_inv_step.
Qed.

Lemma closures_inv_init env_url accepted : closures_inv (init env_url accepted).
Proof. unfold closures_inv. simpl. repeat split; try constructor. done. Qed.

Lemma sync_inv_init env_url accepted : sync_inv (init env_url accepted).
Proof. unfold sync_inv. simpl. split; [done|]. split; [|done]. by intros r ws Hr. Qed.

(** The deployment and the browser stay what they are. *)
Lemma same_host_step w ev : same_host (env w) (env (step w ev)).
Proof.
  destruct (render_or_not ev) as [[cid ->]|Hev].
  - unfold step. destruct (crashed w); [done|]. simpl handle.
    destruct (render_cases cid w) as [[-> _]|H]; [done|].
    cbv zeta in H. by destruct H as (_ & _ & _ & H & _).
  - by destruct (step_registry w ev Hev) as (_ & _ & _ & _ & _ & _ & H).
Qed.

(** While the effect has not thrown, each of its runs has registered one
    more handler on every list. *)
Lemma handlers_count evs w :
  crashed (run evs w) = false ->
  length (messageHandlers (service (env (run evs w))))
  = length (messageHandlers (service (env w)))
    + effect_runs (conversation w) evs.
Proof.
  revert w. induction evs as [|ev evs IH]; intros w Hx; [simpl; lia|].
  change (run (ev :: evs) w) with (run evs (step w ev)) in *.
  assert (crashed (step w ev) = false) as Hx1.
  { destruct (crashed (step w ev)) eqn:E; [|done].
    by rewrite (crashed_run evs _ E) in Hx. }
  assert (crashed w = false) as Hx0.
  { destruct (crashed w) eqn:E; [|done].
    by rewrite (crashed_step w ev E) in Hx1. }
  rewrite (IH _ Hx).
  destruct (render_or_not ev) as [[cid ->]|Hev].
  - unfold step in *. rewrite Hx0 in *. simpl handle in *.
    destruct (render_cases cid w) as [[Hw H0]|H].
    + rewrite Hw. simpl in *. destruct (conversation w) as [c|]; [|discriminate].
      destruct (String.eqb c cid); [lia|discriminate].
    + cbv zeta in H. destruct H as (Hr & Hcv & _ & _ & _ & H).
      destruct (accepts (env w) (ws_url cid (env w))).
      * destruct H as (_ & _ & _ & H3 & _).
        rewrite H3, Hcv, length_app. simpl length. simpl in *.
        destruct (conversation w) as [c|]; simpl in *.
        -- destruct (String.eqb c cid); [discriminate|lia].
        -- lia.
      * destruct H as (Hcr & _). rewrite Hcr in Hx1. discriminate.
  - destruct (step_registry w ev Hev) as (_ & H2 & _ & H4 & _).
    rewrite H2, H4. destruct ev; try done. by destruct (Hev cid).
Qed.

(** *** When the effect throws *)

Lemma render_accepted_same_host e e' ev :
  same_host e e' -> render_accepted e' ev = render_accepted e ev.
Proof.
  intros [Hu Ha]. destruct ev; try done. simpl.
  unfold ws_url, base_url. by rewrite Ha, Hu.
Qed.

Lemma renders_accepted_same_host e e' evs :
  same_host e e' -> renders_accepted e' evs = renders_accepted e evs.
Proof.
  intros Hh. unfold renders_accepted.
  induction evs as [|ev evs IH]; [done|]. simpl.
  by rewrite IH, (render_accepted_same_host e e' ev Hh).
Qed.

(** One event: the instance is lost exactly when it was lost already or
    the event renders a conversation whose URL the constructor rejects. *)
Lemma crashed_step_iff w ev :
  shown_accepted w ->
  crashed (step w ev) = crashed w || negb (render_accepted (env w) ev)
  /\ shown_accepted (step w ev).
Proof.
  intros Hw. pose proof (same_host_step w ev) as Hh.
  destruct (render_or_not ev) as [[cid ->]|Hev].
  - revert Hh. unfold step. destruct (crashed w) eqn:Hx; [done|].
    simpl handle. intros [Hu Ha].
    destruct (render_cases cid w) as [[Hsame H0]|H].
    + rewrite Hsame, Hx. split; [|done]. simpl in *.
      destruct (conversation w) as [c|] eqn:Hc; [|discriminate].
      destruct (String.eqb c cid) eqn:E; [|discriminate].
      apply String.eqb_eq in E as ->. by rewrite (Hw Hx cid).
    + cbv zeta in H. destruct H as (_ & Hcv & _ & _ & _ & H). simpl.
      destruct (accepts (env w) (ws_url cid (env w))) eqn:Hacc.
      * destruct H as (Hcr & _). rewrite Hcr, Hx. split; [done|].
        intros _ c Hc. rewrite Hcv in Hc. injection Hc as <-.
        unfold ws_url, base_url. by rewrite Ha, Hu.
      * destruct H as (Hcr & _). rewrite Hcr. split; [done|].
        intros Hn. by rewrite Hcr in Hn.
  - destruct (step_registry w ev Hev) as (_ & Hcv & Hcr & _).
    rewrite Hcr. split.
    + destruct ev; try by rewrite orb_false_r. by destruct (Hev cid).
    + intros Hn c Hc. rewrite Hcr in Hn. rewrite Hcv in Hc.
      destruct Hh as [Hu Ha]. unfold ws_url, base_url. rewrite Ha, Hu.
      by apply Hw.
Qed.

Lemma crashed_run_iff evs w :
  shown_accepted w ->
  crashed (run evs w) = crashed w || negb (renders_accepted (env w) evs).
Proof.
  revert w. induction evs as [|ev evs IH]; intros w Hw.
  - simpl. by rewrite orb_false_r.
  - change (run (ev :: evs) w) with (run evs (step w ev)).
    destruct (crashed_step_iff w ev Hw) as [Hc Hw'].
    rewrite (IH _ Hw'), Hc.
    rewrite (renders_accepted_same_host (env w) _ evs (same_host_step w ev)).
    simpl. by destruct (crashed w), (render_accepted (env w) ev),
                      (renders_accepted (env w) evs).
Qed.
(** *** Received events, end to end *)

Lemma heap_nonempty (w : World) r ws :
  heap (env w) !! r = Some ws -> heap (env w) <> [].
Proof. intros Hr Hnil. by rewrite Hnil in Hr. Qed.

(** A socket that is open or connecting is the current one of a page
    whose effect has not thrown. *)
Lemma open_socket_live evs env_url accepted r ws :
  let w := run evs (init env_url accepted) in
  heap (env w) !! r = Some ws ->
  readyState ws = OPEN \/ readyState ws = CONNECTING ->
  crashed w = false /\ socket (service (env w)) = Some r.
Proof.
  intros w Hr Hst.
  pose proof (sync_inv_run evs _ (sync_inv_init env_url accepted))
    as (_ & Hb & Hs).
  fold w in Hb, Hs.
  assert (socket (service (env w)) = Some r) as Hcur.
  { destruct (decide (socket (service (env w)) = Some r)) as [|Hne]; [done|].
    destruct (Hb r ws Hr Hne) as [H|H], Hst as [H'|H']; congruence. }
  split; [|done]. destruct (crashed w); [|done].
  destruct Hs as [Hs _]. congruence.
Qed.

(** X6. In every state the page can reach, a [message] event received on an
    open socket is appended to the displayed list once for each time the
    effect of [ChatWindow] has run so far, that is, once for the first
    conversation shown plus once for every later switch to another
    conversation; the handlers of earlier runs are never removed. *)
Theorem message_appended_once_per_effect_run
    (evs : list Event) (env_url : option string)
    (accepted : string -> bool) (r : nat) (ws : WebSocket) (m : value) :
  let w := run evs (init env_url accepted) in
  heap (env w) !! r = Some ws -> readyState ws = OPEN ->
  messages (state (onmessage r (Some (message_event m)) w))
  = messages (state w) ++ replicate (effect_runs None evs) m.
Proof.
  intros w Hr Ho.
  pose proof (closures_inv_run evs _ (closures_inv_init env_url accepted))
    as (Hm & _).
  fold w in Hm. rewrite Forall_forall in Hm.
  rewrite (message_event_once_per_handler m r ws w Hr Ho Hm).
  destruct (open_socket_live evs env_url accepted r ws Hr (or_introl Ho))
    as [Hx _].
  unfold w at 2. by rewrite (handlers_count _ _ Hx).
Qed.

Lemma message_appended_once_per_effect_run_witness :
  messages
    (state (onmessage 2%nat (Some (message_event hello))
              (run [Render "a"; Render "b"; Render "c"; SocketOpen 2%nat]
                 (init None browser))))
  = [hello; hello; hello].
Proof.
  apply (message_appended_once_per_effect_run
           [Render "a"; Render "b"; Render "c"; SocketOpen 2%nat] None
           browser 2%nat
           (mkWebSocket "ws://localhost:8000/ws/chat/c/" OPEN []));
    reflexivity.
Defined.

(** X7. In every state the page can reach at most one timer is pending, and
    it is the one [typingTimeoutRef] holds: every [setTimeout] of the
    component is preceded by [clearTimeout] on the same ref. *)
Theorem at_most_one_pending_timer (evs : list Event) (env_url : option string)
    (accepted : string -> bool) :
  let w := run evs (init env_url accepted) in
  length (timers w) <= 1
  /\ forall t, t ∈ timers w -> typingTimeoutRef (state w) = Some (tid t).
Proof.
  intros w.
  assert (timer_inv w) as [H0|(t & Ht & Href)]
    by (apply timer_inv_run; by left).
  - rewrite H0. split; [simpl; lia|]. intros t Ht. by apply elem_of_nil in Ht.
  - rewrite Ht. split; [simpl; lia|]. intros t' Ht'.
    apply list_elem_of_singleton in Ht'. by subst.
Qed.

Lemma at_most_one_pending_timer_witness :
  let w := run [Render "c1"; SocketOpen 0%nat;
                SocketMessage 0%nat (Some (typing_event (lit "Bob") true));
                Change (lit "h")] (init None browser) in
  typingTimeoutRef (state w) = Some (tid (mkTimer 2 1000 SendTypingFalse)).
Proof.
  intros w.
  apply (proj2 (at_most_one_pending_timer
                  [Render "c1"; SocketOpen 0%nat;
                   SocketMessage 0%nat (Some (typing_event (lit "Bob") true));
                   Change (lit "h")] None browser)).
  vm_compute. apply list_elem_of_here.
Defined.

Lemma notify_setConnected (hs : list Handler) (b : bool) (w : World) :
  Forall (fun h => closures w !! h = Some SetConnected) hs ->
  state (notify hs (VBool b) w)
  = match hs with [] => state w | _ => setConnected b (state w) end.
Proof.
  unfold notify. revert w. induction hs as [|h hs IH]; intros w Hhs; [done|].
  apply Forall_cons in Hhs as [Hh Hhs]. simpl. rewrite Hh. simpl.
  rewrite IH by done. by destruct hs.
Qed.

(** X8. The [connected] flag follows the last open or close event of any
    socket the service ever built, current or superseded: in every
    reachable state the open event of a connecting socket sets it to true
    and the close event of a socket that is not yet closed sets it to
    false, and neither changes anything else of the component state.  As
    an event of the page the close takes effect in this way unless an
    effect has thrown: then the handlers still run, but the instance is
    gone and its state stays as it was. *)
Theorem connected_flag_follows_any_socket
    (evs : list Event) (env_url : option string)
    (accepted : string -> bool) (r : nat) (ws : WebSocket) :
  let w := run evs (init env_url accepted) in
  heap (env w) !! r = Some ws ->
  (readyState ws = CONNECTING ->
   state (onopen r w) = setConnected true (state w))
  /\ (readyState ws <> CLOSED ->
      state (onclose r w) = setConnected false (state w))
  /\ (readyState ws <> CLOSED ->
      state (step w (SocketClose r))
      = if crashed w then state w else setConnected false (state w)).
Proof.
  intros w Hr.
  pose proof (closures_inv_run evs _ (closures_inv_init env_url accepted))
    as (_ & _ & Hc & _ & _ & _ & Hne).
  fold w in Hc, Hne.
  specialize (Hne (heap_nonempty _ r ws Hr)).
  assert (readyState ws <> CLOSED ->
          state (onclose r w) = setConnected false (state w)) as Hclose.
  { intros Ho. unfold onclose. rewrite Hr.
    destruct (readyState ws); try done;
      rewrite notify_setConnected by exact Hc; simpl;
      by destruct (connectionHandlers (service (env w))). }
  split; [|split; [exact Hclose|]].
  - intros Ho. unfold onopen. rewrite Hr, Ho.
    rewrite notify_setConnected by exact Hc. simpl.
    by destruct (connectionHandlers (service (env w))).
  - intros Ho. unfold step. destruct (crashed w); simpl handle.
    + unfold drop_updates, upd_state. cbn [state]. rewrite (Hclose Ho).
      by destruct (state w).
    + by apply Hclose.
Qed.

Lemma connected_flag_follows_any_socket_witness :
  let w := run [Render "a"; SocketOpen 0%nat; Render "b"; SocketOpen 1%nat]
             (init None browser) in
  state (onclose 0%nat w) = setConnected false (state w).
Proof.
  intros w.
  apply (proj1 (proj2 (connected_flag_follows_any_socket
                  [Render "a"; SocketOpen 0%nat; Render "b"; SocketOpen 1%nat]
                  None browser 0%nat
                  (mkWebSocket "ws://localhost:8000/ws/chat/a/" CLOSING [])
                  eq_refl))).
  discriminate.
Defined.

(** X9. In every state the page can reach, the service holds the
    conversation the component's effect last ran for, and every socket but
    its current one has been closed.  While no effect has thrown, its two
    nullable fields agree, its socket is the newest socket ever built, and
    no socket exists before the first render.  An effect has thrown
    exactly when the page has rendered a conversation whose URL the
    [WebSocket] constructor rejects; from then on the service holds that
    conversation and no socket. *)
Theorem service_follows_component (evs : list Event) (env_url : option string)
    (accepted : string -> bool) :
  let w := run evs (init env_url accepted) in
  let s := service (env w) in
  conversationId s = conversation w
  /\ (forall r ws, heap (env w) !! r = Some ws -> socket s <> Some r ->
                   readyState ws = CLOSING \/ readyState ws = CLOSED)
  /\ (if crashed w
      then socket s = None /\ conversationId s <> None
      else fields_agree s
           /\ (forall r, socket s = Some r -> S r = length (heap (env w)))
           /\ (conversation w = None -> heap (env w) = []))
  /\ crashed w = negb (renders_accepted (initial env_url accepted) evs).
Proof.
  intros w s.
  pose proof (sync_inv_run evs _ (sync_inv_init env_url accepted))
    as (Hc & Hb & Hs).
  fold w in Hc, Hb, Hs. fold s in Hc, Hb, Hs.
  split; [done|]. split; [exact Hb|]. split.
  - destruct (crashed w).
    + destruct Hs as [Hs Hn]. split; [done|]. by rewrite Hc.
    + unfold fields_agree. rewrite Hc.
      destruct (conversation w) as [c|].
      * destruct Hs as (r & Hr & Hn). rewrite Hr.
        split; [done|]. split; [|done]. intros r' [= <-]. done.
      * destruct Hs as [Hs Hh]. rewrite Hs. done.
  - unfold w. rewrite crashed_run_iff; [done|]. by intros _ c Hcv.
Qed.

Lemma service_follows_component_witness :
  let w := run [Render "a"; SocketOpen 0%nat; Render "b"] (init None browser) in
  readyState (mkWebSocket "ws://localhost:8000/ws/chat/a/" CLOSING [])
  = CLOSING
  \/ readyState (mkWebSocket "ws://localhost:8000/ws/chat/a/" CLOSING [])
     = CLOSED.
Proof.
  intros w.
  apply (proj1 (proj2 (service_follows_component
                  [Render "a"; SocketOpen 0%nat; Render "b"] None browser))
           0%nat).
  - vm_compute. reflexivity.
  - vm_compute. discriminate.
Defined.

(** *** The typing indicator, end to end *)

Lemma timer_inv_setTypingUser v w :
  timer_inv w -> timer_inv (upd_state (setTypingUser v) w).
Proof. by apply timer_inv_same. Qed.

(** One run of the typing handler on an event whose flag is truthy. *)
Lemma show_typing_once (data flag name : value) (w : World) :
  get data "is_typing" = Some flag -> truthy flag = true ->
  get data "user_name" = Some name -> timer_inv w ->
  exists w',
    invoke ShowTyping data w = Some w'
    /\ timer_inv w'
    /\ typingUser (state w') = name
    /\ (exists id, timers w' = [mkTimer id (now w + 3000) ClearTypingUser])
    /\ now w' = now w /\ closures w' = closures w
    /\ messages (state w') = messages (state w).
Proof.
  intros Hf Ht Hn Hw. simpl. rewrite Hf, Ht, Hn.
  eexists. split; [reflexivity|].
  pose proof (timer_inv_setTypingUser name w Hw) as Hw0.
  destruct (restart_timer_single ClearTypingUser 3000 _ Hw0)
    as (H1 & H2 & H3 & H4).
  split; [by apply timer_inv_restart|].
  split; [by rewrite H3|]. split; [by eexists|]. done.
Qed.

Lemma show_typing_all (data flag name : value) (hs : list Handler) (w : World) :
  get data "is_typing" = Some flag -> truthy flag = true ->
  get data "user_name" = Some name -> timer_inv w ->
  Forall (fun h => closures w !! h = Some ShowTyping) hs -> hs <> [] ->
  let res := run_calls (map (fun h => (h, data)) hs) w in
  res.2 = true
  /\ typingUser (state res.1) = name
  /\ (exists id, timers res.1 = [mkTimer id (now w + 3000) ClearTypingUser])
  /\ now res.1 = now w
  /\ messages (state res.1) = messages (state w).
Proof.
  intros Hf Ht Hn. revert w.
  induction hs as [|h hs IH]; intros w Hw Hhs Hne; [done|].
  apply Forall_cons in Hhs as [Hh Hhs].
  destruct (show_typing_once data flag name w Hf Ht Hn Hw)
    as (w' & Hi & Hw' & Hu & Htm & Hnow & Hcl & Hms).
  simpl. rewrite Hh, Hi.
  destruct hs as [|h' hs'].
  - simpl. done.
  - destruct (IH w' Hw') as (H1 & H2 & H3 & H4 & H5); [by rewrite Hcl|done|].
    cbv zeta. rewrite H1, H2, H4, H5, <- Hnow, Hms. done.
Qed.

Lemma hide_typing_all (data flag : value) (hs : list Handler) (w : World) :
  get data "is_typing" = Some flag -> truthy flag = false ->
  Forall (fun h => closures w !! h = Some ShowTyping) hs -> hs <> [] ->
  let res := run_calls (map (fun h => (h, data)) hs) w in
  res.2 = true /\ typingUser (state res.1) = VNull
  /\ messages (state res.1) = messages (state w).
Proof.
  intros Hf Ht. revert w.
  induction hs as [|h hs IH]; intros w Hhs Hne; [done|].
  apply Forall_cons in Hhs as [Hh Hhs].
  simpl. rewrite Hh. simpl. rewrite Hf, Ht.
  destruct hs as [|h' hs'].
  - simpl. done.
  - by apply (IH (upd_state (setTypingUser VNull) w)).
Qed.

Lemma handleMessage_typing (data : value) (e : Env) :
  get data "type" = Some (VStr (lit "typing")) ->
  handleMessage data e
  = Some (e, map (fun h => (h, data)) (typingHandlers (service e))).
Proof. intros H. unfold handleMessage. by rewrite H. Qed.

(** X10. In every state the page can reach, a typing event received on an
    open socket whose [is_typing] is truthy puts its [user_name] in the
    indicator, where it stays while less than 3000 ms pass and is cleared
    once 3000 ms have passed, if nothing but time happens; an event whose
    [is_typing] is falsy clears the indicator at once.  The message list is
    not touched. *)
Theorem typing_event_shows_then_expires
    (evs : list Event) (env_url : option string)
    (accepted : string -> bool) (r : nat) (ws : WebSocket)
    (data flag name : value) :
  let w := run evs (init env_url accepted) in
  heap (env w) !! r = Some ws -> readyState ws = OPEN ->
  get data "type" = Some (VStr (lit "typing")) ->
  get data "is_typing" = Some flag -> get data "user_name" = Some name ->
  let w1 := onmessage r (Some data) w in
  messages (state w1) = messages (state w)
  /\ if truthy flag
     then typingUser (state w1) = name
          /\ (forall ms, (ms < 3000)%N ->
                         typingUser (state (elapse ms w1)) = name)
          /\ (forall ms, (3000 <= ms)%N ->
                         typingUser (state (elapse ms w1)) = VNull)
     else typingUser (state w1) = VNull.
Proof.
  intros w Hr Ho Hty Hf Hn w1.
  pose proof (closures_inv_run evs _ (closures_inv_init env_url accepted))
    as (_ & Ht & _ & _ & Hlt & Hlc & Hne).
  fold w in Ht, Hlt, Hlc, Hne.
  specialize (Hne (heap_nonempty _ r ws Hr)).
  assert (typingHandlers (service (env w)) <> []) as Hne'.
  { intros Hnil. apply Hne. apply nil_length_inv.
    by rewrite Hlc, <- Hlt, Hnil. }
  assert (timer_inv w) as Hw by (apply timer_inv_run; by left).
  unfold w1, onmessage. rewrite Hr, Ho, (handleMessage_typing data _ Hty).
  destruct (truthy flag) eqn:Etr.
  - destruct (show_typing_all data flag name _ (upd_env (fun _ => env w) w)
                Hf Etr Hn Hw Ht Hne') as (H1 & H2 & (id & H3) & H4 & H5).
    destruct (run_calls _ _) as [w' ok]. simpl in *. subst ok.
    split; [done|]. split; [done|]. split.
    + intros ms Hms. unfold elapse. rewrite H3, H4. simpl.
      destruct (N.leb_spec (now w + 3000) (now w + ms)); [lia|done].
    + intros ms Hms. unfold elapse. rewrite H3, H4. simpl.
      destruct (N.leb_spec (now w + 3000) (now w + ms)); [done|lia].
  - destruct (hide_typing_all data flag _ (upd_env (fun _ => env w) w)
                Hf Etr Ht Hne') as (H1 & H2 & H3).
    destruct (run_calls _ _) as [w' ok]. simpl in *. subst ok. done.
Qed.

Lemma typing_event_shows_then_expires_witness :
  typingUser
    (state (elapse 3000
              (onmessage 0%nat (Some (typing_event (lit "Bob") true))
                 chatting)))
  = VNull.
Proof.
  pose proof (typing_event_shows_then_expires
                [Render "c1"; SocketOpen 0%nat] None browser 0%nat
                (mkWebSocket "ws://localhost:8000/ws/chat/c1/" OPEN [])
                (typing_event (lit "Bob") true) (VBool true)
                (VStr (lit "Bob")) eq_refl eq_refl eq_refl eq_refl eq_refl)
    as [_ (_ & _ & H)].
  apply H. lia.
Defined.


(** *** What the user's own input sends *)

Lemma sent_on_send f e r ws :
  socket (service e) = Some r -> heap e !! r = Some ws ->
  sent_on r (send f e) = outbox ws ++ [f]
  /\ isConnected (send f e) = isConnected e.
Proof.
  intros Hs Hr. destruct (send_heap f e r ws Hs Hr) as (H1 & H2 & _).
  unfold sent_on, isConnected. rewrite H1, Hs, H2, Hr. done.
Qed.

(** X11. A keystroke while the component is connected and the socket open
    sends [{type: "typing", is_typing: true}] at once and stores the text;
    if nothing but time then happens, nothing more is sent while less than
    1000 ms pass, and once 1000 ms have passed exactly one
    [{type: "typing", is_typing: false}] has followed and no timer is
    left. *)
Theorem keystroke_typing_then_stop
    (evs : list Event) (env_url : option string)
    (accepted : string -> bool) (text : jsstring)
    (r : nat) (ws : WebSocket) :
  let w := run evs (init env_url accepted) in
  connected (state w) = true ->
  socket (service (env w)) = Some r -> heap (env w) !! r = Some ws ->
  readyState ws = OPEN ->
  let w1 := onChange text w in
  newMessage (state w1) = text
  /\ sent_on r (env w1) = outbox ws ++ [typing_frame true]
  /\ (forall ms, (ms < 1000)%N -> env (elapse ms w1) = env w1)
  /\ (forall ms, (1000 <= ms)%N ->
        sent_on r (env (elapse ms w1))
        = outbox ws ++ [typing_frame true; typing_frame false]
        /\ timers (elapse ms w1) = []).
Proof.
  intros w Hc Hs Hr Ho w1.
  assert (timer_inv w) as Hw by (apply timer_inv_run; by left).
  pose proof (isConnected_intro (env w) r ws Hs Hr Ho) as Hopen.
  set (w0 := upd_env (sendTyping true) (upd_state (setNewMessage text) w)).
  assert (w1 = restart_timer SendTypingFalse 1000 w0) as Hw1.
  { unfold w1, onChange, handleTyping. simpl. by rewrite Hc. }
  assert (timer_inv w0) as Hw0 by (by apply (timer_inv_same w)).
  destruct (restart_timer_single SendTypingFalse 1000 w0 Hw0)
    as (Ht & _ & _ & Hn).
  rewrite <- Hw1 in Ht, Hn.
  assert (env w1 = send (typing_frame true) (env w)) as He.
  { rewrite Hw1, env_restart_timer. unfold w0. simpl.
    unfold sendTyping. by rewrite Hopen. }
  destruct (sent_on_send (typing_frame true) (env w) r ws Hs Hr) as [Hsent Hstill].
  rewrite <- He in Hsent, Hstill.
  split; [by rewrite Hw1|]. split; [done|]. split.
  - intros ms Hms. unfold elapse. rewrite Ht, Hn. simpl.
    change (now w0) with (now w).
    destruct (N.leb_spec (now w + 1000) (now w + ms)); [lia|done].
  - intros ms Hms. unfold elapse. rewrite Ht, Hn. simpl.
    change (now w0) with (now w).
    destruct (N.leb_spec (now w + 1000) (now w + ms)); [|lia]. simpl.
    split; [|done].
    unfold sendTyping. rewrite Hstill, Hopen.
    destruct (send_heap (typing_frame true) (env w) r ws Hs Hr)
      as (Hsv & Hh & _).
    rewrite <- He in Hsv, Hh.
    destruct (sent_on_send (typing_frame false) (env w1) r _
                ltac:(by rewrite Hsv) Hh) as [Hx _].
    change (typing_frame false)
      with (VObj [("type", VStr (lit "typing")); ("is_typing", VBool false)])
      in Hx.
    rewrite Hx. simpl. by rewrite <- app_assoc.
Qed.

Lemma keystroke_typing_then_stop_witness :
  sent_on 0%nat (env (elapse 1000 (onChange (lit "h") chatting)))
  = [typing_frame true; typing_frame false].
Proof.
  apply (keystroke_typing_then_stop [Render "c1"; SocketOpen 0%nat] None
           browser (lit "h") 0%nat
           (mkWebSocket "ws://localhost:8000/ws/chat/c1/" OPEN [])
           eq_refl eq_refl eq_refl eq_refl).
  lia.
Defined.

Lemma trimStart_split (s : jsstring) :
  exists pre,
    s = pre ++ trimStart s
    /\ Forall (fun c => is_whitespace c = true) pre
    /\ forall a rest, trimStart s = a :: rest -> is_whitespace a = false.
Proof.
  induction s as [|c s (pre & Hs & Hpre & Hhd)]; simpl.
  - exists []. repeat split; [constructor|discriminate].
  - destruct (is_whitespace c) eqn:Ec.
    + exists (c :: pre). simpl. rewrite <- Hs. repeat split; [|done].
      by constructor.
    + exists []. repeat split; [constructor|]. by intros a rest [= <- _].
Qed.

Lemma trim_split (s : jsstring) :
  exists pre post,
    s = pre ++ trim s ++ post
    /\ Forall (fun c => is_whitespace c = true) pre
    /\ Forall (fun c => is_whitespace c = true) post
    /\ (forall a rest, trim s = a :: rest -> is_whitespace a = false)
    /\ (trim s <> [] ->
        exists init b, trim s = init ++ [b] /\ is_whitespace b = false).
Proof.
  destruct (trimStart_split s) as (pre & Hs & Hpre & Hhd).
  destruct (trimStart_split (rev (trimStart s))) as (p & Hr & Hp & Hlast).
  assert (trimStart s = trim s ++ rev p) as Ht.
  { unfold trim, trimEnd. rewrite <- (rev_involutive (trimStart s)) at 1.
    rewrite Hr at 1. by rewrite rev_app_distr. }
  exists pre, (rev p). split; [by rewrite <- Ht|]. split; [done|]. split.
  { apply Forall_forall. intros c Hc. rewrite Forall_forall in Hp.
    apply Hp. apply list_elem_of_In. apply in_rev.
    by apply list_elem_of_In. }
  split.
  - intros a rest Ha. rewrite Ha in Ht. simpl in Ht. by eapply Hhd.
  - intros Hne. unfold trim, trimEnd in *.
    destruct (trimStart (rev (trimStart s))) as [|b rest] eqn:E; [done|].
    exists (rev rest), b. simpl. split; [done|]. by eapply Hlast.
Qed.

(** X12. [handleSendMessage] does nothing at all when the trimmed input is
    empty or the component is not connected.  Otherwise it clears the input
    and never touches the displayed messages; when the socket is open it
    sends exactly one message frame whose content is the input without its
    leading and trailing whitespace (and starts and ends with a
    non-whitespace character); when the socket is not open, as while a
    newly selected conversation is still connecting, nothing is sent, the
    failure is only logged, and the typed text is lost. *)
Theorem handleSendMessage_cases (w : World) :
  let text := newMessage (state w) in
  (trim text = [] \/ connected (state w) = false -> handleSendMessage w = w)
  /\ (trim text <> [] -> connected (state w) = true ->
      let w' := handleSendMessage w in
      newMessage (state w') = []
      /\ messages (state w') = messages (state w)
      /\ (exists pre post init b,
            text = pre ++ trim text ++ post
            /\ Forall (fun c => is_whitespace c = true) pre
            /\ Forall (fun c => is_whitespace c = true) post
            /\ (forall a rest, trim text = a :: rest -> is_whitespace a = false)
            /\ trim text = init ++ [b] /\ is_whitespace b = false)
      /\ (forall r ws,
            socket (service (env w)) = Some r -> heap (env w) !! r = Some ws ->
            readyState ws = OPEN ->
            sent_on r (env w') = outbox ws ++ [message_frame (trim text)])
      /\ (isConnected (env w) = false ->
          heap (env w') = heap (env w)
          /\ console (env w')
             = console (env w) ++ ["WebSocket is not connected"])).
Proof.
  intros text. unfold handleSendMessage. fold text. split.
  - intros [Ht|Hc].
    + by rewrite Ht.
    + rewrite Hc. by rewrite orb_true_r.
  - intros Ht Hc. rewrite Hc.
    assert (truthy (VStr (trim text)) = true) as -> by (by destruct (trim text)).
    simpl. split; [done|]. split; [done|]. split.
    { destruct (trim_split text) as (pre & post & H1 & H2 & H3 & H4 & H5).
      destruct (H5 Ht) as (init & b & H6 & H7).
      by exists pre, post, init, b. }
    split.
    + intros r ws Hs Hr Ho. unfold sendMessage.
      rewrite (isConnected_intro _ r ws Hs Hr Ho).
      by destruct (sent_on_send (message_frame (trim text)) (env w) r ws Hs Hr).
    + intros Hn. unfold sendMessage. by rewrite Hn.
Qed.

Lemma handleSendMessage_cases_witness :
  let w := run [Render "a"; SocketOpen 0%nat; Render "b"; Change (lit " hi ")]
             (init None browser) in
  newMessage (state (handleSendMessage w)) = []
  /\ heap (env (handleSendMessage w)) = heap (env w).
Proof.
  intros w.
  destruct (proj2 (handleSendMessage_cases w)) as (H1 & _ & _ & _ & H5).
  - vm_compute. discriminate.
  - reflexivity.
  - split; [exact H1|]. apply H5. reflexivity.
Defined.


(** X22. Whatever happens to the page, every frame on every socket the
    service ever built is a typing frame or a message frame with non-empty
    content: the component never sends the read command [{type: "read"}]
    nor any other frame. *)
Theorem only_typing_and_message_frames
    (evs : list Event) (env_url : option string)
    (accepted : string -> bool) (ws : WebSocket) (f : value) :
  ws ∈ heap (env (run evs (init env_url accepted))) -> f ∈ outbox ws ->
  ((exists content, f = message_frame content /\ content <> [])
   \/ (exists b, f = typing_frame b))
  /\ f <> VObj [("type", VStr (lit "read"))].
Proof.
  intros Hws Hf.
  pose proof (frames_ok_run evs _ (frames_ok_init env_url accepted)) as Hok.
  unfold frames_ok, heap_ok in Hok.
  rewrite Forall_forall in Hok. specialize (Hok ws Hws).
  rewrite Forall_forall in Hok. specialize (Hok f Hf).
  split; [exact Hok|].
  destruct Hok as [(c & -> & _)|(b & ->)]; discriminate.
Qed.

Lemma only_typing_and_message_frames_witness :
  typing_frame true <> VObj [("type", VStr (lit "read"))].
Proof.
  apply (only_typing_and_message_frames
           [Render "c1"; SocketOpen 0%nat; Change (lit "h")] None browser
           (mkWebSocket "ws://localhost:8000/ws/chat/c1/" OPEN
              [typing_frame true]) (typing_frame true)).
  - vm_compute. apply list_elem_of_here.
  - apply list_elem_of_here.
Defined.

End ChatWindowMore.

(** ** More of AuthContext *)

Module AuthContextMore.
Import Js AuthContext.

(** The payload of a response [{data: {status: "success", data: payload}}],
    if it is one. *)
Lemma on_success_ok (response data status payload : value)
    (k otherwise : value -> Async value) (st : Provider) :
  get response "data" = Some data -> get data "status" = Some status ->
  strict_eq_lit status "success" = true -> get data "data" = Some payload ->
  on_success response k otherwise st = k payload st.
Proof.
  intros H1 H2 H3 H4. unfold on_success, bind, prop, ret.
  by rewrite H1, H2, H3, H4.
Qed.

Lemma on_success_other (response data status : value)
    (k otherwise : value -> Async value) (st : Provider) :
  get response "data" = Some data -> get data "status" = Some status ->
  strict_eq_lit status "success" = false ->
  on_success response k otherwise st = otherwise data st.
Proof.
  intros H1 H2 H3. unfold on_success, bind, prop, ret.
  by rewrite H1, H2, H3.
Qed.

(** A response or body that is [null] or [undefined] makes the property
    chain throw. *)
Lemma on_success_malformed (response : value)
    (k otherwise : value -> Async value) (st : Provider) :
  get response "data" = None
  \/ (exists data, get response "data" = Some data
                   /\ get data "status" = None) ->
  exists reason, on_success response k otherwise st = (Rejected reason, st).
Proof.
  intros [H1|(data & H1 & H2)]; unfold on_success, bind, prop, ret;
    rewrite H1; [|rewrite H2]; by eexists.
Qed.

Lemma bind_await {A B} (p : Settled A) (k : A -> Async B) (st : Provider) :
  bind (await p) k st
  = match p with
    | Fulfilled a => k a st
    | Rejected r => (Rejected r, st)
    end.
Proof. unfold bind, await. by destruct p. Qed.

(** X13. [checkAuth] never rejects and always ends with [loading] false and
    the console untouched.  The user becomes the payload when the profile
    request is answered with status "success", becomes null when the
    request is rejected or the answer has no readable body, and is left as
    it was when the answer carries any other status. *)
Theorem checkAuth_settles (api : AuthAPI) (st : Provider) :
  exists st',
    checkAuth api st = (Fulfilled tt, st')
    /\ loading st' = false /\ console st' = console st
    /\ (forall reason, api_getProfile api = Rejected reason ->
                       user st' = VNull)
    /\ (forall response,
          api_getProfile api = Fulfilled response ->
          (get response "data" = None
           \/ (exists data, get response "data" = Some data
                            /\ get data "status" = None) ->
           user st' = VNull)
          /\ (forall data status,
                get response "data" = Some data ->
                get data "status" = Some status ->
                (strict_eq_lit status "success" = false ->
                 user st' = user st)
                /\ (forall payload,
                      strict_eq_lit status "success" = true ->
                      get data "data" = Some payload ->
                      user st' = payload))).
Proof.
  unfold checkAuth, try_finally, try_catch, bind, await, setLoading, setUser.
  destruct (api_getProfile api) as [response|reason] eqn:Hp.
  - destruct (on_success response _ _ st) as [[v|rsn] st1] eqn:Hos;
      simpl; eexists; (split; [reflexivity|]); simpl.
    + assert (console st1 = console st /\ loading st1 = loading st
              /\ (get response "data" <> None)) as (Hc & Hl & Hd).
      { unfold on_success, bind, prop, ret in Hos.
        destruct (get response "data") as [d|]; [|discriminate].
        destruct (get d "status") as [s|]; [|discriminate].
        destruct (strict_eq_lit s "success").
        - destruct (get d "data"); inversion Hos; done.
        - inversion Hos; done. }
      split; [done|]. split; [done|]. split; [done|].
      intros response' [= <-]. split.
      * intros [H|(d & H1 & H2)]; [done|].
        unfold on_success, bind, prop, ret in Hos. rewrite H1, H2 in Hos.
        discriminate.
      * intros d s H1 H2. split.
        -- intros Hs.
           rewrite (on_success_other _ d s _ _ st H1 H2 Hs) in Hos.
           by inversion Hos.
        -- intros payload Hs H4.
           rewrite (on_success_ok _ d s payload _ _ st H1 H2 Hs H4) in Hos.
           by inversion Hos.
    + assert (console st1 = console st) as Hc.
      { unfold on_success, bind, prop, ret in Hos.
        destruct (get response "data") as [d|]; [|by inversion Hos].
        destruct (get d "status") as [s|]; [|by inversion Hos].
        destruct (strict_eq_lit s "success").
        - destruct (get d "data"); inversion Hos; done.
        - inversion Hos. }
      split; [done|]. split; [done|]. split; [done|].
      intros response' [= <-]. split; [done|].
      intros d s H1 H2. split.
      * intros Hs.
        rewrite (on_success_other _ d s _ _ st H1 H2 Hs) in Hos.
        inversion Hos.
      * intros payload Hs H4.
        rewrite (on_success_ok _ d s payload _ _ st H1 H2 Hs H4) in Hos.
        inversion Hos.
  - simpl. eexists. split; [reflexivity|]. simpl.
    repeat split; try done.
Qed.

Lemma checkAuth_settles_witness :
  let api := mkAuthAPI (Rejected (VObj [])) (fun _ _ => Rejected VNull)
               (fun _ => Rejected VNull) (Rejected VNull) in
  exists st',
    checkAuth api (mkProvider (VStr (lit "ann")) true []) = (Fulfilled tt, st')
    /\ user st' = VNull.
Proof.
  intros api.
  destruct (checkAuth_settles api (mkProvider (VStr (lit "ann")) true []))
    as (st' & H1 & _ & _ & H4 & _).
  exists st'. split; [exact H1|]. by apply (H4 (VObj [])).
Defined.

(** X14. [login] passes a rejected request on to its caller with the same
    reason and changes nothing (it has no [catch], unlike [logout]).  On an
    answer with status "success" it stores the payload as the user and
    returns [{success: true}]; on any other status it leaves the state
    alone and returns [{success: false, message}] with the message of the
    answer.  It never touches [loading] or the console. *)
Theorem login_outcomes (api : AuthAPI) (email password : jsstring) (st : Provider) :
  (forall reason,
      api_login api email password = Rejected reason ->
      login api email password st = (Rejected reason, st))
  /\ (forall response data status,
        api_login api email password = Fulfilled response ->
        get response "data" = Some data -> get data "status" = Some status ->
        (forall payload,
            strict_eq_lit status "success" = true ->
            get data "data" = Some payload ->
            login api email password st
            = (Fulfilled (VObj [("success", VBool true)]),
               mkProvider payload (loading st) (console st)))
        /\ (forall message,
              strict_eq_lit status "success" = false ->
              get data "message" = Some message ->
              login api email password st
              = (Fulfilled (VObj [("success", VBool false);
                                  ("message", message)]), st)))
  /\ loading (login api email password st).2 = loading st
  /\ console (login api email password st).2 = console st
  /\ ((login api email password st).2 = st
      \/ (login api email password st).1
         = Fulfilled (VObj [("success", VBool true)])).
Proof.
  unfold login. rewrite bind_await.
  destruct (api_login api email password) as [response|reason].
  - split; [intros reason [=]|]. split.
    + intros response' data status [= <-] H1 H2. split.
      * intros payload Hs H4.
        by rewrite (on_success_ok _ data status payload _ _ st H1 H2 Hs H4).
      * intros message Hs Hm.
        rewrite (on_success_other _ data status _ _ st H1 H2 Hs).
        unfold bind, prop, ret. by rewrite Hm.
    + unfold on_success, bind, prop, ret, setUser.
      destruct (get response "data") as [d|]; [|simpl; auto].
      destruct (get d "status") as [s|]; [|simpl; auto].
      destruct (strict_eq_lit s "success").
      * destruct (get d "data"); simpl; auto.
      * destruct (get d "message"); simpl; auto.
  - split; [by intros reason' [= <-]|]. split; [intros response ? ? [=]|].
    simpl. auto.
Qed.

Lemma login_outcomes_witness :
  let api := mkAuthAPI (Rejected VNull)
               (fun _ _ => Rejected (VStr (lit "Network Error")))
               (fun _ => Rejected VNull) (Rejected VNull) in
  login api (lit "a@b.c") (lit "pw") mount
  = (Rejected (VStr (lit "Network Error")), mount).
Proof.
  intros api.
  apply (proj1 (login_outcomes api (lit "a@b.c") (lit "pw") mount)).
  reflexivity.
Defined.

(** X15. [register] behaves like [login]: a rejected request is passed on
    unchanged; status "success" stores the payload as the user and returns
    [{success: true}]; any other status changes nothing and returns
    [{success: false, message, errors}] taken from the answer, with
    [undefined] for a field the answer lacks. *)
Theorem register_outcomes (api : AuthAPI) (form : value) (st : Provider) :
  (forall reason,
      api_register api form = Rejected reason ->
      register api form st = (Rejected reason, st))
  /\ (forall response data status,
        api_register api form = Fulfilled response ->
        get response "data" = Some data -> get data "status" = Some status ->
        (forall payload,
            strict_eq_lit status "success" = true ->
            get data "data" = Some payload ->
            register api form st
            = (Fulfilled (VObj [("success", VBool true)]),
               mkProvider payload (loading st) (console st)))
        /\ (strict_eq_lit status "success" = false ->
            exists message errors,
              get data "message" = Some message
              /\ get data "errors" = Some errors
              /\ register api form st
                 = (Fulfilled (VObj [("success", VBool false);
                                     ("message", message);
                                     ("errors", errors)]), st))).
Proof.
  unfold register. rewrite bind_await.
  destruct (api_register api form) as [response|reason].
  - split; [intros reason [=]|].
    intros response' data status [= <-] H1 H2. split.
    + intros payload Hs H4.
      by rewrite (on_success_ok _ data status payload _ _ st H1 H2 Hs H4).
    + intros Hs.
      rewrite (on_success_other _ data status _ _ st H1 H2 Hs).
      unfold bind, prop, ret.
      destruct data; simpl in H2; try discriminate; simpl;
        eexists _, _; repeat split; reflexivity.
  - split; [by intros reason' [= <-]|]. intros response ? ? [=].
Qed.

Lemma register_outcomes_witness :
  let api := mkAuthAPI (Rejected VNull) (fun _ _ => Rejected VNull)
               (fun _ => Rejected (VStr (lit "Network Error")))
               (Rejected VNull) in
  register api (VObj []) mount = (Rejected (VStr (lit "Network Error")), mount).
Proof.
  intros api. apply (proj1 (register_outcomes api (VObj []) mount)).
  reflexivity.
Defined.

End AuthContextMore.

(** ** Register *)

Module RegisterMore.
Import Js Promise Register.

Lemma assoc_assign_eq k v fs : assoc k (assign k v fs) = Some v.
Proof.
  induction fs as [|[k' v'] fs IH]; simpl.
  - by rewrite String.eqb_refl.
  - destruct (String.eqb k k') eqn:E; simpl; [by rewrite String.eqb_refl|].
    by rewrite E.
Qed.

Lemma assoc_assign_ne k k0 v fs :
  k0 <> k -> assoc k0 (assign k v fs) = assoc k0 fs.
Proof.
  intros Hne. induction fs as [|[k' v'] fs IH]; simpl.
  - by apply String.eqb_neq in Hne as ->.
  - destruct (String.eqb k k') eqn:E; simpl.
    + apply String.eqb_eq in E as <-. by apply String.eqb_neq in Hne as ->.
    + by rewrite IH.
Qed.

Lemma keys_assign k v fs :
  map fst (assign k v fs)
  = if bool_decide (k ∈ map fst fs) then map fst fs else map fst fs ++ [k].
Proof.
  induction fs as [|[k' v'] fs IH]; simpl; [done|].
  destruct (String.eqb k k') eqn:E; simpl.
  - apply String.eqb_eq in E as <-.
    rewrite bool_decide_eq_true_2; [done|]. apply list_elem_of_here.
  - apply String.eqb_neq in E. rewrite IH.
    destruct (bool_decide (k ∈ map fst fs)) eqn:B.
    + apply bool_decide_eq_true in B.
      rewrite bool_decide_eq_true_2; [done|]. by apply list_elem_of_further.
    + apply bool_decide_eq_false in B.
      rewrite bool_decide_eq_false_2; [done|].
      intros Hin. apply elem_of_cons in Hin as [?|?]; done.
Qed.

(** X16. [handleChange] sets exactly the field named by the input: reading
    that field back gives the new value, every other field reads as
    before, a field that existed keeps its place and a new one is added at
    the end; the errors, the loading flag and the provider are untouched. *)
Theorem handleChange_sets_one_field (name : string) (v : value) (p : Page) :
  let p' := handleChange name v p in
  assoc name (formData (form p')) = Some v
  /\ (forall k, k <> name ->
        assoc k (formData (form p')) = assoc k (formData (form p)))
  /\ map fst (formData (form p'))
     = (if bool_decide (name ∈ map fst (formData (form p)))
        then map fst (formData (form p))
        else map fst (formData (form p)) ++ [name])
  /\ errors (form p') = errors (form p)
  /\ loading (form p') = loading (form p)
  /\ auth p' = auth p.
Proof.
  simpl. split; [apply assoc_assign_eq|].
  split; [intros k Hk; by apply assoc_assign_ne|].
  split; [apply keys_assign|done].
Qed.

Lemma handleChange_sets_one_field_witness :
  assoc "email"
    (formData (form (handleChange "password" (VStr (lit "x"))
                       (handleChange "email" (VStr (lit "a@b.c"))
                          (mount AuthContext.mount)))))
  = Some (VStr (lit "a@b.c")).
Proof.
  rewrite (proj1 (proj2 (handleChange_sets_one_field "password"
                           (VStr (lit "x"))
                           (handleChange "email" (VStr (lit "a@b.c"))
                              (mount AuthContext.mount)))) "email").
  - reflexivity.
  - discriminate.
Defined.

(** X17. [handleSubmit] always ends with [loading] false and the form data
    as typed.  When the request is rejected with a reason that is an
    object, it fulfils and shows [reason.response?.data?.message], or
    "An error occurred" when that is missing, under [general]; the user is
    unchanged.  When the server answers with status "success" the errors
    are empty and the provider holds the new user; with any other status
    the provider is unchanged and the form shows the answer's [errors] if
    truthy and [{general: message}] otherwise. *)
Theorem handleSubmit_outcomes (api : AuthContext.AuthAPI) (p : Page) :
  let fd := formData (form p) in
  loading (form (handleSubmit api p).2) = false
  /\ formData (form (handleSubmit api p).2) = fd
  /\ (forall reason response,
        AuthContext.api_register api (VObj fd) = AuthContext.Rejected reason ->
        get reason "response" = Some response ->
        handleSubmit api p
        = (AuthContext.Fulfilled tt,
           mkPage
             (mkForm fd
                (VObj [("general",
                        or_else (opt_get (opt_get response "data") "message")
                          (VStr (lit "An error occurred")))])
                false)
             (auth p)))
  /\ (forall response data status,
        AuthContext.api_register api (VObj fd) = AuthContext.Fulfilled response ->
        get response "data" = Some data -> get data "status" = Some status ->
        (forall payload,
            strict_eq_lit status "success" = true ->
            get data "data" = Some payload ->
            handleSubmit api p
            = (AuthContext.Fulfilled tt,
               mkPage (mkForm fd (VObj []) false)
                 (AuthContext.mkProvider payload
                    (AuthContext.loading (auth p))
                    (AuthContext.console (auth p)))))
        /\ (forall message errs,
              strict_eq_lit status "success" = false ->
              get data "message" = Some message ->
              get data "errors" = Some errs ->
              handleSubmit api p
              = (AuthContext.Fulfilled tt,
                 mkPage
                   (mkForm fd
                      (if truthy errs then errs
                       else VObj [("general", message)])
                      false)
                   (auth p)))).
Proof.
  intros fd.
  assert (Hgo : forall res a,
             AuthContext.register api (VObj fd) (auth p) = (res, a) ->
             handleSubmit api p
             = match res with
               | AuthContext.Fulfilled result =>
                   match get result "success" with
                   | None =>
                       (AuthContext.Fulfilled tt,
                        mkPage
                          (mkForm fd
                             (VObj [("general", VStr (lit "An error occurred"))])
                             false) a)
                   | Some success =>
                       if negb (truthy success) then
                         match get result "errors" with
                         | Some errs =>
                             if truthy errs then
                               (AuthContext.Fulfilled tt,
                                mkPage (mkForm fd errs false) a)
                             else
                               match get result "message" with
                               | Some message =>
                                   (AuthContext.Fulfilled tt,
                                    mkPage
                                      (mkForm fd
                                         (VObj [("general", message)])
                                         false) a)
                               | None =>
                                   (AuthContext.Fulfilled tt,
                                    mkPage
                                      (mkForm fd
                                         (VObj [("general",
                                                 VStr (lit "An error occurred"))])
                                         false) a)
                               end
                         | None =>
                             (AuthContext.Fulfilled tt,
                              mkPage
                                (mkForm fd
                                   (VObj [("general",
                                           VStr (lit "An error occurred"))])
                                   false) a)
                         end
                       else
                         (AuthContext.Fulfilled tt,
                          mkPage (mkForm fd (VObj []) false) a)
                   end
               | AuthContext.Rejected reason =>
                   match get reason "response" with
                   | Some response =>
                       (AuthContext.Fulfilled tt,
                        mkPage
                          (mkForm fd
                             (VObj [("general",
                                     or_else
                                       (opt_get (opt_get response "data")
                                          "message")
                                       (VStr (lit "An error occurred")))])
                             false) a)
                   | None =>
                       (AuthContext.Rejected (VStr (lit "TypeError")),
                        mkPage (mkForm fd (VObj []) false) a)
                   end
               end).
  { intros res a Hr.
    unfold handleSubmit, try_finally, try_catch, bind, read, modify,
      call_register, error_message, prop, ret, throw. simpl.
    fold fd. rewrite Hr. destruct res as [result|reason]; simpl.
    - destruct (get result "success") as [success|]; simpl; [|done].
      destruct (truthy success); simpl; [done|].
      destruct (get result "errors") as [errs|]; simpl; [|done].
      destruct (truthy errs); simpl; [done|].
      by destruct (get result "message").
    - by destruct (get reason "response"). }
  destruct (AuthContext.register api (VObj fd) (auth p)) as [res a] eqn:Hr.
  split; [|split; [|split]].
  - rewrite (Hgo res a eq_refl).
    destruct res as [result|reason];
      repeat (match goal with
              | |- context [match ?x with _ => _ end] => destruct x
              | |- context [if ?x then _ else _] => destruct x
              end); reflexivity.
  - rewrite (Hgo res a eq_refl).
    destruct res as [result|reason];
      repeat (match goal with
              | |- context [match ?x with _ => _ end] => destruct x
              | |- context [if ?x then _ else _] => destruct x
              end); reflexivity.
  - intros reason response Hrej Hresp.
    assert ((res, a) = (AuthContext.Rejected reason, auth p)) as [= -> ->].
    { rewrite <- Hr. unfold AuthContext.register.
      rewrite AuthContextMore.bind_await. by rewrite Hrej. }
    rewrite (Hgo _ _ eq_refl). by rewrite Hresp.
  - intros response data status Hful H1 H2. split.
    + intros payload Hs H4.
      assert ((res, a)
              = (AuthContext.Fulfilled (VObj [("success", VBool true)]),
                 AuthContext.mkProvider payload
                   (AuthContext.loading (auth p))
                   (AuthContext.console (auth p)))) as [= -> ->].
      { rewrite <- Hr. unfold AuthContext.register.
        rewrite AuthContextMore.bind_await, Hful.
        by rewrite (AuthContextMore.on_success_ok _ data status payload
                      _ _ _ H1 H2 Hs H4). }
      by rewrite (Hgo _ _ eq_refl).
    + intros message errs Hs Hm He.
      assert ((res, a)
              = (AuthContext.Fulfilled
                   (VObj [("success", VBool false); ("message", message);
                          ("errors", errs)]), auth p)) as [= -> ->].
      { rewrite <- Hr. unfold AuthContext.register.
        rewrite AuthContextMore.bind_await, Hful.
        rewrite (AuthContextMore.on_success_other _ data status
                   _ _ _ H1 H2 Hs).
        unfold AuthContext.bind, AuthContext.prop, AuthContext.ret.
        by rewrite Hm, He. }
      rewrite (Hgo _ _ eq_refl). simpl. by destruct (truthy errs).
Qed.

Lemma handleSubmit_outcomes_witness :
  let api := AuthContext.mkAuthAPI (AuthContext.Rejected VNull)
               (fun _ _ => AuthContext.Rejected VNull)
               (fun _ => AuthContext.Rejected
                           (VObj [("message", VStr (lit "Network Error"))]))
               (AuthContext.Rejected VNull) in
  errors (form (handleSubmit api (mount AuthContext.mount)).2)
  = VObj [("general", VStr (lit "An error occurred"))].
Proof.
  intros api.
  destruct (handleSubmit_outcomes api (mount AuthContext.mount))
    as (_ & _ & H & _).
  rewrite (H (VObj [("message", VStr (lit "Network Error"))]) VUndefined
             eq_refl eq_refl).
  reflexivity.
Defined.

End RegisterMore.

(** ** The new-conversation modal and the Chat page *)

Module NewConversationMore.
Import Js Promise NewConversation.
Local Open Scope Z_scope.

Lemma filter_ne_id (uid : Z) (l : list Z) :
  uid ∉ l -> filter (fun id => id <> uid) l = l.
Proof.
  induction l as [|x l IH]; [done|]. intros Hx.
  apply not_elem_of_cons in Hx as [Hx Hl].
  rewrite filter_cons_True by congruence. by rewrite IH.
Qed.

(** X18. [toggleUser] flips the membership of the clicked user and of
    nobody else, keeps the selection free of duplicates, and clicking the
    same user twice gives back the same selection: the very same list when
    the user was not selected, and the same users (the clicked one moved to
    the end) when it was. *)
Theorem toggle_flips_one_user (userId : Z) (prev : list Z) :
  (userId ∈ toggle userId prev <-> userId ∉ prev)
  /\ (forall id, id <> userId -> (id ∈ toggle userId prev <-> id ∈ prev))
  /\ (NoDup prev -> NoDup (toggle userId prev))
  /\ (userId ∉ prev -> toggle userId (toggle userId prev) = prev)
  /\ (NoDup prev -> toggle userId (toggle userId prev) ≡ₚ prev).
Proof.
  unfold toggle at 1 2 3.
  destruct (bool_decide (userId ∈ prev)) eqn:B.
  - apply bool_decide_eq_true in B. split.
    { rewrite list_elem_of_filter. split; [by intros [? _]|done]. }
    split.
    { intros id Hid. rewrite list_elem_of_filter. split; [by intros [_ ?]|done]. }
    split; [intros ?; by apply NoDup_filter|]. split; [intros Hn; by destruct (Hn B)|].
    intros Hnd. unfold toggle.
    rewrite (bool_decide_eq_true_2 (userId ∈ prev)) by done.
    assert (userId ∉ filter (fun id => id <> userId) prev) as Hout.
    { rewrite list_elem_of_filter. by intros [? _]. }
    rewrite bool_decide_eq_false_2 by done.
    apply list_elem_of_split in B as (l1 & l2 & ->).
    apply NoDup_app in Hnd as (Hn1 & Hdisj & Hn2).
    apply NoDup_cons in Hn2 as [Hn2 _].
    assert (userId ∉ l1) as H1.
    { intros Hin. apply (Hdisj _ Hin). apply list_elem_of_here. }
    rewrite filter_app, filter_cons_False by (intros H; by apply H).
    rewrite !filter_ne_id by done.
    rewrite <- app_assoc. apply Permutation_app_head.
    symmetry. apply Permutation_cons_append.
  - apply bool_decide_eq_false in B. split.
    { split; [done|]. intros _. apply elem_of_app. right.
      apply list_elem_of_here. }
    split.
    { intros id Hid. rewrite elem_of_app, list_elem_of_singleton.
      split; [by intros [?|?]|by left]. }
    split.
    { intros Hnd. apply NoDup_app. split; [done|]. split.
      - intros x Hx Hx'. apply list_elem_of_singleton in Hx'. by subst.
      - apply NoDup_singleton. }
    assert (toggle userId (prev ++ [userId]) = prev) as Htwice.
    { unfold toggle. rewrite bool_decide_eq_true_2.
      - rewrite filter_app, filter_cons_False by (intros H; by apply H).
        rewrite filter_nil, app_nil_r. by apply filter_ne_id.
      - apply elem_of_app. right. apply list_elem_of_here. }
    assert (toggle userId prev = prev ++ [userId]) as Honce.
    { unfold toggle. by rewrite bool_decide_eq_false_2. }
    rewrite Honce, Htwice. done.
Qed.

Lemma toggle_flips_one_user_witness :
  toggle 7 (toggle 7 [3; 4]) = [3; 4] /\ toggle 4 (toggle 4 [3; 4]) ≡ₚ [3; 4].
Proof.
  destruct (toggle_flips_one_user 7 [3; 4]) as (_ & _ & _ & H4 & _).
  destruct (toggle_flips_one_user 4 [3; 4]) as (_ & _ & _ & _ & H5).
  split.
  - apply H4. intros Hin.
    apply elem_of_cons in Hin as [Heq|Hin]; [discriminate|].
    apply elem_of_cons in Hin as [Heq|Hin]; [discriminate|].
    by apply elem_of_nil in Hin.
  - apply H5. apply NoDup_cons. split.
    + intros Hin. apply list_elem_of_singleton in Hin. discriminate.
    + apply NoDup_singleton.
Defined.

(** The table of [handleCreate] for a non-empty selection. *)
Lemma handleCreate_table (api : API) (currentUserId : value) (c : Chat)
    (u : Z) (us : list Z) :
  selectedUsers (modal c) = u :: us ->
  let body := VObj [("participant_ids",
                     VArr (currentUserId :: map VNum (u :: us)))] in
  let m0 := setCreating false (setError (VStr []) (setCreating true (modal c))) in
  let posted := requests c ++ [body] in
  handleCreate api currentUserId c
  = match api_createConversation api body with
    | AuthContext.Fulfilled response =>
        match get response "data" with
        | Some data =>
            match get data "status" with
            | Some status =>
                if strict_eq_lit status "success" then
                  (AuthContext.Fulfilled tt,
                   mkChat (default VUndefined (get data "data")
                           :: conversations c)
                     (default VUndefined (get data "data")) false m0 posted
                     (console c))
                else
                  (AuthContext.Fulfilled tt,
                   mkChat (conversations c) (selectedConversation c)
                     (showNewChat c) m0 posted (console c))
            | None =>
                (AuthContext.Fulfilled tt,
                 mkChat (conversations c) (selectedConversation c)
                   (showNewChat c)
                   (setError (VStr (lit "Failed to create conversation")) m0)
                   posted (console c ++ ["Error creating conversation:"]))
            end
        | None =>
            (AuthContext.Fulfilled tt,
             mkChat (conversations c) (selectedConversation c)
               (showNewChat c)
               (setError (VStr (lit "Failed to create conversation")) m0)
               posted (console c ++ ["Error creating conversation:"]))
        end
    | AuthContext.Rejected reason =>
        match get reason "response" with
        | Some response =>
            (AuthContext.Fulfilled tt,
             mkChat (conversations c) (selectedConversation c)
               (showNewChat c)
               (setError
                  (or_else (opt_get (opt_get response "data") "message")
                     (VStr (lit "Failed to create conversation"))) m0)
               posted (console c ++ ["Error creating conversation:"]))
        | None =>
            (AuthContext.Rejected (VStr (lit "TypeError")),
             mkChat (conversations c) (selectedConversation c)
               (showNewChat c) m0 posted
               (console c ++ ["Error creating conversation:"]))
        end
    end.
Proof.
  intros Hsel body m0 posted.
  unfold handleCreate, handleNewConversation, on_success, error_message,
    console_error, try_finally, try_catch, bind, read, modify,
    post_conversation, prop, ret, throw, upd_modal. simpl. rewrite Hsel.
  subst body m0 posted. simpl.
  destruct (api_createConversation api _) as [response|reason]; simpl.
  - destruct (get response "data") as [data|]; simpl; [|done].
    destruct (get data "status") as [status|] eqn:Hst; simpl; [|done].
    destruct (strict_eq_lit status "success"); simpl; [|done].
    destruct data; simpl in Hst; try discriminate; simpl; done.
  - by destruct (get reason "response").
Qed.

(** X19. [handleCreate] with nobody selected posts nothing and only shows
    "Please select at least one user".  Otherwise it posts exactly one
    body, [{participant_ids: [currentUserId, ...selectedUsers]}], and ends
    with [creating] false in every case.  On status "success" the new
    conversation is put first in the list, selected, and the modal is
    closed; on any other status nothing changes and no error is shown; on a
    rejected request the page is unchanged, the failure is logged, and the
    modal shows [reason.response?.data?.message] or "Failed to create
    conversation". *)
Theorem handleCreate_outcomes (api : API) (currentUserId : value) (c : Chat) :
  (selectedUsers (modal c) = [] ->
   handleCreate api currentUserId c
   = (AuthContext.Fulfilled tt,
      upd_modal (setError (VStr (lit "Please select at least one user"))) c))
  /\ (selectedUsers (modal c) <> [] ->
      let body := VObj [("participant_ids",
                         VArr (currentUserId
                               :: map VNum (selectedUsers (modal c))))] in
      let c' := (handleCreate api currentUserId c).2 in
      requests c' = requests c ++ [body]
      /\ creating (modal c') = false
      /\ selectedUsers (modal c') = selectedUsers (modal c)
      /\ (forall response data status payload,
            api_createConversation api body = AuthContext.Fulfilled response ->
            get response "data" = Some data ->
            get data "status" = Some status ->
            strict_eq_lit status "success" = true ->
            get data "data" = Some payload ->
            conversations c' = payload :: conversations c
            /\ selectedConversation c' = payload
            /\ showNewChat c' = false
            /\ error (modal c') = VStr [])
      /\ (forall response data status,
            api_createConversation api body = AuthContext.Fulfilled response ->
            get response "data" = Some data ->
            get data "status" = Some status ->
            strict_eq_lit status "success" = false ->
            conversations c' = conversations c
            /\ selectedConversation c' = selectedConversation c
            /\ showNewChat c' = showNewChat c
            /\ error (modal c') = VStr [] /\ console c' = console c)
      /\ (forall reason response,
            api_createConversation api body = AuthContext.Rejected reason ->
            get reason "response" = Some response ->
            (handleCreate api currentUserId c).1 = AuthContext.Fulfilled tt
            /\ conversations c' = conversations c
            /\ selectedConversation c' = selectedConversation c
            /\ showNewChat c' = showNewChat c
            /\ error (modal c')
               = or_else (opt_get (opt_get response "data") "message")
                   (VStr (lit "Failed to create conversation"))
            /\ console c' = console c ++ ["Error creating conversation:"])).
Proof.
  split.
  - intros Hsel. unfold handleCreate, bind, read. simpl. by rewrite Hsel.
  - intros Hne.
    destruct (selectedUsers (modal c)) as [|u us] eqn:Hsel; [done|].
    intros body c'. unfold c'.
    rewrite (handleCreate_table api currentUserId c u us Hsel). fold body.
    split; [|split; [|split; [|split; [|split]]]].
    + repeat (match goal with
              | |- context [match ?x with _ => _ end] => destruct x
              | |- context [if ?x then _ else _] => destruct x
              end); reflexivity.
    + repeat (match goal with
              | |- context [match ?x with _ => _ end] => destruct x
              | |- context [if ?x then _ else _] => destruct x
              end); reflexivity.
    + repeat (match goal with
              | |- context [match ?x with _ => _ end] => destruct x
              | |- context [if ?x then _ else _] => destruct x
              end); simpl; by rewrite ?Hsel.
    + intros response data status payload -> H1 H2 H3 H4.
      rewrite H1, H2, H3, H4. done.
    + intros response data status -> H1 H2 H3. rewrite H1, H2, H3. done.
    + intros reason response -> H1. rewrite H1. done.
Qed.

Lemma handleCreate_outcomes_witness :
  let api := mkAPI (AuthContext.Rejected VNull)
               (fun _ => AuthContext.Rejected (VObj [])) in
  let c := toggleUser 5 (opened [] VNull) in
  requests (handleCreate api (VNum 1) c).2
  = [VObj [("participant_ids", VArr [VNum 1; VNum 5])]]
  /\ error (modal (handleCreate api (VNum 1) c).2)
     = VStr (lit "Failed to create conversation").
Proof.
  intros api c.
  destruct (proj2 (handleCreate_outcomes api (VNum 1) c))
    as (H1 & _ & _ & _ & _ & H6); [discriminate|].
  split; [exact H1|].
  by destruct (H6 (VObj []) VUndefined eq_refl eq_refl) as (_ & _ & _ & _ & H & _).
Defined.

(** What [loadUsers] does to the modal, by the way the request settles. *)
Lemma loadUsers_table (api : API) (c : Chat) :
  let failed := setError (VStr (lit "Failed to load users")) in
  let f :=
    match api_getUsers api with
    | AuthContext.Rejected _ => failed
    | AuthContext.Fulfilled response =>
        match get response "data" with
        | None => failed
        | Some data =>
            match get data "status" with
            | None => failed
            | Some status =>
                if strict_eq_lit status "success"
                then setUsers (default VUndefined (get data "data"))
                else fun m => m
            end
        end
    end in
  loadUsers api c
  = (AuthContext.Fulfilled tt,
     mkChat (conversations c) (selectedConversation c) (showNewChat c)
       (setLoading false (f (modal c))) (requests c) (console c)).
Proof.
  unfold loadUsers, on_success, try_finally, try_catch, bind, await, modify,
    prop, ret, throw, upd_modal. simpl.
  destruct (api_getUsers api) as [response|reason]; simpl; [|done].
  destruct (get response "data") as [data|]; simpl; [|done].
  destruct (get data "status") as [status|] eqn:Hs; simpl; [|done].
  destruct (strict_eq_lit status "success"); simpl; [|by destruct c].
  destruct data; simpl in Hs; try discriminate; done.
Qed.

(** X20. [loadUsers] never rejects and always ends with the modal's
    [loading] false.  It stores the payload of an answer with status
    "success", shows "Failed to load users" when the request is rejected,
    and otherwise leaves the users and the error as they were; it posts
    nothing and never touches the page. *)
Theorem loadUsers_settles (api : API) (c : Chat) :
  exists m',
    loadUsers api c
    = (AuthContext.Fulfilled tt,
       mkChat (conversations c) (selectedConversation c) (showNewChat c) m'
         (requests c) (console c))
    /\ loading m' = false
    /\ selectedUsers m' = selectedUsers (modal c)
    /\ creating m' = creating (modal c)
    /\ (forall reason,
          api_getUsers api = AuthContext.Rejected reason ->
          error m' = VStr (lit "Failed to load users")
          /\ users m' = users (modal c))
    /\ (forall response data status,
          api_getUsers api = AuthContext.Fulfilled response ->
          get response "data" = Some data ->
          get data "status" = Some status ->
          error m' = error (modal c)
          /\ (strict_eq_lit status "success" = false ->
              users m' = users (modal c))
          /\ (forall payload,
                strict_eq_lit status "success" = true ->
                get data "data" = Some payload -> users m' = payload)).
Proof.
  pose proof (loadUsers_table api c) as Ht. cbv zeta in Ht.
  eexists. split; [exact Ht|].
  destruct (api_getUsers api) as [response|reason].
  - split; [by repeat (match goal with
                       | |- context [match ?x with _ => _ end] => destruct x
                       | |- context [if ?x then _ else _] => destruct x
                       end)|].
    split; [by repeat (match goal with
                       | |- context [match ?x with _ => _ end] => destruct x
                       | |- context [if ?x then _ else _] => destruct x
                       end)|].
    split; [by repeat (match goal with
                       | |- context [match ?x with _ => _ end] => destruct x
                       | |- context [if ?x then _ else _] => destruct x
                       end)|].
    split; [intros reason [=]|].
    intros response' data status [= <-] -> ->.
    destruct (strict_eq_lit status "success") eqn:E; simpl.
    + split; [done|]. split; [done|]. intros payload _ ->. done.
    + split; [done|]. split; [done|]. intros payload [=].
  - simpl. split; [done|]. split; [done|]. split; [done|].
    split; [done|]. intros response ? ? [=].
Qed.

Lemma loadUsers_settles_witness :
  let api := mkAPI (AuthContext.Rejected (VObj []))
               (fun _ => AuthContext.Rejected VNull) in
  exists m',
    (loadUsers api (opened [] VNull)).2
    = mkChat [] VNull true m' [] []
    /\ error m' = VStr (lit "Failed to load users").
Proof.
  intros api.
  destruct (loadUsers_settles api (opened [] VNull))
    as (m' & H1 & _ & _ & _ & H5 & _).
  exists m'. split; [by rewrite H1|]. by apply (H5 (VObj [])).
Defined.

End NewConversationMore.

(** ** ConversationList *)

Module ConversationListMore.
Import Js Promise ConversationList.

(** X21. The title of a conversation is never empty: it is the
    conversation's [name] when that is truthy, else its [display_name] when
    that is truthy, else "Chat"; only a [null] or [undefined] conversation
    has no title (the access throws). *)
Theorem title_never_empty (conversation : value) :
  (title conversation = None
   <-> conversation = VNull \/ conversation = VUndefined)
  /\ forall t,
       title conversation = Some t ->
       truthy t = true
       /\ exists name display_name,
            get conversation "name" = Some name
            /\ get conversation "display_name" = Some display_name
            /\ t = (if truthy name then name
                    else if truthy display_name then display_name
                    else VStr (lit "Chat")).
Proof.
  split.
  - unfold title. split.
    + destruct conversation; simpl; try discriminate; auto.
    + by intros [-> | ->].
  - intros t Ht. unfold title in Ht.
    destruct (get conversation "name") as [name|]; [|discriminate].
    destruct (get conversation "display_name") as [display_name|];
      [|discriminate].
    injection Ht as <-. unfold or_else. split.
    + destruct (truthy name) eqn:E1; simpl; rewrite ?E1; [done|].
      destruct (truthy display_name) eqn:E2; simpl; by rewrite ?E2.
    + exists name, display_name. repeat split.
      destruct (truthy name) eqn:E1; simpl; rewrite ?E1; [done|].
      by destruct (truthy display_name).
Qed.

Lemma title_never_empty_witness :
  truthy (VStr (lit "Chat")) = true.
Proof.
  apply (proj2 (title_never_empty
                  (VObj [("name", VNull); ("display_name", VStr [])]))
           (VStr (lit "Chat"))).
  reflexivity.
Defined.

End ConversationListMore.
